(** * obsvec: chunking, incremental indexing, retrieval and the debounced
    watcher, as a shallow embedding of the Go sources.

    Conventions of the embedding.
    - A Go [string] is a byte sequence: [String.string], one [ascii] per byte;
      [len] is the byte length.
    - A Go [int]/[int64] is a [Z]; the line counters, identifiers and
      timestamps that occur here stay far below 2^63.
    - A Go map is a [gmap]; a Go slice is a [list].
    - A call that can fail returns a sum; an index out of range is the
      run-time panic [Panic]. *)

From Stdlib Require Import QArith ZArith Ascii String.
From stdpp Require Import gmap strings list fin_maps sorting.

Local Open Scope string_scope.
Local Open Scope Z_scope.

(** ** Byte-string helpers: the pieces of Go's [strings] package in use. *)

Module Str.

Definition len (s : string) : Z := Z.of_nat (String.length s).

(** [strings.Split(s, "\n")]: one more field than there are separators. *)
Fixpoint Split (s : string) : list string :=
  match s with
  | EmptyString => [EmptyString]
  | String c rest =>
      if Ascii.eqb c "010"%char then EmptyString :: Split rest
      else match Split rest with
           | [] => [String c EmptyString]
           | l :: ls => String c l :: ls
           end
  end.

(** [strings.Join(elems, sep)]. *)
Fixpoint Join (elems : list string) (sep : string) : string :=
  match elems with
  | [] => EmptyString
  | [e] => e
  | e :: rest => e ++ sep ++ Join rest sep
  end.

Definition HasPrefix (s pre : string) : bool := String.prefix pre s.

Definition HasSuffix (s suf : string) : bool :=
  let n := String.length s in
  let m := String.length suf in
  (m <=? n)%nat && String.eqb (String.substring (n - m) m s) suf.

(** [strings.ToLower] on the ASCII letters. Every other byte is kept; for
    the suffix test against [".md"], the only use made of it, this agrees
    with Go's Unicode lowering, which maps no other rune to ['.'], ['m']
    or ['d']. *)
Definition lowerByte (c : ascii) : ascii :=
  let n := nat_of_ascii c in
  if (65 <=? n)%nat && (n <=? 90)%nat then ascii_of_nat (n + 32) else c.

Fixpoint ToLower (s : string) : string :=
  match s with
  | EmptyString => EmptyString
  | String c rest => String (lowerByte c) (ToLower rest)
  end.

(** The byte length of the white-space rune a byte list starts with, or 0.
    [unicode.IsSpace]: the six ASCII spaces, U+0085, U+00A0, U+1680,
    U+2000..U+200A, U+2028, U+2029, U+202F, U+205F, U+3000, in UTF-8. *)
Definition asciiSpace (c : ascii) : bool :=
  let n := nat_of_ascii c in
  ((9 <=? n)%nat && (n <=? 13)%nat) || (n =? 32)%nat.

Definition spaceRune3 (a b c : nat) : bool :=
  ((a =? 225) && (b =? 154) && (c =? 128))%nat
  || ((a =? 226) && (b =? 128) && (128 <=? c) && (c <=? 138))%nat
  || ((a =? 226) && (b =? 128) && ((c =? 168) || (c =? 169) || (c =? 175)))%nat
  || ((a =? 226) && (b =? 129) && (c =? 159))%nat
  || ((a =? 227) && (b =? 128) && (c =? 128))%nat.

Definition spaceRune2 (a b : nat) : bool :=
  ((a =? 194) && ((b =? 133) || (b =? 160)))%nat.

Definition leadingSpace (l : list ascii) : nat :=
  match l with
  | a :: tl =>
      if asciiSpace a then 1%nat
      else match tl with
           | b :: tl' =>
               if spaceRune2 (nat_of_ascii a) (nat_of_ascii b) then 2%nat
               else match tl' with
                    | c :: _ =>
                        if spaceRune3 (nat_of_ascii a) (nat_of_ascii b)
                             (nat_of_ascii c)
                        then 3%nat else 0%nat
                    | [] => 0%nat
                    end
           | [] => 0%nat
           end
  | [] => 0%nat
  end.

(** The same for the rune a reversed byte list ends with. *)
Definition trailingSpace (r : list ascii) : nat :=
  match r with
  | c :: tl =>
      if asciiSpace c then 1%nat
      else match tl with
           | b :: tl' =>
               if spaceRune2 (nat_of_ascii b) (nat_of_ascii c) then 2%nat
               else match tl' with
                    | a :: _ =>
                        if spaceRune3 (nat_of_ascii a) (nat_of_ascii b)
                             (nat_of_ascii c)
                        then 3%nat else 0%nat
                    | [] => 0%nat
                    end
           | [] => 0%nat
           end
  | [] => 0%nat
  end.

Fixpoint trimWith (width : list ascii -> nat) (fuel : nat) (l : list ascii)
  : list ascii :=
  match fuel with
  | O => l
  | S fuel' =>
      match width l with
      | O => l
      | n => trimWith width fuel' (drop n l)
      end
  end.

(** [strings.TrimSpace]: leading and trailing white-space runes removed. *)
Definition TrimSpace (s : string) : string :=
  let l := list_ascii_of_string s in
  let l1 := trimWith leadingSpace (length l) l in
  let r := rev l1 in
  let r1 := trimWith trailingSpace (length r) r in
  string_of_list_ascii (rev r1).

(** A string of [n] copies of one byte. *)
Fixpoint Repeat (c : ascii) (n : nat) : string :=
  match n with
  | O => EmptyString
  | S n' => String c (Repeat c n')
  end.

End Str.

(** ** The chunker ([internal/indexer/indexer.go], [chunkMarkdown]). *)

Module Chunker.

Record Chunk := mkChunk {
  Content : string;
  StartLine : Z;
  EndLine : Z;
  Heading : string
}.

Definition maxChunkTokens : Z := 500.
Definition avgCharsPerToken : Z := 4.

(** [span p l]: the longest prefix of [l] whose elements satisfy [p], and
    what follows it. *)
Fixpoint span {A} (p : A -> bool) (l : list A) : list A * list A :=
  match l with
  | [] => ([], [])
  | x :: tl =>
      if p x then let '(a, b) := span p tl in (x :: a, b) else ([], l)
  end.

Definition isHash (c : ascii) : bool := Ascii.eqb c "#"%char.

Definition isNewline (c : ascii) : bool := Ascii.eqb c "010"%char.

(** The class [\s] of Go's regexp syntax: tab, newline, form feed, carriage
    return, space. *)
Definition reSpace (c : ascii) : bool :=
  let n := nat_of_ascii c in
  ((n =? 9) || (n =? 10) || (n =? 12) || (n =? 13) || (n =? 32))%nat.

(** [headingRegex.FindStringSubmatch] for [^(#{1,6})\s+(.+)$]: the two
    groups of the match, if the line matches. The first group is the whole
    run of leading marks (one to six of them); [\s+] is greedy, so the
    second group starts at the first byte after the white space, or, when
    nothing follows the white space, it is the last white-space byte. [.]
    does not match a newline. *)
Definition headingRegex (line : string) : option (string * string) :=
  let '(hashes, rest) := span isHash (list_ascii_of_string line) in
  if ((1 <=? length hashes) && (length hashes <=? 6))%nat then
    let '(ws, r) := span reSpace rest in
    match ws, r with
    | [], _ => None
    | _ :: _, _ :: _ =>
        if existsb isNewline r then None
        else Some (string_of_list_ascii hashes, string_of_list_ascii r)
    | _ :: _, [] =>
        match rev ws with
        | c :: _ :: _ =>
            if isNewline c then None
            else Some (string_of_list_ascii hashes, String c EmptyString)
        | _ => None
        end
    end
  else None.

(** The local variables of [chunkMarkdown]. *)
Record state := mkState {
  chunks : list Chunk;
  currentChunk : string;
  currentHeading : string;
  headingStack : list string;
  startLine : Z;
  currentLine : Z
}.

Definition init : state :=
  {| chunks := []; currentChunk := ""; currentHeading := "";
     headingStack := []; startLine := 1; currentLine := 1 |}.

(** Whether a flushed buffer is kept as a chunk. *)
Definition kept (text : string) : bool :=
  negb (String.eqb text "") && (20 <? Str.len text).

(** The closure [flushChunk]. *)
Definition flushChunk (st : state) : state :=
  let text := Str.TrimSpace (currentChunk st) in
  {| chunks :=
       if kept text
       then chunks st ++ [ {| Content := text;
                              StartLine := startLine st;
                              EndLine := currentLine st - 1;
                              Heading := currentHeading st |} ]
       else chunks st;
     currentChunk := "";
     currentHeading := currentHeading st;
     headingStack := headingStack st;
     startLine := currentLine st;
     currentLine := currentLine st |}.

(** [for len(headingStack) >= level { headingStack = headingStack[:len-1] }];
    each turn removes one entry, so [length stack] turns are enough. *)
Fixpoint popWhile (fuel : nat) (level : Z) (stack : list string)
  : list string :=
  match fuel with
  | O => stack
  | S fuel' =>
      if level <=? Z.of_nat (length stack)
      then popWhile fuel' level (removelast stack)
      else stack
  end.

(** The [if match != nil] block of the loop body. *)
Definition onHeading (hashes headingText : string) (st : state) : state :=
  let st1 := flushChunk st in
  let level := Str.len hashes in
  let stack :=
    (popWhile (length (headingStack st1)) level (headingStack st1)
       ++ [headingText])%list in
  {| chunks := chunks st1;
     currentChunk := currentChunk st1;
     currentHeading := Str.Join stack " > ";
     headingStack := stack;
     startLine := currentLine st1;
     currentLine := currentLine st1 |}.

Definition writeLine (line : string) (st : state) : state :=
  {| chunks := chunks st;
     currentChunk := currentChunk st ++ line ++ String "010"%char "";
     currentHeading := currentHeading st;
     headingStack := headingStack st;
     startLine := startLine st;
     currentLine := currentLine st |}.

Definition nextLine (st : state) : state :=
  {| chunks := chunks st;
     currentChunk := currentChunk st;
     currentHeading := currentHeading st;
     headingStack := headingStack st;
     startLine := startLine st;
     currentLine := currentLine st + 1 |}.

(** One turn of [for _, line := range lines]. *)
Definition step (st : state) (line : string) : state :=
  let st1 :=
    match headingRegex line with
    | Some (hashes, headingText) => onHeading hashes headingText st
    | None => st
    end in
  let st2 := writeLine line st1 in
  let st3 :=
    if maxChunkTokens * avgCharsPerToken <? Str.len (currentChunk st2)
    then flushChunk st2 else st2 in
  nextLine st3.

Definition run (lines : list string) : state := fold_left step lines init.

Definition chunkMarkdown (content : string) : list Chunk :=
  chunks (flushChunk (run (Str.Split content))).

(** The ranges of the chunks never go back: each chunk starts after the
    line the one before it ends on. *)
Inductive ascending : list Chunk -> Prop :=
  | ascending_nil : ascending []
  | ascending_snoc l c :
      ascending l ->
      (forall c', c' ∈ l -> EndLine c' < StartLine c) ->
      ascending (l ++ [c]).

Definition inv (st : state) : Prop :=
  ascending (chunks st)
  /\ (forall c, c ∈ chunks st -> EndLine c < startLine st)
  /\ startLine st <= currentLine st.

End Chunker.

(** ** Errors and outcomes. *)

Module Go.

(** Where an error is wrapped ([fmt.Errorf("...: %w", err)]) or created. *)
Inductive context :=
  | FailedToFindMarkdownFiles
  | FailedToGetExistingDocuments
  | FailedToDeleteDocument (path : string)
  | FailedToParse (path : string)
  | FailedToGenerateEmbeddingsForBatch (batchNum : Z)
  | FailedToSerializeEmbedding
  | FailedToInsertEmbedding
  | EmbedRequestFailed
  | EmbedQueryFailed
  | RerankRequestFailed
  | FailedToEmbedQuery
  | FailedToSerializeQueryEmbedding
  | VectorSearchFailed
  | RerankFailed.

Inductive error :=
  | External (msg : string)
      (** an error value made outside the repository: the operating system,
          the provider's SDK, SQLite *)
  | errNoEmbeddings
      (** the package variable [errNoEmbeddings] of [internal/cohere] *)
  | NoEmbeddingReturned
      (** [fmt.Errorf("no embedding returned")] *)
  | Wrap (ctx : context) (inner : error).

(** [errors.Is(err, errNoEmbeddings)]. *)
Fixpoint IsNoEmbeddings (e : error) : bool :=
  match e with
  | errNoEmbeddings => true
  | Wrap _ inner => IsNoEmbeddings inner
  | _ => false
  end.

(** What a call comes to: a value, a returned error, or a run-time panic
    (here always an index out of range). *)
Inductive outcome (A : Type) :=
  | Ok (a : A)
  | Err (e : error)
  | Panic.

Arguments Ok {A} a.
Arguments Err {A} e.
Arguments Panic {A}.

Definition isPanic {A} (o : outcome A) : bool :=
  match o with Panic => true | _ => false end.

(** [s[i]] on a slice: out of range panics. *)
Definition index {A} (s : list A) (i : Z) : outcome A :=
  if (i <? 0) then Panic
  else match s !! Z.to_nat i with
       | Some x => Ok x
       | None => Panic
       end.

End Go.

Export Go.

Abbreviation bytes := (list Byte.byte).

(** ** What the repository calls but does not contain. *)

Inductive EmbedInputType := SearchDocument | SearchQuery.

Record V2EmbedRequest := {
  Texts : list string;
  EmbedModel : string;
  InputType : EmbedInputType;
  OutputDimension : Z
}.

Record V2RerankRequest := {
  RerankModel : string;
  Query : string;
  Documents : list string;
  TopN : Z
}.

(** The provider's SDK, the serializer and the nearest-neighbour scan of
    sqlite-vec, [path/filepath.Rel], and IEEE floating point, which the
    code only moves around. [None] stands for Go's [nil] where the code
    tests for it. *)
Class Collaborators := {
  float32 : Type;
  float64 : Type;
  toFloat32 : float64 -> float32;
  SerializeFloat32 : list float32 -> error + bytes;
  Provider : Type;
  (** [resp.Embeddings.Float], with both levels of [nil] *)
  V2Embed : Provider -> V2EmbedRequest ->
            (error + option (option (list (list float64)))) * Provider;
  (** [resp.Results] as pairs of [Index] and [RelevanceScore] *)
  V2Rerank : Provider -> V2RerankRequest ->
             (error + list (Z * float64)) * Provider;
  (** [WHERE embedding MATCH ? AND k = ? ORDER BY distance] over the rows of
      [vec_chunks]: chunk ids with their distances *)
  vecMatch : gmap Z bytes -> bytes -> Z -> error + list (Z * float64);
  Rel : string -> string -> error + string;
  (** [extractTitle], a [bufio.Scanner] loop over the content; no property
      below reads a title, so it is left uninterpreted *)
  extractTitle : string -> string -> string
}.

(** ** The store ([internal/db]): three tables and the connection's
    [last_insert_rowid] register.

    [documents] has [path] UNIQUE and is kept as a map from the path to the
    rest of the row; [chunks] and [vec_chunks] are keyed by their INTEGER
    PRIMARY KEY. The functions of this module are the statements that
    succeed: a statement succeeds unless it breaks a constraint of the
    schema. The errors SQLite returns for other reasons enter with
    [storeFault] of the world, for the query of [GetAllDocuments] and the
    statements of [DeleteDocument], with which a pass and the watcher
    remove the documents of the notes that are gone; the other statements
    are taken to succeed. *)

Module Store.

Module Document.
Record t := mk {
  ID : Z;
  Path : string;
  Title : string;
  ModifiedAt : Z;
  IndexedAt : Z
}.
End Document.

Module Chunk.
Record t := mk {
  ID : Z;
  DocID : Z;
  Content : string;
  StartLine : Z;
  EndLine : Z;
  Heading : string
}.
End Chunk.

(** A row of [documents] without its path, and a row of [chunks] without
    its id. *)
Record docRow := {
  doc_id : Z;
  doc_title : string;
  doc_modified_at : Z;
  doc_indexed_at : Z
}.

Record chunkRow := {
  chunk_doc_id : Z;
  chunk_content : string;
  chunk_start_line : Z;
  chunk_end_line : Z;
  chunk_heading : string
}.

Record DB := mkDB {
  embedDim : Z;
  documents : gmap string docRow;
  chunks : gmap Z chunkRow;
  vec_chunks : gmap Z bytes;
  last_insert_rowid : Z
}.

Definition Open (dim : Z) : DB :=
  {| embedDim := dim; documents := ∅; chunks := ∅; vec_chunks := ∅;
     last_insert_rowid := 0 |}.

Definition toDocument (kv : string * docRow) : Document.t :=
  {| Document.ID := doc_id kv.2;
     Document.Path := kv.1;
     Document.Title := doc_title kv.2;
     Document.ModifiedAt := doc_modified_at kv.2;
     Document.IndexedAt := doc_indexed_at kv.2 |}.

Definition toChunk (kv : Z * chunkRow) : Chunk.t :=
  {| Chunk.ID := kv.1;
     Chunk.DocID := chunk_doc_id kv.2;
     Chunk.Content := chunk_content kv.2;
     Chunk.StartLine := chunk_start_line kv.2;
     Chunk.EndLine := chunk_end_line kv.2;
     Chunk.Heading := chunk_heading kv.2 |}.

(** The rowid SQLite gives to a new row of a table without AUTOINCREMENT:
    one more than the largest in use, 1 in an empty table. *)
Definition nextRowid (ids : list Z) : Z := foldr Z.max 0 ids + 1.

Definition documentIDs (db : DB) : list Z :=
  (λ kv, doc_id kv.2) <$> map_to_list (documents db).

Definition chunkIDs (db : DB) : list Z := (map_to_list (chunks db)).*1.

(** [SELECT id, path, title, modified_at, indexed_at FROM documents]. *)
Definition GetAllDocuments (db : DB) : list Document.t :=
  toDocument <$> map_to_list (documents db).

Definition GetDocument (db : DB) (path : string) : option Document.t :=
  (λ r, toDocument (path, r)) <$> documents db !! path.

(** [INSERT ... ON CONFLICT(path) DO UPDATE ...], then
    [result.LastInsertId()]: the driver reports the connection's
    [last_insert_rowid], which only the INSERT branch sets; the driver never
    fails that call, so the fallback SELECT is dead. *)
Definition UpsertDocument (db : DB) (path title : string)
    (modifiedAt indexedAt : Z) : Z * DB :=
  match documents db !! path with
  | Some r =>
      let r' := {| doc_id := doc_id r; doc_title := title;
                   doc_modified_at := modifiedAt;
                   doc_indexed_at := indexedAt |} in
      (last_insert_rowid db,
       {| embedDim := embedDim db;
          documents := <[path := r']> (documents db);
          chunks := chunks db;
          vec_chunks := vec_chunks db;
          last_insert_rowid := last_insert_rowid db |})
  | None =>
      let id := nextRowid (documentIDs db) in
      let r' := {| doc_id := id; doc_title := title;
                   doc_modified_at := modifiedAt;
                   doc_indexed_at := indexedAt |} in
      (id,
       {| embedDim := embedDim db;
          documents := <[path := r']> (documents db);
          chunks := chunks db;
          vec_chunks := vec_chunks db;
          last_insert_rowid := id |})
  end.

(** [SELECT id FROM chunks WHERE doc_id = ?]. *)
Definition chunkIDsOf (db : DB) (docID : Z) : list Z :=
  (map_to_list (filter (λ kv, chunk_doc_id kv.2 = docID) (chunks db))).*1.

(** The three DELETE statements [DeleteChunksForDocument] issues. *)
Definition DeleteChunksForDocument (db : DB) (docID : Z) : DB :=
  {| embedDim := embedDim db;
     documents := documents db;
     chunks := filter (λ kv, chunk_doc_id kv.2 ≠ docID) (chunks db);
     vec_chunks :=
       foldr (λ chunkID vec, delete chunkID vec) (vec_chunks db)
         (chunkIDsOf db docID);
     last_insert_rowid := last_insert_rowid db |}.

Definition DeleteDocument (db : DB) (path : string) : DB :=
  match documents db !! path with
  | None => db
  | Some r =>
      let docID := doc_id r in
      let db1 := DeleteChunksForDocument db docID in
      {| embedDim := embedDim db1;
         documents := filter (λ kv, doc_id kv.2 ≠ docID) (documents db1);
         chunks := chunks db1;
         vec_chunks := vec_chunks db1;
         last_insert_rowid := last_insert_rowid db1 |}
  end.

Definition InsertChunk (db : DB) (docID : Z) (content : string)
    (startLine endLine : Z) (heading : string) : Z * DB :=
  let id := nextRowid (chunkIDs db) in
  let r := {| chunk_doc_id := docID; chunk_content := content;
              chunk_start_line := startLine; chunk_end_line := endLine;
              chunk_heading := heading |} in
  (id,
   {| embedDim := embedDim db;
      documents := documents db;
      chunks := <[id := r]> (chunks db);
      vec_chunks := vec_chunks db;
      last_insert_rowid := id |}).

(** [INSERT INTO vec_chunks (chunk_id, embedding)]: the vec0 table refuses
    a second row for a chunk id and a vector that is not [embedDim] floats
    of four bytes. *)
Definition InsertEmbedding (db : DB) (chunkID : Z) (embedding : bytes)
  : error + DB :=
  match vec_chunks db !! chunkID with
  | Some _ => inl (External "UNIQUE constraint failed on vec_chunks primary key")
  | None =>
      if Z.of_nat (length embedding) =? 4 * embedDim db
      then inr {| embedDim := embedDim db;
                  documents := documents db;
                  chunks := chunks db;
                  vec_chunks := <[chunkID := embedding]> (vec_chunks db);
                  last_insert_rowid := chunkID |}
      else inl (External "Dimension mismatch for inserted vector")
  end.

Section Search.
Context `{Collaborators}.

Record ChunkWithScore := {
  Chunk : Chunk.t;
  Distance : float64;
  Path : string
}.

(** The document whose id is [docID] ([JOIN documents d ON d.id = c.doc_id]). *)
Definition pathOfDocument (db : DB) (docID : Z) : option string :=
  fst <$> head (map_to_list (filter (λ kv, doc_id kv.2 = docID) (documents db))).

(** One row of the join, for a hit of the vector scan. *)
Definition joinHit (db : DB) (hit : Z * float64) : option ChunkWithScore :=
  match chunks db !! hit.1 with
  | None => None
  | Some c =>
      match pathOfDocument db (chunk_doc_id c) with
      | None => None
      | Some path =>
          Some {| Chunk := toChunk (hit.1, c); Distance := hit.2;
                  Path := path |}
      end
  end.

Definition SearchSimilar (db : DB) (queryEmbedding : bytes) (limit : Z)
  : error + list ChunkWithScore :=
  match vecMatch (vec_chunks db) queryEmbedding limit with
  | inl e => inl e
  | inr hits => inr (omap (joinHit db) hits)
  end.

End Search.

End Store.

(** ** The world the indexer, the searcher and the watcher act on. *)

Module Env.

(** A regular file below the vault root: [info.ModTime()] in nanoseconds
    since the epoch, and what [os.ReadFile] returns. *)
Record File := {
  ModTime : Z;
  Data : string
}.

(** [time.Time.Unix]: whole seconds, rounded down. *)
Definition Unix (t : Z) : Z := t / 1000000000.

(** What the watcher reports through [w.message]. *)
Inductive Message :=
  | DetectedChange (relPath : string)
  | RemovedFromIndex (relPath : string)
  | Indexing (relPath : string)
  | ErrorIndexing (relPath : string) (err : error)
  | Indexed (relPath : string).

(** The calls that leave the process, in the order they are made. *)
Inductive Call :=
  | CallReadFile (relPath : string)
  | CallEmbed (req : V2EmbedRequest)
  | CallRerank (req : V2RerankRequest)
  | CallMessage (msg : Message).

(** The statements of the store that may fail for a reason of SQLite's
    own: the query of [GetAllDocuments] and the five kinds of statement
    [DeleteDocument] issues. *)
Inductive StoreOp :=
  | SelectAllDocuments
  | SelectDocumentID (path : string)
  | SelectChunkIDs (docID : Z)
  | DeleteEmbedding (chunkID : Z)
  | DeleteChunks (docID : Z)
  | DeleteDocumentRow (docID : Z).

(** A store that answers every statement. *)
Definition noFault : StoreOp -> Store.DB -> option error := λ _ _, None.

Section World.
Context `{Collaborators}.

(** [fs] is keyed by the path relative to the vault root, so
    [os.Stat(filepath.Join(dir, relPath))] is a lookup of [relPath];
    [found] is what [findMarkdownFiles] returns, the walk being the file
    system's; [now] is [time.Now()] in nanoseconds; [calls] records the
    outside calls made so far; [storeFault] is the error, if any, that
    SQLite returns for a statement in a state of the store. *)
Record World := mkWorld {
  dir : string;
  fs : gmap string File;
  found : error + list string;
  db : Store.DB;
  provider : Provider;
  now : Z;
  calls : list Call;
  storeFault : StoreOp -> Store.DB -> option error
}.

Definition setDB (d : Store.DB) (w : World) : World :=
  {| dir := dir w; fs := fs w; found := found w; db := d;
     provider := provider w; now := now w; calls := calls w;
     storeFault := storeFault w |}.

Definition setProvider (p : Provider) (w : World) : World :=
  {| dir := dir w; fs := fs w; found := found w; db := db w;
     provider := p; now := now w; calls := calls w;
     storeFault := storeFault w |}.

Definition setNow (t : Z) (w : World) : World :=
  {| dir := dir w; fs := fs w; found := found w; db := db w;
     provider := provider w; now := t; calls := calls w;
     storeFault := storeFault w |}.

Definition record (c : Call) (w : World) : World :=
  {| dir := dir w; fs := fs w; found := found w; db := db w;
     provider := provider w; now := now w; calls := (calls w ++ [c])%list;
     storeFault := storeFault w |}.

(** Computations on the world that return, fail or panic. *)
Definition M (A : Type) : Type := World -> outcome A * World.

Definition ret {A} (a : A) : M A := λ w, (Ok a, w).

Definition fail {A} (e : error) : M A := λ w, (Err e, w).

Definition panic {A} : M A := λ w, (Panic, w).

Definition bind {A B} (m : M A) (k : A -> M B) : M B :=
  λ w, match m w with
       | (Ok a, w') => k a w'
       | (Err e, w') => (Err e, w')
       | (Panic, w') => (Panic, w')
       end.

(** [if err != nil { return fmt.Errorf("ctx: %w", err) }]. *)
Definition wrap {A} (ctx : context) (m : M A) : M A :=
  λ w, match m w with
       | (Err e, w') => (Err (Wrap ctx e), w')
       | r => r
       end.

Definition lift {A} (o : outcome A) : M A := λ w, (o, w).

(** [for _, x := range l { ... }] with an early return on error. *)
Fixpoint forEach {A} (l : list A) (body : A -> M unit) : M unit :=
  match l with
  | [] => ret tt
  | x :: rest => bind (body x) (λ _, forEach rest body)
  end.

(** [os.Stat] and [os.ReadFile] below the root. *)
Definition Stat (relPath : string) : M File :=
  λ w, match fs w !! relPath with
       | Some f => (Ok f, w)
       | None => (Err (External "no such file or directory"), w)
       end.

Definition ReadFile (relPath : string) : M string :=
  λ w, match fs w !! relPath with
       | Some f => (Ok (Data f), record (CallReadFile relPath) w)
       | None =>
           (Err (External "no such file or directory"),
            record (CallReadFile relPath) w)
       end.

(** Files, listing and root are the same in both worlds. *)
Definition sameFiles (w w' : World) : Prop :=
  fs w' = fs w /\ found w' = found w /\ dir w' = dir w.

(** [m] takes a world only to worlds related to it by [R]. *)
Definition keeps {A} (R : World -> World -> Prop) (m : M A) : Prop :=
  forall w o w', m w = (o, w') -> R w w'.

End World.

End Env.

Export Env.

Declare Scope go_scope.
Delimit Scope go_scope with go.
Notation "x <- m ;; k" := (bind m (λ x, k))
  (at level 100, m at next level, right associativity) : go_scope.
Notation "m ;;; k" := (bind m (λ _, k))
  (at level 100, right associativity) : go_scope.

(** ** The provider client ([internal/cohere/client.go]). *)

Module Cohere.
Section Client.
Context `{Collaborators}.
Local Open Scope go_scope.

Record Client := {
  embedModel : string;
  rerankModel : string;
  embedDim : Z
}.

Record EmbeddingResult := { Embedding : list float32 }.

Record RerankResult := { Index : Z; Score : float64 }.

Definition float64sToFloat32s (f64s : list float64) : list float32 :=
  toFloat32 <$> f64s.

Definition embed (c : Client) (texts : list string)
    (inputType : EmbedInputType) : M (list (list float32)) :=
  λ w,
    match texts with
    | [] => (Ok [], w)
    | _ :: _ =>
        let req := {| Texts := texts; EmbedModel := embedModel c;
                      InputType := inputType;
                      OutputDimension := embedDim c |} in
        let '(resp, p) := V2Embed (provider w) req in
        let w' := setProvider p (record (CallEmbed req) w) in
        match resp with
        | inl err => (Err err, w')
        | inr None | inr (Some None) => (Err errNoEmbeddings, w')
        | inr (Some (Some floats)) =>
            (Ok (float64sToFloat32s <$> floats), w')
        end
    end.

Definition EmbedDocuments (c : Client) (texts : list string)
  : M (list EmbeddingResult) :=
  match texts with
  | [] => ret []
  | _ :: _ =>
      λ w,
        match embed c texts SearchDocument w with
        | (Err err, w') =>
            if IsNoEmbeddings err then (Err err, w')
            else (Err (Wrap EmbedRequestFailed err), w')
        | (Panic, w') => (Panic, w')
        | (Ok embeddings, w') =>
            (Ok ((λ emb, {| Embedding := emb |}) <$> embeddings), w')
        end
  end.

Definition EmbedQuery (c : Client) (query : string) : M (list float32) :=
  λ w,
    match embed c [query] SearchQuery w with
    | (Err err, w') =>
        if IsNoEmbeddings err then (Err NoEmbeddingReturned, w')
        else (Err (Wrap EmbedQueryFailed err), w')
    | (Panic, w') => (Panic, w')
    | (Ok embeddings, w') =>
        match embeddings with
        | [] => (Err NoEmbeddingReturned, w')
        | e0 :: _ => (Ok e0, w')
        end
    end.

Definition Rerank (c : Client) (query : string) (documents : list string)
    (topN : Z) : M (list RerankResult) :=
  match documents with
  | [] => ret []
  | _ :: _ =>
      λ w,
        let req := {| RerankModel := rerankModel c; Query := query;
                      Documents := documents; TopN := topN |} in
        let '(resp, p) := V2Rerank (provider w) req in
        let w' := setProvider p (record (CallRerank req) w) in
        match resp with
        | inl err => (Err (Wrap RerankRequestFailed err), w')
        | inr results =>
            (Ok ((λ r, {| Index := r.1; Score := r.2 |}) <$> results), w')
        end
  end.

End Client.
End Cohere.

(** ** The indexer ([internal/indexer/indexer.go]). The progress callbacks
    are optional in the source ([if progress != nil]) and report only; the
    model is the code with [progress = nil]. *)

Module Indexer.

Definition batchSize : Z := 96.

Definition isHiddenDir (name : string) : bool := Str.HasPrefix name ".".

Definition isHiddenRelPath (relPath : string) : bool :=
  Str.HasPrefix relPath ".".

Definition isMarkdownFile (name : string) : bool :=
  Str.HasSuffix (Str.ToLower name) ".md".

Record pendingChunk := {
  chunkID : Z;
  content : string
}.

(** [s[i:j]] for [0 <= i <= j <= len(s)]. *)
Definition slice {A} (s : list A) (i j : Z) : list A :=
  take (Z.to_nat (j - i)) (drop (Z.to_nat i) s).

(** The single DELETE statements of [DeleteDocument]. *)
Definition deleteEmbedding (chunkID : Z) (d : Store.DB) : Store.DB :=
  {| Store.embedDim := Store.embedDim d;
     Store.documents := Store.documents d;
     Store.chunks := Store.chunks d;
     Store.vec_chunks := delete chunkID (Store.vec_chunks d);
     Store.last_insert_rowid := Store.last_insert_rowid d |}.

Definition deleteChunkRows (docID : Z) (d : Store.DB) : Store.DB :=
  {| Store.embedDim := Store.embedDim d;
     Store.documents := Store.documents d;
     Store.chunks := filter (λ kv, Store.chunk_doc_id kv.2 ≠ docID)
                       (Store.chunks d);
     Store.vec_chunks := Store.vec_chunks d;
     Store.last_insert_rowid := Store.last_insert_rowid d |}.

Definition deleteDocumentRow (docID : Z) (d : Store.DB) : Store.DB :=
  {| Store.embedDim := Store.embedDim d;
     Store.documents := filter (λ kv, Store.doc_id kv.2 ≠ docID)
                          (Store.documents d);
     Store.chunks := Store.chunks d;
     Store.vec_chunks := Store.vec_chunks d;
     Store.last_insert_rowid := Store.last_insert_rowid d |}.

Section Indexer.
Context `{Collaborators}.
Local Open Scope go_scope.

(** Store calls, as steps on the world. *)
Definition UpsertDocument (path title : string) (modifiedAt indexedAt : Z)
  : M Z :=
  λ w, let '(id, d) :=
         Store.UpsertDocument (db w) path title modifiedAt indexedAt in
       (Ok id, setDB d w).

Definition DeleteChunksForDocument (docID : Z) : M unit :=
  λ w, (Ok tt, setDB (Store.DeleteChunksForDocument (db w) docID) w).

(** A query that changes nothing, and a statement with its effect; each
    returns SQLite's error when there is one. *)
Definition query (op : StoreOp) : M unit :=
  λ w, match storeFault w op (db w) with
       | Some e => (Err e, w)
       | None => (Ok tt, w)
       end.

Definition statement (op : StoreOp) (effect : Store.DB -> Store.DB)
  : M unit :=
  λ w, match storeFault w op (db w) with
       | Some e => (Err e, w)
       | None => (Ok tt, setDB (effect (db w)) w)
       end.

(** [db.DeleteDocument]: the id of the path's row ([sql.ErrNoRows] is not
    an error), the ids of its chunks, one DELETE for the embedding of each
    chunk, one for the chunks and one for the row; the first error ends
    the call, with what was deleted before it deleted. *)
Definition DeleteDocument (path : string) : M unit :=
  λ w, match query (SelectDocumentID path) w with
       | (Ok _, _) =>
           match Store.documents (db w) !! path with
           | None => (Ok tt, w)
           | Some r =>
               let docID := Store.doc_id r in
               (query (SelectChunkIDs docID) ;;;
                forEach (Store.chunkIDsOf (db w) docID)
                  (λ chunkID, statement (DeleteEmbedding chunkID)
                                (deleteEmbedding chunkID)) ;;;
                statement (DeleteChunks docID) (deleteChunkRows docID) ;;;
                statement (DeleteDocumentRow docID) (deleteDocumentRow docID))
                 w
           end
       | r => r
       end.

Definition InsertChunk (docID : Z) (c : Chunker.Chunk) : M Z :=
  λ w, let '(id, d) :=
         Store.InsertChunk (db w) docID (Chunker.Content c)
           (Chunker.StartLine c) (Chunker.EndLine c) (Chunker.Heading c) in
       (Ok id, setDB d w).

Definition InsertEmbedding (chunkID : Z) (embedding : bytes) : M unit :=
  λ w, match Store.InsertEmbedding (db w) chunkID embedding with
       | inl e => (Err e, w)
       | inr d => (Ok tt, setDB d w)
       end.

Definition GetAllDocuments : M (list Store.Document.t) :=
  λ w, match storeFault w SelectAllDocuments (db w) with
       | Some e => (Err e, w)
       | None => (Ok (Store.GetAllDocuments (db w)), w)
       end.

Definition findMarkdownFiles : M (list string) :=
  λ w, match found w with
       | inl e => (Err e, w)
       | inr files => (Ok files, w)
       end.

Definition needsIndexing (relPath : string) (fullReindex : bool)
    (doc : option Store.Document.t) : M bool :=
  if fullReindex then ret true
  else match doc with
       | None => ret true
       | Some d =>
           info <- Stat relPath ;;
           ret (Store.Document.ModifiedAt d <? Unix (ModTime info))
       end.

(** The loop of [parseFile] over the chunks. *)
Fixpoint insertChunks (docID : Z) (chunks : list Chunker.Chunk)
  : M (list pendingChunk) :=
  match chunks with
  | [] => ret []
  | chunk :: rest =>
      id <- InsertChunk docID chunk ;;
      pending <- insertChunks docID rest ;;
      ret ({| chunkID := id; content := Chunker.Content chunk |} :: pending)
  end.

Definition parseFile (relPath : string) : M (list pendingChunk) :=
  info <- Stat relPath ;;
  content <- ReadFile relPath ;;
  let title := extractTitle content relPath in
  docID <- (λ w, UpsertDocument relPath title (Unix (ModTime info))
                   (Unix (now w)) w) ;;
  DeleteChunksForDocument docID ;;;
  insertChunks docID (Chunker.chunkMarkdown content).

(** [for j, p := range batch]: read [embeddings[j]], serialize, insert. *)
Fixpoint insertBatch (embeddings : list Cohere.EmbeddingResult) (j : Z)
    (batch : list pendingChunk) : M unit :=
  match batch with
  | [] => ret tt
  | p :: rest =>
      e <- lift (index embeddings j) ;;
      embBytes <- wrap FailedToSerializeEmbedding
                    (match SerializeFloat32 (Cohere.Embedding e) with
                     | inl err => fail err
                     | inr b => ret b
                     end) ;;
      wrap FailedToInsertEmbedding (InsertEmbedding (chunkID p) embBytes) ;;;
      insertBatch embeddings (j + 1) rest
  end.

(** [for i := 0; i < len(pending); i += batchSize]; [i] grows by 96 each
    turn, so [length pending] turns are enough. *)
Fixpoint embedLoop (fuel : nat) (c : Cohere.Client)
    (pending : list pendingChunk) (i : Z) : M unit :=
  match fuel with
  | O => ret tt
  | S fuel' =>
      if i <? Z.of_nat (length pending) then
        let stop := Z.min (i + batchSize) (Z.of_nat (length pending)) in
        let batch := slice pending i stop in
        let batchNum := i / batchSize + 1 in
        let texts := content <$> batch in
        embeddings <- wrap (FailedToGenerateEmbeddingsForBatch batchNum)
                        (Cohere.EmbedDocuments c texts) ;;
        insertBatch embeddings 0 batch ;;;
        embedLoop fuel' c pending (i + batchSize)
      else ret tt
  end.

(** The same loop, written on [pending[i:]], the units still to be
    submitted; [embedLoop_embedFrom] relates the two. *)
Fixpoint embedFrom (fuel : nat) (c : Cohere.Client) (i : Z)
    (rest : list pendingChunk) : M unit :=
  match fuel with
  | O => ret tt
  | S fuel' =>
      match rest with
      | [] => ret tt
      | _ :: _ =>
          let batch := take (Z.to_nat batchSize) rest in
          embeddings <- wrap (FailedToGenerateEmbeddingsForBatch
                                (i / batchSize + 1))
                          (Cohere.EmbedDocuments c (content <$> batch)) ;;
          insertBatch embeddings 0 batch ;;;
          embedFrom fuel' c (i + batchSize) (drop (Z.to_nat batchSize) rest)
      end
  end.

(** The request [EmbedDocuments] sends for a batch. *)
Definition documentRequest (c : Cohere.Client) (texts : list string)
  : V2EmbedRequest :=
  {| Texts := texts; EmbedModel := Cohere.embedModel c;
     InputType := SearchDocument; OutputDimension := Cohere.embedDim c |}.

(** The provider returns at least one vector for every text it is sent. *)
Definition answersEveryText : Prop :=
  forall p req floats p',
    V2Embed p req = (inr (Some (Some floats)), p') ->
    (length (Texts req) <= length floats)%nat.

(** [d'] is [d] with embeddings added for the chunk ids [ids] and nothing
    else changed. *)
Definition embedded (ids : list Z) (d d' : Store.DB) : Prop :=
  Store.documents d' = Store.documents d
  /\ Store.chunks d' = Store.chunks d
  /\ Store.embedDim d' = Store.embedDim d
  /\ (forall id, id ∈ ids -> is_Some (Store.vec_chunks d' !! id))
  /\ (forall id b, Store.vec_chunks d !! id = Some b ->
                   Store.vec_chunks d' !! id = Some b)
  /\ (forall id, id ∉ ids ->
        Store.vec_chunks d' !! id = Store.vec_chunks d !! id).

(** The ways a batch can stop short of its last unit: the index is out of
    range, or the serializer or the store refuses a vector. *)
Definition stopsShort {A} (o : outcome A) : Prop :=
  o = Panic
  \/ (exists e, o = Err (Wrap FailedToSerializeEmbedding e))
  \/ (exists e, o = Err (Wrap FailedToInsertEmbedding e)).

Definition embedPending (c : Cohere.Client) (pending : list pendingChunk)
  : M unit :=
  match pending with
  | [] => ret tt
  | _ :: _ => embedLoop (length pending) c pending 0
  end.

(** [indexFile], the watcher's single-file entry. *)
Definition indexFile (c : Cohere.Client) (relPath : string) : M unit :=
  pending <- parseFile relPath ;;
  embedPending c pending.

(** The pieces of [Index]. *)
Definition existingByPath (existingDocs : list Store.Document.t)
  : gmap string Store.Document.t :=
  fold_left (λ m d, <[Store.Document.Path d := d]> m) existingDocs ∅.

Definition removeIfDeleted (currentPaths : gset string)
    (doc : Store.Document.t) : M unit :=
  if decide (Store.Document.Path doc ∈ currentPaths) then ret tt
  else wrap (FailedToDeleteDocument (Store.Document.Path doc))
         (DeleteDocument (Store.Document.Path doc)).

Definition removeDeleted (currentPaths : gset string)
    (existingDocs : list Store.Document.t) : M unit :=
  forEach existingDocs (removeIfDeleted currentPaths).

Fixpoint selectFiles (fullReindex : bool)
    (byPath : gmap string Store.Document.t) (files : list string)
  : M (list string) :=
  match files with
  | [] => ret []
  | filePath :: rest =>
      needsIndex <- needsIndexing filePath fullReindex (byPath !! filePath) ;;
      filesToIndex <- selectFiles fullReindex byPath rest ;;
      ret (if needsIndex : bool then filePath :: filesToIndex
           else filesToIndex)
  end.

Fixpoint parseAll (filesToIndex : list string) : M (list pendingChunk) :=
  match filesToIndex with
  | [] => ret []
  | filePath :: rest =>
      pending <- wrap (FailedToParse filePath) (parseFile filePath) ;;
      allPending <- parseAll rest ;;
      ret (pending ++ allPending)%list
  end.

Definition Index (c : Cohere.Client) (fullReindex : bool) : M unit :=
  files <- wrap FailedToFindMarkdownFiles findMarkdownFiles ;;
  existingDocs <- wrap FailedToGetExistingDocuments GetAllDocuments ;;
  let byPath := existingByPath existingDocs in
  let currentPaths : gset string := list_to_set files in
  removeDeleted currentPaths existingDocs ;;;
  filesToIndex <- selectFiles fullReindex byPath files ;;
  match filesToIndex with
  | [] => ret tt
  | _ :: _ =>
      allPending <- parseAll filesToIndex ;;
      match allPending with
      | [] => ret tt
      | _ :: _ => embedPending c allPending
      end
  end.

(** The three conditions under which a listed path is indexed again, on
    the documents and the files of [w]. *)
Definition mustIndex (fullReindex : bool) (w : World) (relPath : string)
  : Prop :=
  fullReindex = true
  \/ Store.GetDocument (db w) relPath = None
  \/ exists d f,
       Store.GetDocument (db w) relPath = Some d
       /\ fs w !! relPath = Some f
       /\ Store.Document.ModifiedAt d < Unix (ModTime f).

(** Every listed file has a document that is not older than the file, and
    there is no document for a path that is not listed. *)
Definition upToDate (files : list string) (w : World) : Prop :=
  (forall p, p ∈ files ->
     exists r f,
       Store.documents (db w) !! p = Some r
       /\ fs w !! p = Some f
       /\ ~ Store.doc_modified_at r < Unix (ModTime f))
  /\ (forall p, is_Some (Store.documents (db w) !! p) -> p ∈ files).

End Indexer.

(** [documents.id] is a PRIMARY KEY: no two rows share an id. *)
Definition uniqueIDs (docs : gmap string Store.docRow) : Prop :=
  forall p q r s,
    docs !! p = Some r -> docs !! q = Some s ->
    Store.doc_id r = Store.doc_id s -> p = q.

End Indexer.

(** ** The searcher ([internal/search]). *)

Module Search.

Definition vectorSearchLimit : Z := 20.
Definition rerankTopN : Z := 10.

Section Searcher.
Context `{Collaborators}.
Local Open Scope go_scope.

Record Result := {
  Rank : Z;
  Score : float64;
  Path : string;
  Heading : string;
  Content : string;
  StartLine : Z;
  EndLine : Z;
  DocID : Z;
  ChunkID : Z
}.

(** The [Result] literal of the loop body. *)
Definition mkResult (i : Z) (rr : Cohere.RerankResult)
    (c : Store.ChunkWithScore) : Result :=
  {| Rank := i + 1;
     Score := Cohere.Score rr;
     Path := Store.Path c;
     Heading := Store.Chunk.Heading (Store.Chunk c);
     Content := Store.Chunk.Content (Store.Chunk c);
     StartLine := Store.Chunk.StartLine (Store.Chunk c);
     EndLine := Store.Chunk.EndLine (Store.Chunk c);
     DocID := Store.Chunk.DocID (Store.Chunk c);
     ChunkID := Store.Chunk.ID (Store.Chunk c) |}.

(** [for i, rr := range rerankResults { c := candidates[rr.Index]; ... }],
    from position [i] on. *)
Fixpoint mapResults (candidates : list Store.ChunkWithScore) (i : Z)
    (rerankResults : list Cohere.RerankResult) : outcome (list Result) :=
  match rerankResults with
  | [] => Ok []
  | rr :: rest =>
      match index candidates (Cohere.Index rr) with
      | Ok c =>
          match mapResults candidates (i + 1) rest with
          | Ok results => Ok (mkResult i rr c :: results)
          | Err e => Err e
          | Panic => Panic
          end
      | Err e => Err e
      | Panic => Panic
      end
  end.

Definition SearchSimilar (queryEmbedding : bytes) (limit : Z)
  : M (list Store.ChunkWithScore) :=
  λ w, match Store.SearchSimilar (db w) queryEmbedding limit with
       | inl e => (Err e, w)
       | inr l => (Ok l, w)
       end.

(** The documents handed to the rerank provider. *)
Definition contents (candidates : list Store.ChunkWithScore) : list string :=
  (λ c, Store.Chunk.Content (Store.Chunk c)) <$> candidates.

(** Two candidate lists that differ at most in the distances. *)
Definition sameButDistance (a b : list Store.ChunkWithScore) : Prop :=
  Forall2 (λ x y, Store.Chunk x = Store.Chunk y /\ Store.Path x = Store.Path y)
    a b.

Definition Search (c : Cohere.Client) (query : string) : M (list Result) :=
  queryEmb <- wrap FailedToEmbedQuery (Cohere.EmbedQuery c query) ;;
  embBytes <- wrap FailedToSerializeQueryEmbedding
                (match SerializeFloat32 queryEmb with
                 | inl err => fail err
                 | inr b => ret b
                 end) ;;
  candidates <- wrap VectorSearchFailed
                  (SearchSimilar embBytes vectorSearchLimit) ;;
  match candidates with
  | [] => ret []
  | _ :: _ =>
      let docs := contents candidates in
      rerankResults <- wrap RerankFailed
                         (Cohere.Rerank c query docs rerankTopN) ;;
      lift (mapResults candidates 0 rerankResults)
  end.

End Searcher.
End Search.

(** ** The watcher ([internal/indexer], the debounced file watcher). The two
    goroutines meet only under [w.mu]; [handleEvent] and the locked part of
    [indexPendingFiles] are therefore atomic steps. *)

Module Watcher.

(** [fsnotify.Op], a bit set. *)
Definition Create : Z := 1.
Definition Write : Z := 2.
Definition Remove : Z := 4.
Definition Rename : Z := 8.
Definition Chmod : Z := 16.

Record Event := {
  Name : string;
  Op : Z
}.

(** [event.Op&flag == flag]. *)
Definition has (op flag : Z) : bool := Z.land op flag =? flag.

(** [2 * time.Second], in nanoseconds. *)
Definition debounceDelay : Z := 2 * 1000000000.

(** The map [w.pending]: relative path to the time of its last event. *)
Record Watcher := { pending : gmap string Z }.

Definition NewWatcher : Watcher := {| pending := ∅ |}.

(** The locked part of [indexPendingFiles]: the paths whose last event is
    at least [debounceDelay] old, and the map without them. Go ranges over
    a map in no fixed order; the order of [toIndex] is that of
    [map_to_list]. *)
Definition expired (now : Z) (p : gmap string Z) : list string :=
  (map_to_list (filter (λ kv, debounceDelay <= now - kv.2) p)).*1.

Definition removeAll (toIndex : list string) (p : gmap string Z)
  : gmap string Z :=
  fold_left (λ m path, delete path m) toIndex p.

(** Whether the event is one of the first case of the switch. *)
Definition isChange (op : Z) : bool := has op Write || has op Create.






(** The components of a slash-separated path. *)
Fixpoint components (path : string) : list string :=
  match path with
  | EmptyString => [EmptyString]
  | String c rest =>
      if Ascii.eqb c "/"%char then EmptyString :: components rest
      else match components rest with
           | [] => [String c EmptyString]
           | x :: xs => String c x :: xs
           end
  end.

(** Some component of the path begins with the hidden-file marker. *)
Definition hasHiddenComponent (relPath : string) : bool :=
  existsb (λ x, Str.HasPrefix x ".") (components relPath).

Section Watcher.
Context `{Collaborators}.

Definition message (msg : Message) (w : World) : World :=
  record (CallMessage msg) w.

Definition handleEvent (event : Event) (wt : Watcher) (w : World)
  : Watcher * World :=
  if negb (Str.HasSuffix (Str.ToLower (Name event)) ".md") then (wt, w)
  else
    match Rel (dir w) (Name event) with
    | inl _ => (wt, w)
    | inr relPath =>
        if Str.HasPrefix relPath "." then (wt, w)
        else if has (Op event) Write || has (Op event) Create then
          ({| pending := <[relPath := now w]> (pending wt) |},
           message (DetectedChange relPath) w)
        else if has (Op event) Remove || has (Op event) Rename then
          ({| pending := delete relPath (pending wt) |},
           match Indexer.DeleteDocument relPath w with
           | (Ok _, w') => message (RemovedFromIndex relPath) w'
           | (_, w') => w'
           end)
        else (wt, w)
    end.

(** The loop of [indexPendingFiles] after the lock is released: an error of
    [indexFile] is reported and the loop goes on. *)
Fixpoint reindexAll (c : Cohere.Client) (toIndex : list string) : M unit :=
  match toIndex with
  | [] => ret tt
  | relPath :: rest =>
      λ w,
        match Indexer.indexFile c relPath (message (Indexing relPath) w) with
        | (Ok _, w') => reindexAll c rest (message (Indexed relPath) w')
        | (Err err, w') =>
            reindexAll c rest (message (ErrorIndexing relPath err) w')
        | (Panic, w') => (Panic, w')
        end
  end.

Definition indexPendingFiles (c : Cohere.Client) (wt : Watcher) (w : World)
  : Watcher * (outcome unit * World) :=
  let toIndex := expired (now w) (pending wt) in
  ({| pending := removeAll toIndex (pending wt) |}, reindexAll c toIndex w).



End Watcher.
End Watcher.

(** ** Inputs used in the examples below. *)

Module Fixtures.

Definition nl : string := String "010"%char "".

Definition lines (l : list string) : string := Str.Join l nl.

(** Four nested headings, with a body under the last two. *)
Definition A_B_C_D : string :=
  lines ["# A"; "## B"; "### C";
         "The body of section C, long enough to be kept.";
         "## D";
         "The body of section D, long enough to be kept."].

(** One line of 2000 bytes: with its newline it is over the budget. *)
Definition oneLongLine : string := Str.Repeat "a" 2000.

(** A short line, a line over the budget, and a third line. *)
Definition shortLongShort : string :=
  lines ["A short opening line."; Str.Repeat "a" 2000;
         "A closing line of thirty bytes."].

End Fixtures.

(** ** Concrete collaborators for the examples: rationals for the floats,
    a provider that answers from a script or one that answers every text,
    a scan that returns every stored row. *)

Module Demo.

Record script := {
  embedReplies : list (error + option (option (list (list Q))));
  rerankReplies : list (error + list (Z * Q))
}.

Definition scriptedEmbed (p : script) (req : V2EmbedRequest)
  : (error + option (option (list (list Q)))) * script :=
  match embedReplies p with
  | [] => (inl (External "no reply left"), p)
  | r :: rest =>
      (r, {| embedReplies := rest; rerankReplies := rerankReplies p |})
  end.

Definition scriptedRerank (p : script) (req : V2RerankRequest)
  : (error + list (Z * Q)) * script :=
  match rerankReplies p with
  | [] => (inl (External "no reply left"), p)
  | r :: rest =>
      (r, {| embedReplies := embedReplies p; rerankReplies := rest |})
  end.

(** One zero vector of the requested width for every text. *)
Definition answerEveryText (p : unit) (req : V2EmbedRequest)
  : (error + option (option (list (list Q)))) * unit :=
  (inr (Some (Some ((λ _, replicate (Z.to_nat (OutputDimension req)) 0%Q)
                      <$> Texts req))), p).

Definition fourBytesEach (v : list Q) : error + bytes :=
  inr (replicate (4 * length v) Byte.x00).

(** The first [k] rows of the table by chunk id, the distance being a tenth
    of the chunk id. *)
Definition scanAll (vec : gmap Z bytes) (q : bytes) (k : Z)
  : error + list (Z * Q) :=
  inr (take (Z.to_nat k)
         ((λ id, (id, Qmake id 10))
            <$> merge_sort Z.le (map_to_list vec).*1)).

(** [filepath.Rel] for a name below the root. *)
Definition belowRoot (root name : string) : error + string :=
  let pre := root ++ "/" in
  if String.prefix pre name
  then inr (String.substring (String.length pre)
              (String.length name - String.length pre) name)
  else inl (External "Rel: can't make relative").

Definition scripted : Collaborators :=
  {| float32 := Q; float64 := Q; toFloat32 := id;
     SerializeFloat32 := fourBytesEach;
     Provider := script;
     V2Embed := scriptedEmbed;
     V2Rerank := scriptedRerank;
     vecMatch := scanAll;
     Rel := belowRoot;
     extractTitle := λ _ relPath, relPath |}.

Definition answering : Collaborators :=
  {| float32 := Q; float64 := Q; toFloat32 := id;
     SerializeFloat32 := fourBytesEach;
     Provider := unit;
     V2Embed := answerEveryText;
     V2Rerank := λ p _, (inr [], p);
     vecMatch := scanAll;
     Rel := belowRoot;
     extractTitle := λ _ relPath, relPath |}.

Definition client : Cohere.Client :=
  {| Cohere.embedModel := "embed-v4.0"; Cohere.rerankModel := "rerank-v3.5";
     Cohere.embedDim := 2 |}.

(** A store with one document and three embedded chunks c0, c1, c2. *)
Definition threeChunks : Store.DB :=
  let chunk (text : string) :=
    {| Store.chunk_doc_id := 1; Store.chunk_content := text;
       Store.chunk_start_line := 1; Store.chunk_end_line := 1;
       Store.chunk_heading := "" |} in
  {| Store.embedDim := 2;
     Store.documents :=
       {[ "note.md" := {| Store.doc_id := 1; Store.doc_title := "note";
                          Store.doc_modified_at := 0;
                          Store.doc_indexed_at := 0 |} ]};
     Store.chunks :=
       <[3 := chunk "c2"]> (<[2 := chunk "c1"]> {[ 1 := chunk "c0" ]});
     Store.vec_chunks :=
       <[3 := replicate 8 Byte.x00]>
         (<[2 := replicate 8 Byte.x00]> {[ 1 := replicate 8 Byte.x00 ]});
     Store.last_insert_rowid := 3 |}.

(** The provider embeds the query, then selects c2 and c0. *)
Definition searchWorld : @World scripted :=
  @mkWorld scripted "/vault" ∅ (inr []) threeChunks
    {| embedReplies := [inr (Some (Some [[0%Q; 0%Q]]))];
       rerankReplies := [inr [(2, Qmake 9 10); (0, Qmake 1 2)]] |}
    0 [] noFault.

(** The same, but the provider selects index 3 of three candidates. *)
Definition searchWorldIndex3 : @World scripted :=
  @mkWorld scripted "/vault" ∅ (inr []) threeChunks
    {| embedReplies := [inr (Some (Some [[0%Q; 0%Q]]))];
       rerankReplies := [inr [(3, Qmake 9 10)]] |}
    0 [] noFault.

(** [n] pending units with the chunk ids [from], [from + 1], ... *)
Definition units (from : Z) (n : nat) : list Indexer.pendingChunk :=
  (λ i : nat, {| Indexer.chunkID := from + Z.of_nat i;
                 Indexer.content := "text" |}) <$> seq 0 n.

(** An empty store of width 2 and a provider with the given replies. *)
Definition embedWorld
    (replies : list (error + option (option (list (list Q)))))
  : @World scripted :=
  @mkWorld scripted "/vault" ∅ (inr []) (Store.Open 2)
    {| embedReplies := replies; rerankReplies := [] |} 0 [] noFault.

(** The first batch is answered in full, the second call fails. *)
Definition secondBatchFails : @World scripted :=
  embedWorld [inr (Some (Some (replicate 96 [0%Q; 0%Q])));
              inl (External "too many requests")].

(** The provider returns an empty list of vectors. *)
Definition noVectors : @World scripted :=
  embedWorld [inr (Some (Some []))].

Definition answeringWorld : @World answering :=
  @mkWorld answering "/vault" ∅ (inr []) (Store.Open 2) tt 0 [] noFault.

(** A vault of two notes that has never been indexed. *)
Definition vault : @World answering :=
  @mkWorld answering "/vault"
    (<["b.md" := {| ModTime := 1700000300000000000;
                    Data := Fixtures.lines
                              ["# B"; "A second note with enough text."] |}]>
       {[ "a.md" := {| ModTime := 1700000000000000000;
                       Data := Fixtures.A_B_C_D |} ]})
    (inr ["a.md"; "b.md"]) (Store.Open 2) tt 1700000400000000000 [] noFault.

(** The vault after a first pass. *)
Definition vaultIndexed : @World answering :=
  (Indexer.Index (H := answering) client false vault).2.

(** A running watcher over an empty vault, and events on notes. *)
Definition watched : @World scripted :=
  @mkWorld scripted "/vault" ∅ (inr []) (Store.Open 2)
    {| embedReplies := []; rerankReplies := [] |} 0 [] noFault.

Definition write (name : string) : Watcher.Event :=
  {| Watcher.Name := name; Watcher.Op := Watcher.Write |}.

End Demo.

(** ** The rest of the store's interface ([internal/db]). *)

Module Db.
Import Store.

(** [SELECT ... FROM chunks WHERE id = ?]; no row is [nil, nil]. *)
Definition GetChunk (db : DB) (id : Z) : option Chunk.t :=
  (λ r, toChunk (id, r)) <$> chunks db !! id.

(** [SELECT COUNT( * ) FROM documents] and [... FROM chunks]. *)
Definition DocumentCount (db : DB) : Z := Z.of_nat (size (documents db)).

Definition ChunkCount (db : DB) : Z := Z.of_nat (size (chunks db)).

(** Every embedding belongs to a stored chunk. *)
Definition noOrphans (db : DB) : Prop :=
  forall id, is_Some (vec_chunks db !! id) -> is_Some (chunks db !! id).

(** The chunk [id] belongs to the document [docID]. *)
Definition chunkOf (db : DB) (docID id : Z) : Prop :=
  exists c, chunks db !! id = Some c /\ chunk_doc_id c = docID.

End Db.

(** ** A helper of the searcher ([internal/search], [truncateContent]). *)

Module SearchUtil.

(** [content[:maxLen-3] + "..."]; the slice bound panics when it is
    negative (it cannot exceed [len(content)] on this path). *)
Definition truncateContent (content : string) (maxLen : Z) : outcome string :=
  if Str.len content <=? maxLen then Ok content
  else if maxLen - 3 <? 0 then Panic
  else Ok (String.substring 0 (Z.to_nat (maxLen - 3)) content ++ "...").

(** Which of the four failure points of [Search] an error comes from. *)
Definition searchFailure (e : error) : Prop :=
  exists ctx inner,
    e = Wrap ctx inner
    /\ (ctx = FailedToEmbedQuery \/ ctx = FailedToSerializeQueryEmbedding
        \/ ctx = VectorSearchFailed \/ ctx = RerankFailed).

End SearchUtil.

(** ** Measures and invariants of the chunker's loop. *)

Module ChunkerInv.
Import Chunker.

(** The bytes the loop writes for a list of lines: each line and its
    newline. *)
Definition written (lines : list string) : Z :=
  foldr (λ line acc, Str.len line + 1 + acc) 0 lines.

(** The length of the longest line. *)
Definition longest (lines : list string) : Z :=
  foldr (λ line acc, Z.max (Str.len line) acc) 0 lines.

(** The heading texts of the lines that match the heading pattern. *)
Definition headingTexts (lines : list string) : list string :=
  omap (λ line, snd <$> headingRegex line) lines.

(** What holds of a chunk made from the first [n] lines, [W] bytes written
    so far, when no line is longer than [M] and [T] bytes are written in
    all. *)
Definition goodChunk (M T n W : Z) (c : Chunk) : Prop :=
  20 < Str.len (Content c)
  /\ Str.len (Content c) <= maxChunkTokens * avgCharsPerToken + M
  /\ Str.len (Content c) + 1 <= W
  /\ 1 <= StartLine c
  /\ StartLine c <= EndLine c + 1
  /\ EndLine c <= n
  /\ (T <= maxChunkTokens * avgCharsPerToken -> StartLine c <= EndLine c).

(** The state of the loop after [n] lines and [W] bytes. *)
Definition sized (M T n W : Z) (st : state) : Prop :=
  currentLine st = n + 1
  /\ 1 <= startLine st <= currentLine st
  /\ (currentChunk st <> "" -> startLine st < currentLine st)
  /\ Str.len (currentChunk st) <= maxChunkTokens * avgCharsPerToken
  /\ Str.len (currentChunk st) <= W
  /\ 0 <= W <= T
  /\ 0 <= M
  /\ (currentChunk st = ""
      \/ exists b, currentChunk st = b ++ String "010"%char "")
  /\ forall c, c ∈ chunks st -> goodChunk M T n W c.

(** A breadcrumb: empty, or one to six heading texts of [texts] joined. *)
Definition breadcrumb (texts : list string) (heading : string) : Prop :=
  heading = ""
  \/ exists stack,
       (1 <= length stack <= 6)%nat
       /\ heading = Str.Join stack " > "
       /\ forall t, t ∈ stack -> t ∈ texts.

(** The heading state of the loop, over the heading texts seen. *)
Definition headed (texts : list string) (st : state) : Prop :=
  (length (headingStack st) <= 6)%nat
  /\ (forall t, t ∈ headingStack st -> t ∈ texts)
  /\ currentHeading st = Str.Join (headingStack st) " > "
  /\ forall c, c ∈ chunks st -> breadcrumb texts (Heading c).

End ChunkerInv.

(** ** What the watcher reports. *)

Module WatcherInv.

(** The reports among a list of calls. *)
Definition messages (l : list Call) : list Message :=
  omap (λ c, match c with CallMessage m => Some m | _ => None end) l.

(** What a sweep reports for one path: that the path is being indexed,
    then how that ended. *)
Definition reportFor (path : string) (ms : list Message) : Prop :=
  ms = [Indexing path; Indexed path]
  \/ exists err, ms = [Indexing path; ErrorIndexing path err].

(** A remove event on a note. *)
Definition remove (name : string) : Watcher.Event :=
  {| Watcher.Name := name; Watcher.Op := Watcher.Remove |}.


(** The running watcher over an empty vault, with a store that fails the
    first query of [DeleteDocument]. *)
Definition failingStore : @World Demo.scripted :=
  @mkWorld Demo.scripted "/vault" ∅ (inr []) (Store.Open 2)
    {| Demo.embedReplies := []; Demo.rerankReplies := [] |} 0 []
    (λ op _, match op with
             | SelectDocumentID _ => Some (External "disk I/O error")
             | _ => None
             end).

(** A watcher with one change pending since [t]. *)
Definition pendingSince (relPath : string) (t : Z) : Watcher.Watcher :=
  {| Watcher.pending := {[ relPath := t ]} |}.

End WatcherInv.

(** ** Batches and rows of the indexer. *)

Module IndexerInv.
Import Indexer.

(** A list of pending units cut into consecutive batches of [batchSize]
    units; the last batch may be shorter. *)
Fixpoint batches (fuel : nat) (rest : list pendingChunk)
  : list (list pendingChunk) :=
  match fuel with
  | O => []
  | S fuel' =>
      match rest with
      | [] => []
      | _ :: _ =>
          take (Z.to_nat batchSize) rest
            :: batches fuel' (drop (Z.to_nat batchSize) rest)
      end
  end.

Definition batchesOf (pending : list pendingChunk)
  : list (list pendingChunk) :=
  batches (length pending) pending.

(** The chunk that [GetChunk] returns for a chunk of [chunkMarkdown] stored
    under [id] for the document [docID]. *)
Definition storedChunk (id docID : Z) (chunk : Chunker.Chunk)
  : Store.Chunk.t :=
  {| Store.Chunk.ID := id;
     Store.Chunk.DocID := docID;
     Store.Chunk.Content := Chunker.Content chunk;
     Store.Chunk.StartLine := Chunker.StartLine chunk;
     Store.Chunk.EndLine := Chunker.EndLine chunk;
     Store.Chunk.Heading := Chunker.Heading chunk |}.

Section IndexerInv.
Context `{Collaborators}.

(** The call [embedPending] makes for a batch. *)
Definition embedCall (c : Cohere.Client) (batch : list pendingChunk)
  : Call :=
  CallEmbed (documentRequest c (content <$> batch)).

(** An error of the embedding phase. *)
Definition embedFailure (e : error) : Prop :=
  (exists batchNum inner,
     e = Wrap (FailedToGenerateEmbeddingsForBatch batchNum) inner)
  \/ (exists inner, e = Wrap FailedToSerializeEmbedding inner)
  \/ (exists inner, e = Wrap FailedToInsertEmbedding inner).

End IndexerInv.

(** The vault of two notes after a first pass, with [b.md] written again
    later. *)
Definition touchedVault : @World Demo.answering :=
  @mkWorld Demo.answering "/vault"
    (<["b.md" := {| ModTime := 1700000500000000000;
                    Data := Fixtures.lines
                              ["# B"; "A second note, written again."] |}]>
       (fs Demo.vaultIndexed))
    (inr ["a.md"; "b.md"]) (db Demo.vaultIndexed) tt 1700000600000000000 []
    noFault.

(** A vault that has lost its only note: the store still has the document
    of [note.md] and its three chunks, the listing is empty. *)
Definition emptiedVault : @World Demo.scripted :=
  @mkWorld Demo.scripted "/vault" ∅ (inr []) Demo.threeChunks
    {| Demo.embedReplies := []; Demo.rerankReplies := [] |} 0 [] noFault.

End IndexerInv.

(** ** The two walks of the vault ([findMarkdownFiles] in
    [internal/indexer/indexer.go], [addWatchRecursive] in the watcher), over
    a directory tree. [filepath.Walk] calls its function on the root and
    then, for a directory on which the function did not return [SkipDir],
    on the entries of the directory in their order; [SkipDir] on the root
    ends the walk without error. Entries that cannot be read are not
    modelled. *)

Module Walk.

(** A file or a directory with its entries; the name is [info.Name()], for
    the root the last element of the walked path. *)
#[warnings="-register-all"]
Inductive node :=
  | File (name : string)
  | Dir (name : string) (entries : list node).

Definition Name (n : node) : string :=
  match n with
  | File name => name
  | Dir name _ => name
  end.

(** [filepath.Rel(root, path)] for the path with the components [below]
    under the root. *)
Definition rel (below : list string) : string :=
  match below with
  | [] => "."
  | _ :: _ => Str.Join below "/"
  end.

(** The paths the function of [findMarkdownFiles] appends, as components
    below the root, from the node at [below] on. *)
Fixpoint markdownBelow (below : list string) (n : node)
  : list (list string) :=
  match n with
  | File name => if Indexer.isMarkdownFile name then [below] else []
  | Dir name entries =>
      if Indexer.isHiddenDir name then []
      else entries ≫= (λ entry, markdownBelow (below ++ [Name entry]) entry)
  end.

Definition findMarkdownFiles (root : node) : list string :=
  rel <$> markdownBelow [] root.

(** The directories [addWatchRecursive] adds to the watcher, as components
    below the root. *)
Fixpoint watchedBelow (below : list string) (n : node)
  : list (list string) :=
  match n with
  | File _ => []
  | Dir name entries =>
      if Str.HasPrefix name "." then []
      else below :: (entries ≫=
                       (λ entry, watchedBelow (below ++ [Name entry]) entry))
  end.

Definition addWatchRecursive (root : node) : list (list string) :=
  watchedBelow [] root.

(** [reach n path m]: the node [m] lies at [path] below [n], and no
    directory on the way from [n] to [m], [n] included and [m] excluded,
    has a name that begins with the hidden-file marker. *)
Inductive reach : node -> list string -> node -> Prop :=
  | reach_here n : reach n [] n
  | reach_entry name entries entry path m :
      Indexer.isHiddenDir name = false ->
      entry ∈ entries ->
      reach entry path m ->
      reach (Dir name entries) (Name entry :: path) m.

(** A vault in a directory whose own name begins with the marker, and one
    with a hidden note and a hidden directory. *)
Definition dotVault : node :=
  Dir ".notes" [File "a.md"; Dir "sub" [File "b.md"]].

Definition mixedVault : node :=
  Dir "vault" [File ".draft.md"; File "a.MD"; File "todo.txt";
               Dir ".obsidian" [File "cache.md"];
               Dir "sub" [File "b.md"]].

End Walk.

(** * Properties *)

(** ** The chunker. *)

Module ChunkerSpec.
Import Chunker.

Lemma span_length {A} (p : A -> bool) (l a b : list A) :
  span p l = (a, b) -> (length a <= length l)%nat.
Proof.
  revert a b. induction l as [|x tl IH]; intros a b; simpl.
  - intros [= <- <-]. simpl. lia.
  - destruct (p x).
    + destruct (span p tl) as [a' b'] eqn:E. intros [= <- <-].
      simpl. specialize (IH a' b' eq_refl). lia.
    + intros [= <- <-]. simpl. lia.
Qed.

Lemma length_string_of_list_ascii (l : list ascii) :
  String.length (string_of_list_ascii l) = length l.
Proof. induction l; simpl; congruence. Qed.

(** A heading match has one to six marks. *)
Lemma headingRegex_level (line hashes text : string) :
  headingRegex line = Some (hashes, text) ->
  1 <= Str.len hashes <= 6.
Proof.
  unfold headingRegex.
  destruct (span isHash (list_ascii_of_string line)) as [hs rest] eqn:E.
  destruct ((1 <=? length hs)%nat && (length hs <=? 6)%nat) eqn:B;
    [|discriminate].
  apply andb_prop in B as [B1 B2].
  apply Nat.leb_le in B1, B2.
  assert (L : 1 <= Str.len (string_of_list_ascii hs) <= 6).
  { unfold Str.len. rewrite length_string_of_list_ascii. lia. }
  destruct (span reSpace rest) as [ws r].
  destruct ws as [|w ws]; [discriminate|].
  destruct r as [|c r].
  - destruct (rev (w :: ws)) as [|x [|y t]]; try discriminate.
    destruct (isNewline x); [discriminate|].
    intros [= <- <-]. exact L.
  - destruct (existsb isNewline (c :: r)); [discriminate|].
    intros [= <- <-]. exact L.
Qed.

Lemma removelast_take {A} (l : list A) :
  removelast l = take (length l - 1) l.
Proof.
  induction l as [|x [|y tl] IH]; try reflexivity.
  change (removelast (x :: y :: tl)) with (x :: removelast (y :: tl)).
  rewrite IH. simpl. rewrite Nat.sub_0_r. reflexivity.
Qed.

(** The pop loop leaves the first [level - 1] entries of the stack. *)
Lemma popWhile_take (fuel : nat) (level : Z) (stack : list string) :
  1 <= level -> (length stack <= fuel)%nat ->
  popWhile fuel level stack = take (Z.to_nat (level - 1)) stack.
Proof.
  intros Hl. revert stack.
  induction fuel as [|fuel IH]; intros stack Hf.
  - destruct stack; [|simpl in Hf; lia]. simpl. by rewrite take_nil.
  - simpl. destruct (level <=? Z.of_nat (length stack)) eqn:E.
    + apply Z.leb_le in E.
      rewrite IH.
      * rewrite removelast_take, take_take. f_equal. lia.
      * rewrite removelast_take, length_take. lia.
    + apply Z.leb_gt in E. rewrite take_ge; [reflexivity|lia].
Qed.

(** What a flush adds: nothing, or one chunk made of the buffer, the
    buffer's start line, the line before the current one and the
    breadcrumb in force. *)
Lemma flushChunk_chunks (st : state) :
  chunks (flushChunk st) =
    (if kept (Str.TrimSpace (currentChunk st))
     then chunks st ++ [ {| Content := Str.TrimSpace (currentChunk st);
                            StartLine := startLine st;
                            EndLine := currentLine st - 1;
                            Heading := currentHeading st |} ]
     else chunks st)%list.
Proof. reflexivity. Qed.

(** C3. On a heading line of level L the buffer is flushed under the
    breadcrumb in force before the line, the stack is cut back to its first
    L-1 entries (so to a depth of at most L-1), the heading text is pushed,
    and the breadcrumb becomes the stack joined by " > "; the headings
    # A, ## B, ### C, ## D give the breadcrumbs "A > B > C" and "A > D". *)
Theorem C3_heading_unwinds_stack :
  (forall (st : state) (line hashes text : string),
     headingRegex line = Some (hashes, text) ->
     let L := Str.len hashes in
     let popped := take (Z.to_nat (L - 1)) (headingStack st) in
     let st' := onHeading hashes text st in
     1 <= L <= 6
     /\ chunks st' = chunks (flushChunk st)
     /\ (forall c, c ∈ chunks st' -> c ∉ chunks st ->
           Heading c = currentHeading st)
     /\ Z.of_nat (length popped) <= L - 1
     /\ headingStack st' = (popped ++ [text])%list
     /\ currentHeading st' = Str.Join (popped ++ [text]) " > "
     /\ headingStack (step st line) = (popped ++ [text])%list)
  /\ Heading <$> chunkMarkdown Fixtures.A_B_C_D = ["A > B > C"; "A > D"].
Proof.
  split; [|vm_compute; reflexivity].
  intros st line hashes text Hm L popped st'.
  pose proof (headingRegex_level _ _ _ Hm) as HL. fold L in HL.
  assert (Hpop : popWhile (length (headingStack st)) L (headingStack st)
                 = popped).
  { apply popWhile_take; lia. }
  split; [exact HL|].
  split; [reflexivity|].
  split.
  { intros c Hin Hnot. change (chunks st') with (chunks (flushChunk st)) in Hin.
    rewrite flushChunk_chunks in Hin.
    destruct (kept _); [|contradiction].
    apply elem_of_app in Hin as [Hin|Hin]; [contradiction|].
    apply list_elem_of_singleton in Hin. subst c. reflexivity. }
  split.
  { subst popped. rewrite length_take. lia. }
  assert (Hs : headingStack st' = (popped ++ [text])%list).
  { subst st'. unfold onHeading. cbn [headingStack flushChunk].
    fold L. rewrite Hpop. reflexivity. }
  split; [exact Hs|].
  split.
  { subst st'. unfold onHeading. cbn [currentHeading headingStack flushChunk].
    fold L. rewrite Hpop. reflexivity. }
  unfold step. rewrite Hm.
  fold st'.
  destruct (maxChunkTokens * avgCharsPerToken <?
            Str.len (currentChunk (writeLine line st'))); exact Hs.
Qed.

(** The theorem at the line "## D" met with the stack A, B, C. *)
Lemma C3_heading_unwinds_stack_witness :
  headingStack
    (step {| chunks := []; currentChunk := ""; currentHeading := "A > B > C";
             headingStack := ["A"; "B"; "C"]; startLine := 4;
             currentLine := 5 |} "## D")
  = ["A"; "D"].
Proof.
  pose proof (proj1 C3_heading_unwinds_stack
    {| chunks := []; currentChunk := ""; currentHeading := "A > B > C";
       headingStack := ["A"; "B"; "C"]; startLine := 4; currentLine := 5 |}
    "## D" "##" "D" eq_refl) as H.
  exact (proj2 (proj2 (proj2 (proj2 (proj2 (proj2 H)))))).
Defined.

Lemma inv_init : inv init.
Proof.
  split; [constructor|]. split; [|simpl; lia].
  intros c Hc. simpl in Hc. by apply elem_of_nil in Hc.
Qed.

Lemma inv_flushChunk (st : state) : inv st -> inv (flushChunk st).
Proof.
  intros (Ha & Hb & Hc). unfold inv.
  rewrite flushChunk_chunks. cbn [startLine currentLine flushChunk].
  destruct (kept _).
  - split; [constructor; assumption|]. split; [|lia].
    intros c Hin. apply elem_of_app in Hin as [Hin|Hin].
    + specialize (Hb c Hin). lia.
    + apply list_elem_of_singleton in Hin. subst c. simpl. lia.
  - split; [assumption|]. split; [|lia].
    intros c Hin. specialize (Hb c Hin). lia.
Qed.

Lemma inv_step (st : state) (line : string) : inv st -> inv (step st line).
Proof.
  intros Hst. unfold step.
  set (st1 := match headingRegex line with
              | Some (hashes, headingText) => onHeading hashes headingText st
              | None => st
              end).
  assert (H1 : inv st1).
  { subst st1. destruct (headingRegex line) as [[hashes text]|]; [|assumption].
    pose proof (inv_flushChunk st Hst) as (Ha & Hb & Hc).
    split; [exact Ha|]. split; [exact Hb|]. simpl. lia. }
  assert (H2 : inv (writeLine line st1)) by exact H1.
  destruct (maxChunkTokens * avgCharsPerToken <? _).
  - pose proof (inv_flushChunk _ H2) as (Ha & Hb & Hc).
    split; [exact Ha|]. split; [exact Hb|].
    cbn [startLine currentLine nextLine] in *. lia.
  - destruct H2 as (Ha & Hb & Hc).
    split; [exact Ha|]. split; [exact Hb|].
    cbn [startLine currentLine nextLine] in *. lia.
Qed.

Lemma inv_run (lines : list string) : inv (run lines).
Proof.
  unfold run. generalize inv_init. generalize init.
  induction lines as [|l ls IH]; intros st Hst; simpl; [exact Hst|].
  apply IH, inv_step, Hst.
Qed.

Lemma chunkMarkdown_ascending (content : string) :
  ascending (chunkMarkdown content).
Proof. apply inv_flushChunk, inv_run. Qed.

(** C4, at an input where the property fails: a first line over the size budget
    is flushed before [currentLine] is advanced, and the chunk gets the end
    line 0 under the start line 1. *)
Theorem C4_first_line_over_budget :
  chunkMarkdown Fixtures.oneLongLine =
    [ {| Content := Fixtures.oneLongLine; StartLine := 1; EndLine := 0;
         Heading := "" |} ]
  /\ ~ (forall c, c ∈ chunkMarkdown Fixtures.oneLongLine ->
          StartLine c <= EndLine c).
Proof.
  assert (E : chunkMarkdown Fixtures.oneLongLine =
    [ {| Content := Fixtures.oneLongLine; StartLine := 1; EndLine := 0;
         Heading := "" |} ]) by (vm_compute; reflexivity).
  split; [exact E|].
  intros Hall. rewrite E in Hall.
  specialize (Hall _ (list_elem_of_here _ _)). simpl in Hall. lia.
Qed.

(** C5, at an input where the property fails: the flush on the size budget comes
    after line 2 was appended and before [currentLine] is advanced, so the
    first chunk holds lines 1 and 2 and ends on line 1, and the second,
    whose buffer starts with line 3, starts on line 2. *)
Theorem C5_flush_on_budget_is_one_line_short :
  (λ c, (StartLine c, EndLine c)) <$> chunkMarkdown Fixtures.shortLongShort
    = [(1, 1); (2, 3)]
  /\ Content <$> chunkMarkdown Fixtures.shortLongShort
     = [Fixtures.lines ["A short opening line."; Str.Repeat "a" 2000];
        "A closing line of thirty bytes."].
Proof. split; vm_compute; reflexivity. Qed.

End ChunkerSpec.

(** ** Steps on the world. *)

Module EnvSpec.
Section EnvSpec.
Context `{Collaborators}.

Lemma bind_Ok {A B} (m : M A) (k : A -> M B) w b w' :
  bind m k w = (Ok b, w') <->
  exists a w1, m w = (Ok a, w1) /\ k a w1 = (Ok b, w').
Proof.
  unfold bind. split.
  - destruct (m w) as [[a|e|] w1]; try discriminate. eauto.
  - intros (a & w1 & -> & Hk). exact Hk.
Qed.

Lemma bind_step {A B} (m : M A) (k : A -> M B) w a w1 :
  m w = (Ok a, w1) -> bind m k w = k a w1.
Proof. unfold bind. by intros ->. Qed.

Lemma bind_Err {A B} (m : M A) (k : A -> M B) w e w1 :
  m w = (Err e, w1) -> bind m k w = (Err e, w1).
Proof. unfold bind. by intros ->. Qed.

Lemma bind_Panic {A B} (m : M A) (k : A -> M B) w w1 :
  m w = (Panic, w1) -> bind m k w = (Panic, w1).
Proof. unfold bind. by intros ->. Qed.

Lemma wrap_Ok {A} ctx (m : M A) w a w' :
  m w = (Ok a, w') -> wrap ctx m w = (Ok a, w').
Proof. unfold wrap. by intros ->. Qed.

Lemma wrap_Ok_inv {A} ctx (m : M A) w a w' :
  wrap ctx m w = (Ok a, w') -> m w = (Ok a, w').
Proof. unfold wrap. by destruct (m w) as [[?|?|] ?]. Qed.

Lemma wrap_Err {A} ctx (m : M A) w e w' :
  m w = (Err e, w') -> wrap ctx m w = (Err (Wrap ctx e), w').
Proof. unfold wrap. by intros ->. Qed.

Lemma wrap_Panic {A} ctx (m : M A) w w' :
  m w = (Panic, w') -> wrap ctx m w = (Panic, w').
Proof. unfold wrap. by intros ->. Qed.

Lemma wrap_isPanic {A} ctx (m : M A) w :
  isPanic (wrap ctx m w).1 = isPanic (m w).1.
Proof. unfold wrap. by destruct (m w) as [[?|?|] ?]. Qed.

End EnvSpec.
End EnvSpec.

(** ** The searcher. *)

Module SearchSpec.
Import Search EnvSpec.
Section SearchSpec.
Context `{Collaborators}.

Lemma index_Ok {A} (s : list A) (i : Z) (x : A) :
  index s i = Ok x <-> 0 <= i /\ s !! Z.to_nat i = Some x.
Proof.
  unfold index. destruct (i <? 0) eqn:E.
  - apply Z.ltb_lt in E. split; [discriminate|]. lia.
  - apply Z.ltb_ge in E. destruct (s !! Z.to_nat i) eqn:L.
    + split; [intros [= ->]; auto|]. intros [_ [= ->]]. reflexivity.
    + split; [discriminate|]. intros [_ [=]].
Qed.

Lemma index_Panic {A} (s : list A) (i : Z) :
  index s i = Panic <-> ~ (0 <= i < Z.of_nat (length s)).
Proof.
  unfold index. destruct (i <? 0) eqn:E.
  - apply Z.ltb_lt in E. split; [lia|reflexivity].
  - apply Z.ltb_ge in E. destruct (s !! Z.to_nat i) eqn:L.
    + apply lookup_lt_Some in L. split; [discriminate|]. lia.
    + apply lookup_ge_None in L. split; [lia|reflexivity].
Qed.

Lemma index_not_Err {A} (s : list A) (i : Z) e : index s i <> Err e.
Proof.
  unfold index. destruct (i <? 0); [discriminate|].
  destruct (s !! Z.to_nat i); discriminate.
Qed.

(** The result list, position by position. *)
Lemma mapResults_Ok candidates i0 rerankResults results :
  mapResults candidates i0 rerankResults = Ok results ->
  length results = length rerankResults
  /\ forall (k : nat) rr, rerankResults !! k = Some rr ->
       exists cand,
         0 <= Cohere.Index rr
         /\ candidates !! Z.to_nat (Cohere.Index rr) = Some cand
         /\ results !! k = Some (mkResult (i0 + Z.of_nat k) rr cand).
Proof.
  revert i0 results.
  induction rerankResults as [|rr rest IH]; intros i0 results; simpl.
  - intros [= <-]. split; [reflexivity|]. intros k rr' Hk.
    by rewrite lookup_nil in Hk.
  - destruct (index candidates (Cohere.Index rr)) as [c|e|] eqn:Hi;
      try discriminate.
    destruct (mapResults candidates (i0 + 1) rest) as [tl|e|] eqn:Ht;
      try discriminate.
    intros [= <-]. destruct (IH _ _ Ht) as [Hlen Hpos].
    split; [simpl; congruence|].
    intros [|k] rr' Hk; simpl in Hk.
    + injection Hk as <-. apply index_Ok in Hi as [Hi0 Hi1].
      exists c. repeat split; try assumption.
      simpl. do 2 f_equal. lia.
    + destruct (Hpos k rr' Hk) as (cand & H0 & H1 & H2).
      exists cand. repeat split; try assumption.
      simpl. rewrite H2. do 2 f_equal. lia.
Qed.

Lemma mapResults_not_Err candidates i0 rerankResults e :
  mapResults candidates i0 rerankResults <> Err e.
Proof.
  revert i0 e. induction rerankResults as [|rr rest IH]; intros i0 e; simpl.
  - discriminate.
  - destruct (index candidates (Cohere.Index rr)) eqn:Hi.
    + destruct (mapResults candidates (i0 + 1) rest) eqn:Ht;
        try discriminate. intros _. exact (IH _ _ Ht).
    + exfalso. eapply index_not_Err, Hi.
    + discriminate.
Qed.

Lemma mapResults_Panic candidates i0 rerankResults :
  mapResults candidates i0 rerankResults = Panic <->
  exists rr, rr ∈ rerankResults
    /\ ~ (0 <= Cohere.Index rr < Z.of_nat (length candidates)).
Proof.
  revert i0. induction rerankResults as [|rr rest IH]; intros i0; simpl.
  - split; [discriminate|]. intros (rr & Hin & _).
    by apply elem_of_nil in Hin.
  - destruct (index candidates (Cohere.Index rr)) as [c|e|] eqn:Hi.
    + assert (Hc : 0 <= Cohere.Index rr < Z.of_nat (length candidates)).
      { apply index_Ok in Hi as [? L]. apply lookup_lt_Some in L. lia. }
      destruct (mapResults candidates (i0 + 1) rest) as [tl|e|] eqn:Ht.
      * split; [discriminate|]. intros (rr' & Hin & Hbad).
        apply elem_of_cons in Hin as [->|Hin]; [contradiction|].
        assert (Hp : mapResults candidates (i0 + 1) rest = Panic)
          by (apply IH; eauto).
        congruence.
      * exfalso. eapply mapResults_not_Err, Ht.
      * split; [|reflexivity]. intros _.
        apply IH in Ht as (rr' & Hin & Hbad).
        exists rr'. split; [by apply elem_of_cons; right|exact Hbad].
    + exfalso. eapply index_not_Err, Hi.
    + split; [|reflexivity]. intros _. exists rr.
      split; [by apply elem_of_cons; left|]. by apply index_Panic.
Qed.

Lemma Search_stages c query w queryEmb w1 embBytes candidates :
  Cohere.EmbedQuery c query w = (Ok queryEmb, w1) ->
  SerializeFloat32 queryEmb = inr embBytes ->
  Store.SearchSimilar (db w1) embBytes vectorSearchLimit = inr candidates ->
  candidates <> [] ->
  Search c query w =
    bind (wrap RerankFailed
            (Cohere.Rerank c query (contents candidates) rerankTopN))
         (λ rerankResults, lift (mapResults candidates 0 rerankResults)) w1.
Proof.
  intros He Hs Hv Hne. unfold Search.
  rewrite (bind_step _ _ _ _ _ (wrap_Ok _ _ _ _ _ He)).
  rewrite Hs.
  rewrite (bind_step _ _ w1 embBytes w1) by reflexivity.
  rewrite (bind_step _ _ w1 candidates w1).
  - destruct candidates; [contradiction|reflexivity].
  - apply wrap_Ok. unfold SearchSimilar. by rewrite Hv.
Qed.

Lemma index_sameButDistance a b i :
  sameButDistance a b ->
  match index a i, index b i with
  | Ok x, Ok y => Store.Chunk x = Store.Chunk y /\ Store.Path x = Store.Path y
  | Panic, Panic => True
  | _, _ => False
  end.
Proof.
  intros Hab. unfold index. destruct (i <? 0); [exact I|].
  generalize (Z.to_nat i). intros n. revert n.
  induction Hab as [|x y a b Hxy Hab IH]; intros [|n]; simpl; auto.
  apply IH.
Qed.

Lemma mapResults_sameButDistance a b i0 rerankResults :
  sameButDistance a b ->
  mapResults b i0 rerankResults = mapResults a i0 rerankResults.
Proof.
  intros Hab. revert i0.
  induction rerankResults as [|rr rest IH]; intros i0; simpl; [reflexivity|].
  pose proof (index_sameButDistance a b (Cohere.Index rr) Hab) as Hi.
  destruct (index a (Cohere.Index rr)) as [x| |],
           (index b (Cohere.Index rr)) as [y| |]; try contradiction;
    try reflexivity.
  rewrite IH. destruct Hi as [Hc Hp].
  unfold mkResult. rewrite Hc, Hp. reflexivity.
Qed.

(** C1. When the vector search returns candidates and the rerank call
    succeeds, the result at position i is made of the candidate at the i-th
    returned index: it has rank i+1, the rerank score, and the path,
    heading, content, line range, document id and chunk id of that
    candidate. Every result is such a selection, so a candidate that was
    not selected is absent; and the distances of the candidates have no
    influence on the results. *)
Theorem C1_results_follow_rerank
    c query w queryEmb w1 embBytes candidates rerankResults w2 :
  Cohere.EmbedQuery c query w = (Ok queryEmb, w1) ->
  SerializeFloat32 queryEmb = inr embBytes ->
  Store.SearchSimilar (db w1) embBytes vectorSearchLimit = inr candidates ->
  candidates <> [] ->
  Cohere.Rerank c query (contents candidates) rerankTopN w1
    = (Ok rerankResults, w2) ->
  Search c query w = (mapResults candidates 0 rerankResults, w2)
  /\ (forall results,
        (Search c query w).1 = Ok results ->
        length results = length rerankResults
        /\ (forall (i : nat) rr,
              rerankResults !! i = Some rr ->
              exists cand r,
                0 <= Cohere.Index rr
                /\ candidates !! Z.to_nat (Cohere.Index rr) = Some cand
                /\ results !! i = Some r
                /\ Rank r = Z.of_nat i + 1
                /\ Score r = Cohere.Score rr
                /\ Path r = Store.Path cand
                /\ Heading r = Store.Chunk.Heading (Store.Chunk cand)
                /\ Content r = Store.Chunk.Content (Store.Chunk cand)
                /\ StartLine r = Store.Chunk.StartLine (Store.Chunk cand)
                /\ EndLine r = Store.Chunk.EndLine (Store.Chunk cand)
                /\ DocID r = Store.Chunk.DocID (Store.Chunk cand)
                /\ ChunkID r = Store.Chunk.ID (Store.Chunk cand))
        /\ (forall (i : nat) r,
              results !! i = Some r ->
              exists rr cand,
                rerankResults !! i = Some rr
                /\ 0 <= Cohere.Index rr
                /\ candidates !! Z.to_nat (Cohere.Index rr) = Some cand
                /\ r = {| Rank := Z.of_nat i + 1;
                          Score := Cohere.Score rr;
                          Path := Store.Path cand;
                          Heading := Store.Chunk.Heading (Store.Chunk cand);
                          Content := Store.Chunk.Content (Store.Chunk cand);
                          StartLine :=
                            Store.Chunk.StartLine (Store.Chunk cand);
                          EndLine := Store.Chunk.EndLine (Store.Chunk cand);
                          DocID := Store.Chunk.DocID (Store.Chunk cand);
                          ChunkID := Store.Chunk.ID (Store.Chunk cand) |}))
  /\ (forall candidates',
        sameButDistance candidates candidates' ->
        mapResults candidates' 0 rerankResults
          = mapResults candidates 0 rerankResults).
Proof.
  intros He Hs Hv Hne Hr.
  assert (HS : Search c query w = (mapResults candidates 0 rerankResults, w2)).
  { rewrite (Search_stages _ _ _ _ _ _ _ He Hs Hv Hne).
    rewrite (bind_step _ _ _ _ _ (wrap_Ok _ _ _ _ _ Hr)). reflexivity. }
  split; [exact HS|]. split.
  - intros results Hres. rewrite HS in Hres. simpl in Hres.
    destruct (mapResults_Ok _ _ _ _ Hres) as [Hlen Hpos].
    split; [exact Hlen|]. split.
    + intros i rr Hi. destruct (Hpos i rr Hi) as (cand & H0 & H1 & H2).
      exists cand, (mkResult (Z.of_nat i) rr cand).
      split_and!; try assumption; reflexivity.
    + intros i r Hi.
      assert (Hlt : (i < length rerankResults)%nat).
      { rewrite <- Hlen. eapply lookup_lt_Some, Hi. }
      destruct (lookup_lt_is_Some_2 _ _ Hlt) as [rr Hrr].
      destruct (Hpos i rr Hrr) as (cand & H0 & H1 & H2).
      exists rr, cand. split_and!; try assumption.
      rewrite Hi in H2. by injection H2 as ->.
  - intros candidates' Hsame. by apply mapResults_sameButDistance.
Qed.

(** C10. [candidates[rr.Index]] is read for every index the provider
    returned, as the client passes them on: the search panics exactly when
    one of them is outside [0, len(candidates)), and returns one result
    for each when all are inside. *)
Theorem C10_rerank_index_is_not_checked
    c query w queryEmb w1 embBytes candidates raw p :
  Cohere.EmbedQuery c query w = (Ok queryEmb, w1) ->
  SerializeFloat32 queryEmb = inr embBytes ->
  Store.SearchSimilar (db w1) embBytes vectorSearchLimit = inr candidates ->
  candidates <> [] ->
  V2Rerank (provider w1)
    {| RerankModel := Cohere.rerankModel c; Query := query;
       Documents := contents candidates; TopN := rerankTopN |}
    = (inr raw, p) ->
  ((Search c query w).1 = Panic <->
   exists r, r ∈ raw /\ ~ (0 <= r.1 < Z.of_nat (length candidates)))
  /\ ((forall r, r ∈ raw -> 0 <= r.1 < Z.of_nat (length candidates)) ->
      exists results,
        (Search c query w).1 = Ok results /\ length results = length raw).
Proof.
  intros He Hs Hv Hne Hr.
  set (rrs := (λ r : Z * float64,
                 {| Cohere.Index := r.1; Cohere.Score := r.2 |}) <$> raw).
  assert (HR : exists w2,
    Cohere.Rerank c query (contents candidates) rerankTopN w1 = (Ok rrs, w2)).
  { unfold Cohere.Rerank.
    destruct (contents candidates) as [|d ds] eqn:Hc.
    - destruct candidates; [contradiction|discriminate].
    - rewrite Hr. eauto. }
  destruct HR as [w2 HR].
  assert (HS : Search c query w = (mapResults candidates 0 rrs, w2)).
  { rewrite (Search_stages _ _ _ _ _ _ _ He Hs Hv Hne).
    rewrite (bind_step _ _ _ _ _ (wrap_Ok _ _ _ _ _ HR)). reflexivity. }
  rewrite HS. simpl. split.
  - rewrite mapResults_Panic. split.
    + intros (rr & Hin & Hbad). subst rrs.
      apply list_elem_of_fmap in Hin as (r & -> & Hin). eauto.
    + intros (r & Hin & Hbad).
      exists {| Cohere.Index := r.1; Cohere.Score := r.2 |}.
      split; [|exact Hbad]. subst rrs. apply list_elem_of_fmap. eauto.
  - intros Hall.
    destruct (mapResults candidates 0 rrs) as [results|e|] eqn:Hm.
    + exists results. split; [reflexivity|].
      destruct (mapResults_Ok _ _ _ _ Hm) as [Hlen _].
      rewrite Hlen. subst rrs. by rewrite length_fmap.
    + exfalso. eapply mapResults_not_Err, Hm.
    + exfalso. apply mapResults_Panic in Hm as (rr & Hin & Hbad).
      subst rrs. apply list_elem_of_fmap in Hin as (r & -> & Hin).
      apply Hbad. simpl. auto.
Qed.

End SearchSpec.

(** C1 at the example of the specification: candidates c0, c1, c2 and the
    selections (2, 0.9), (0, 0.5). *)
Lemma C1_results_follow_rerank_witness :
  (λ r, (Rank r, Score r, Path r, Heading r, Content r,
         StartLine r, EndLine r, DocID r, ChunkID r))
    <$> match (Search (H := Demo.scripted) Demo.client "q"
                 Demo.searchWorld).1 with
        | Ok results => results
        | _ => []
        end
  = [(1, Qmake 9 10, "note.md", "", "c2", 1, 1, 1, 3);
     (2, Qmake 1 2, "note.md", "", "c0", 1, 1, 1, 1)].
Proof.
  pose (w1 := (Cohere.EmbedQuery (H := Demo.scripted) Demo.client "q"
                 Demo.searchWorld).2).
  pose (cands := match Store.SearchSimilar (H := Demo.scripted) (db w1)
                         (replicate 8 Byte.x00) vectorSearchLimit with
                 | inr l => l
                 | inl _ => []
                 end).
  pose (rrs := [ @Cohere.Build_RerankResult Demo.scripted 2 (Qmake 9 10);
                 @Cohere.Build_RerankResult Demo.scripted 0 (Qmake 1 2) ]).
  pose (w2 := (Cohere.Rerank (H := Demo.scripted) Demo.client "q"
                 (contents cands) rerankTopN w1).2).
  destruct (C1_results_follow_rerank (H := Demo.scripted)
              Demo.client "q" Demo.searchWorld [0%Q; 0%Q] w1
              (replicate 8 Byte.x00) cands rrs w2)
    as [HS _].
  - vm_compute; reflexivity.
  - vm_compute; reflexivity.
  - vm_compute; reflexivity.
  - vm_compute; discriminate.
  - vm_compute; reflexivity.
  - rewrite HS. vm_compute. reflexivity.
Defined.

(** C10 where the provider returns index 3 for three candidates. *)
Lemma C10_rerank_index_is_not_checked_witness :
  (Search (H := Demo.scripted) Demo.client "q" Demo.searchWorldIndex3).1
  = Panic.
Proof.
  pose (w1 := (Cohere.EmbedQuery (H := Demo.scripted) Demo.client "q"
                 Demo.searchWorldIndex3).2).
  pose (cands := match Store.SearchSimilar (H := Demo.scripted) (db w1)
                         (replicate 8 Byte.x00) vectorSearchLimit with
                 | inr l => l
                 | inl _ => []
                 end).
  destruct (C10_rerank_index_is_not_checked (H := Demo.scripted)
              Demo.client "q" Demo.searchWorldIndex3 [0%Q; 0%Q] w1
              (replicate 8 Byte.x00) cands [(3, Qmake 9 10)]
              {| Demo.embedReplies := []; Demo.rerankReplies := [] |})
    as [[_ HP] _].
  - vm_compute; reflexivity.
  - vm_compute; reflexivity.
  - vm_compute; reflexivity.
  - vm_compute; discriminate.
  - vm_compute; reflexivity.
  - apply HP. exists (3, Qmake 9 10). split.
    + apply list_elem_of_here.
    + vm_compute. intros [_ Hlt]. discriminate Hlt.
Defined.

End SearchSpec.

(** ** The indexer. *)

Module IndexerSpec.
Import Indexer EnvSpec.

(** What every step of the indexer keeps, for a relation on worlds that is
    a preorder and holds across a store update, a provider update, a file
    read and an embed call. *)
Section Frame.
Context `{Collaborators}.
Variable R : World -> World -> Prop.
Hypothesis R_refl : forall w, R w w.
Hypothesis R_trans : forall a b c, R a b -> R b c -> R a c.
Hypothesis R_setDB : forall w d, R w (setDB d w).
Hypothesis R_setProvider : forall w p, R w (setProvider p w).
Hypothesis R_read : forall w p, R w (record (CallReadFile p) w).
Hypothesis R_embed : forall w req, R w (record (CallEmbed req) w).

Lemma keeps_ret {A} (a : A) : keeps R (ret a).
Proof. intros w o w' [= <- <-]. apply R_refl. Qed.

Lemma keeps_fail {A} e : keeps R (fail (A := A) e).
Proof. intros w o w' [= <- <-]. apply R_refl. Qed.

Lemma keeps_lift {A} (o : outcome A) : keeps R (lift o).
Proof. intros w o' w' [= <- <-]. apply R_refl. Qed.

Lemma keeps_bind {A B} (m : M A) (k : A -> M B) :
  keeps R m -> (forall a, keeps R (k a)) -> keeps R (bind m k).
Proof.
  intros Hm Hk w o w'. unfold bind.
  destruct (m w) as [[a|e|] w1] eqn:E.
  - intros Hka. eapply R_trans; [eapply Hm, E|eapply Hk, Hka].
  - intros [= <- <-]. eapply Hm, E.
  - intros [= <- <-]. eapply Hm, E.
Qed.

Lemma keeps_wrap {A} ctx (m : M A) : keeps R m -> keeps R (wrap ctx m).
Proof.
  intros Hm w o w'. unfold wrap.
  destruct (m w) as [[a|e|] w1] eqn:E; intros [= <- <-]; eapply Hm, E.
Qed.

Lemma keeps_forEach {A} (l : list A) (body : A -> M unit) :
  (forall x, keeps R (body x)) -> keeps R (forEach l body).
Proof.
  intros Hb. induction l as [|x l IH]; simpl.
  - apply keeps_ret.
  - apply keeps_bind; [apply Hb|]. intros _. exact IH.
Qed.

Lemma keeps_Stat relPath : keeps R (Stat relPath).
Proof.
  intros w o w'. unfold Stat.
  destruct (fs w !! relPath); intros [= <- <-]; apply R_refl.
Qed.

Lemma keeps_ReadFile relPath : keeps R (ReadFile relPath).
Proof.
  intros w o w'. unfold ReadFile.
  destruct (fs w !! relPath); intros [= <- <-]; apply R_read.
Qed.

Lemma keeps_UpsertDocument path title m (i : World -> Z) :
  keeps R (λ w, UpsertDocument path title m (i w) w).
Proof.
  intros w o w'. unfold UpsertDocument.
  destruct (Store.UpsertDocument _ _ _ _ _) as [id d].
  intros [= <- <-]. apply R_setDB.
Qed.

Lemma keeps_DeleteChunksForDocument docID :
  keeps R (DeleteChunksForDocument docID).
Proof. intros w o w' [= <- <-]. apply R_setDB. Qed.

Lemma keeps_query op : keeps R (query op).
Proof.
  intros w o w'. unfold query.
  destruct (storeFault w op (db w)); intros [= <- <-]; apply R_refl.
Qed.

Lemma keeps_statement op effect : keeps R (statement op effect).
Proof.
  intros w o w'. unfold statement.
  destruct (storeFault w op (db w)); intros [= <- <-];
    [apply R_refl|apply R_setDB].
Qed.

Lemma keeps_DeleteDocument path : keeps R (DeleteDocument path).
Proof.
  intros w o w'. unfold DeleteDocument.
  destruct (query (SelectDocumentID path) w) as [[[]|e|] w0] eqn:Eq.
  - destruct (Store.documents (db w) !! path) as [r|];
      [|intros [= <- <-]; apply R_refl].
    match goal with
    | |- ?m w = _ -> _ => assert (K : keeps R m)
    end.
    { apply keeps_bind; [apply keeps_query|]. intros _.
      apply keeps_bind.
      { apply keeps_forEach. intros id. apply keeps_statement. }
      intros _. apply keeps_bind; [apply keeps_statement|]. intros _.
      apply keeps_statement. }
    apply K.
  - intros [= <- <-]. eapply keeps_query, Eq.
  - intros [= <- <-]. eapply keeps_query, Eq.
Qed.

Lemma keeps_InsertChunk docID c : keeps R (InsertChunk docID c).
Proof.
  intros w o w'. unfold InsertChunk.
  destruct (Store.InsertChunk _ _ _ _ _ _) as [id d].
  intros [= <- <-]. apply R_setDB.
Qed.

Lemma keeps_InsertEmbedding chunkID e : keeps R (InsertEmbedding chunkID e).
Proof.
  intros w o w'. unfold InsertEmbedding.
  destruct (Store.InsertEmbedding _ _ _); intros [= <- <-];
    [apply R_refl|apply R_setDB].
Qed.

Lemma keeps_embed c texts inputType : keeps R (Cohere.embed c texts inputType).
Proof.
  intros w o w'. unfold Cohere.embed.
  destruct texts as [|t ts]; [intros [= <- <-]; apply R_refl|].
  destruct (V2Embed _ _) as [resp p].
  assert (R w (setProvider p (record (CallEmbed
    {| Texts := t :: ts; EmbedModel := Cohere.embedModel c;
       InputType := inputType; OutputDimension := Cohere.embedDim c |}) w))).
  { eapply R_trans; [apply R_embed|apply R_setProvider]. }
  destruct resp as [err|[[floats|]|]]; intros [= <- <-]; assumption.
Qed.

Lemma keeps_EmbedDocuments c texts : keeps R (Cohere.EmbedDocuments c texts).
Proof.
  intros w o w'. unfold Cohere.EmbedDocuments.
  destruct texts as [|t ts]; [intros [= <- <-]; apply R_refl|].
  destruct (Cohere.embed c (t :: ts) SearchDocument w) as [[a|e|] w1] eqn:E;
    [| destruct (IsNoEmbeddings e) |]; intros [= <- <-];
    eapply keeps_embed, E.
Qed.

Lemma keeps_insertChunks docID chunks : keeps R (insertChunks docID chunks).
Proof.
  induction chunks as [|c cs IH]; simpl; [apply keeps_ret|].
  apply keeps_bind; [apply keeps_InsertChunk|]. intros id.
  apply keeps_bind; [exact IH|]. intros p. apply keeps_ret.
Qed.

Lemma keeps_parseFile relPath : keeps R (parseFile relPath).
Proof.
  unfold parseFile.
  apply keeps_bind; [apply keeps_Stat|]. intros info.
  apply keeps_bind; [apply keeps_ReadFile|]. intros content.
  apply keeps_bind; [apply (keeps_UpsertDocument _ _ _ (λ w, Unix (now w)))|].
  intros docID.
  apply keeps_bind; [apply keeps_DeleteChunksForDocument|]. intros _.
  apply keeps_insertChunks.
Qed.

Lemma keeps_insertBatch embeddings j batch :
  keeps R (insertBatch embeddings j batch).
Proof.
  revert j. induction batch as [|p rest IH]; intros j; simpl;
    [apply keeps_ret|].
  apply keeps_bind; [apply keeps_lift|]. intros e.
  apply keeps_bind.
  { apply keeps_wrap. destruct (SerializeFloat32 _);
      [apply keeps_fail|apply keeps_ret]. }
  intros b. apply keeps_bind; [apply keeps_wrap, keeps_InsertEmbedding|].
  intros _. apply IH.
Qed.

Lemma keeps_embedLoop fuel c pending i : keeps R (embedLoop fuel c pending i).
Proof.
  revert i. induction fuel as [|fuel IH]; intros i; simpl;
    [apply keeps_ret|].
  destruct (i <? Z.of_nat (length pending)); [|apply keeps_ret].
  apply keeps_bind; [apply keeps_wrap, keeps_EmbedDocuments|]. intros e.
  apply keeps_bind; [apply keeps_insertBatch|]. intros _. apply IH.
Qed.

Lemma keeps_embedPending c pending : keeps R (embedPending c pending).
Proof.
  unfold embedPending. destruct pending; [apply keeps_ret|].
  apply keeps_embedLoop.
Qed.

Lemma keeps_indexFile c relPath : keeps R (indexFile c relPath).
Proof.
  unfold indexFile. apply keeps_bind; [apply keeps_parseFile|].
  intros p. apply keeps_embedPending.
Qed.

Lemma keeps_needsIndexing relPath full doc :
  keeps R (needsIndexing relPath full doc).
Proof.
  unfold needsIndexing. destruct full; [apply keeps_ret|].
  destruct doc; [|apply keeps_ret].
  apply keeps_bind; [apply keeps_Stat|]. intros info. apply keeps_ret.
Qed.

Lemma keeps_selectFiles full byPath files :
  keeps R (selectFiles full byPath files).
Proof.
  induction files as [|f fs' IH]; simpl; [apply keeps_ret|].
  apply keeps_bind; [apply keeps_needsIndexing|]. intros b.
  apply keeps_bind; [exact IH|]. intros l. apply keeps_ret.
Qed.

Lemma keeps_parseAll files : keeps R (parseAll files).
Proof.
  induction files as [|f fs' IH]; simpl; [apply keeps_ret|].
  apply keeps_bind; [apply keeps_wrap, keeps_parseFile|]. intros p.
  apply keeps_bind; [exact IH|]. intros l. apply keeps_ret.
Qed.

Lemma keeps_removeDeleted currentPaths docs :
  keeps R (removeDeleted currentPaths docs).
Proof.
  unfold removeDeleted. apply keeps_forEach. intros doc.
  unfold removeIfDeleted.
  destruct (decide _); [apply keeps_ret|].
  apply keeps_wrap, keeps_DeleteDocument.
Qed.

Lemma keeps_Index c full : keeps R (Index c full).
Proof.
  unfold Index.
  apply keeps_bind.
  { apply keeps_wrap. intros w o w'. unfold findMarkdownFiles.
    destruct (found w); intros [= <- <-]; apply R_refl. }
  intros files. apply keeps_bind.
  { apply keeps_wrap. intros w o w'. unfold GetAllDocuments.
    destruct (storeFault w SelectAllDocuments (db w));
      intros [= <- <-]; apply R_refl. }
  intros docs. apply keeps_bind; [apply keeps_removeDeleted|]. intros _.
  apply keeps_bind; [apply keeps_selectFiles|]. intros sel.
  destruct sel; [apply keeps_ret|].
  apply keeps_bind; [apply keeps_parseAll|]. intros allp.
  destruct allp; [apply keeps_ret|]. apply keeps_embedPending.
Qed.

End Frame.

Section Embedding.
Context `{Collaborators}.

Lemma take_min {A} (n : nat) (l : list A) :
  take (n `min` length l) l = take n l.
Proof.
  destruct (Nat.le_gt_cases n (length l)).
  - by rewrite Nat.min_l.
  - rewrite Nat.min_r by lia. rewrite !take_ge; [done|lia|lia].
Qed.

Lemma embedLoop_embedFrom fuel c pending i w :
  0 <= i ->
  embedLoop fuel c pending i w
  = embedFrom fuel c i (drop (Z.to_nat i) pending) w.
Proof.
  revert i w. induction fuel as [|fuel IH]; intros i w Hi; [reflexivity|].
  simpl. destruct (i <? Z.of_nat (length pending)) eqn:E.
  - apply Z.ltb_lt in E.
    destruct (drop (Z.to_nat i) pending) as [|x xs] eqn:D.
    { apply (f_equal length) in D. rewrite length_drop in D. simpl in D. lia. }
    rewrite <- D.
    assert (Hs : slice pending i
                   (Z.min (i + batchSize) (Z.of_nat (length pending)))
                 = take (Z.to_nat batchSize) (drop (Z.to_nat i) pending)).
    { unfold slice. rewrite <- (take_min (Z.to_nat batchSize)).
      rewrite length_drop. f_equal. unfold batchSize. lia. }
    rewrite Hs. unfold bind.
    destruct (wrap _ _ w) as [[embs|e|] w1]; try reflexivity.
    destruct (insertBatch embs 0 _ w1) as [[[]|e|] w2]; try reflexivity.
    rewrite IH by (unfold batchSize; lia).
    rewrite drop_drop. do 3 f_equal. unfold batchSize. lia.
  - apply Z.ltb_ge in E. rewrite drop_ge by lia. reflexivity.
Qed.

Lemma embedFrom_fuel fuel1 fuel2 c i rest w :
  (length rest <= fuel1)%nat -> (length rest <= fuel2)%nat ->
  embedFrom fuel1 c i rest w = embedFrom fuel2 c i rest w.
Proof.
  revert fuel2 i rest w.
  induction fuel1 as [|fuel1 IH]; intros fuel2 i rest w H1 H2.
  - destruct rest; [|simpl in H1; lia]. by destruct fuel2.
  - destruct rest as [|x xs]; [by destruct fuel2|].
    destruct fuel2 as [|fuel2]; [simpl in H2; lia|].
    cbn [embedFrom]. unfold bind.
    destruct (wrap _ _ w) as [[embs|e|] w1]; try reflexivity.
    destruct (insertBatch embs 0 _ w1) as [[[]|e|] w2]; try reflexivity.
    apply IH; rewrite length_drop; simpl in *; unfold batchSize; lia.
Qed.

Lemma embedPending_embedFrom c pending w :
  embedPending c pending w = embedFrom (length pending) c 0 pending w.
Proof.
  unfold embedPending. destruct pending as [|x xs]; [reflexivity|].
  by rewrite embedLoop_embedFrom.
Qed.

(** One turn of the loop, for a suffix that is not empty. *)
Lemma embedFrom_turn c i rest w :
  rest <> [] ->
  embedFrom (length rest) c i rest w
  = bind (wrap (FailedToGenerateEmbeddingsForBatch (i / batchSize + 1))
            (Cohere.EmbedDocuments c
               (content <$> take (Z.to_nat batchSize) rest)))
      (λ embeddings,
         bind (insertBatch embeddings 0 (take (Z.to_nat batchSize) rest))
           (λ _, embedFrom (length (drop (Z.to_nat batchSize) rest)) c
                   (i + batchSize) (drop (Z.to_nat batchSize) rest))) w.
Proof.
  intros Hne. destruct rest as [|x xs]; [contradiction|].
  change (length (x :: xs)) with (S (length xs)).
  cbn [embedFrom]. unfold bind.
  destruct (wrap _ _ w) as [[embs|e|] w1]; try reflexivity.
  destruct (insertBatch embs 0 _ w1) as [[[]|e|] w2]; try reflexivity.
  apply embedFrom_fuel; [|lia].
  rewrite length_drop. simpl. unfold batchSize. lia.
Qed.

(** What the client does with the answer to a batch that is not empty. *)
Lemma EmbedDocuments_call c texts w o w' :
  texts <> [] ->
  Cohere.EmbedDocuments c texts w = (o, w') ->
  db w' = db w
  /\ calls w' = (calls w ++ [CallEmbed (documentRequest c texts)])%list
  /\ (o = Panic -> False)
  /\ (forall embeddings, o = Ok embeddings ->
        exists floats p,
          V2Embed (provider w) (documentRequest c texts)
            = (inr (Some (Some floats)), p)
          /\ length embeddings = length floats).
Proof.
  intros Hne. unfold Cohere.EmbedDocuments, Cohere.embed.
  destruct texts as [|t ts]; [contradiction|].
  fold (documentRequest c (t :: ts)).
  destruct (V2Embed (provider w) (documentRequest c (t :: ts)))
    as [resp p] eqn:Hp.
  destruct resp as [err|[[floats|]|]]; simpl;
    try (destruct (IsNoEmbeddings _)); intros [= <- <-];
    repeat split; try discriminate.
  intros embeddings [= <-]. exists floats, p. split; [reflexivity|].
  by rewrite !length_fmap.
Qed.

Lemma EmbedDocuments_nil c w :
  Cohere.EmbedDocuments c [] w = (Ok [], w).
Proof. reflexivity. Qed.

End Embedding.

Section Batches.
Context `{Collaborators}.

Lemma insertBatch_cons embeddings j p rest w :
  insertBatch embeddings j (p :: rest) w =
    match index embeddings j with
    | Panic => (Panic, w)
    | Err e => (Err e, w)
    | Ok e =>
        match SerializeFloat32 (Cohere.Embedding e) with
        | inl err => (Err (Wrap FailedToSerializeEmbedding err), w)
        | inr b =>
            match Store.InsertEmbedding (db w) (chunkID p) b with
            | inl err => (Err (Wrap FailedToInsertEmbedding err), w)
            | inr d => insertBatch embeddings (j + 1) rest (setDB d w)
            end
        end
    end.
Proof.
  cbn [insertBatch]. unfold bind, lift, wrap, InsertEmbedding, fail, ret.
  destruct (index embeddings j) as [e|e|]; try reflexivity.
  destruct (SerializeFloat32 (Cohere.Embedding e)) as [err|b]; try reflexivity.
  destruct (Store.InsertEmbedding (db w) (chunkID p) b); reflexivity.
Qed.

Lemma index_in_range {A} (s : list A) (j : Z) :
  0 <= j < Z.of_nat (length s) -> exists x, index s j = Ok x.
Proof.
  intros Hj. unfold index.
  destruct (j <? 0) eqn:E; [apply Z.ltb_lt in E; lia|].
  destruct (s !! Z.to_nat j) eqn:L; [eauto|].
  apply lookup_ge_None in L. lia.
Qed.

Lemma index_out_of_range {A} (s : list A) (j : Z) :
  Z.of_nat (length s) <= j -> index s j = Panic.
Proof.
  intros Hj. unfold index.
  destruct (j <? 0) eqn:E; [reflexivity|].
  rewrite (proj2 (lookup_ge_None s (Z.to_nat j))); [reflexivity|lia].
Qed.

(** With a vector for every unit, no index is out of range. *)
Lemma insertBatch_no_panic embeddings j batch w :
  0 <= j ->
  j + Z.of_nat (length batch) <= Z.of_nat (length embeddings) ->
  isPanic (insertBatch embeddings j batch w).1 = false.
Proof.
  revert j w. induction batch as [|p rest IH]; intros j w Hj Hlen;
    [reflexivity|].
  rewrite insertBatch_cons. simpl in Hlen.
  destruct (index_in_range embeddings j ltac:(lia)) as [e ->].
  destruct (SerializeFloat32 _); [reflexivity|].
  destruct (Store.InsertEmbedding _ _ _); [reflexivity|].
  apply IH; lia.
Qed.

(** With fewer vectors than units, the batch never completes. *)
Lemma insertBatch_short embeddings j batch w :
  0 <= j <= Z.of_nat (length embeddings) ->
  Z.of_nat (length embeddings) < j + Z.of_nat (length batch) ->
  stopsShort (insertBatch embeddings j batch w).1.
Proof.
  revert j w. induction batch as [|p rest IH]; intros j w Hj Hlen;
    [simpl in Hlen; lia|].
  rewrite insertBatch_cons. simpl in Hlen.
  destruct (Z.eq_dec j (Z.of_nat (length embeddings))) as [->|Hne].
  { rewrite index_out_of_range by lia. by left. }
  destruct (index_in_range embeddings j ltac:(lia)) as [e ->].
  destruct (SerializeFloat32 _) as [err|b]; [right; left; eauto|].
  destruct (Store.InsertEmbedding _ _ _) as [err|d]; [right; right; eauto|].
  apply IH; lia.
Qed.

Lemma embedFrom_no_panic fuel c i rest w :
  answersEveryText ->
  isPanic (embedFrom fuel c i rest w).1 = false.
Proof.
  intros Hgood. revert i rest w.
  induction fuel as [|fuel IH]; intros i rest w; [reflexivity|].
  destruct rest as [|x xs]; [reflexivity|].
  cbn [embedFrom]. unfold bind.
  set (batch := take (Z.to_nat batchSize) (x :: xs)).
  destruct (wrap _ _ w) as [[embs|e|] w1] eqn:E.
  - apply wrap_Ok_inv in E.
    apply EmbedDocuments_call in E as (_ & _ & _ & Hok); [|done].
    destruct (Hok embs eq_refl) as (floats & p & Hp & Hl).
    apply Hgood in Hp. cbn [Texts documentRequest] in Hp.
    rewrite length_fmap in Hp.
    pose proof (insertBatch_no_panic embs 0 batch w1 ltac:(lia)
                  ltac:(lia)) as Hnp.
    destruct (insertBatch embs 0 batch w1) as [[[]|e|] w2];
      [apply IH|reflexivity|discriminate].
  - reflexivity.
  - exfalso. unfold wrap in E.
    destruct (Cohere.EmbedDocuments c (content <$> batch) w)
      as [[?|?|] w0] eqn:E0; try discriminate.
    by apply EmbedDocuments_call in E0 as (_ & _ & Hp & _).
Qed.

(** C9. [embeddings[j]] is read for every unit of a batch, whatever the
    number of vectors returned. If the provider answers every text, no call
    of [embedPending] panics; if it returns fewer vectors than the batch
    has units, which the client passes on, the call never completes: it
    panics, unless the serializer or the store fails on an earlier unit,
    and it panics at once when no vector came back. *)
Theorem C9_embeddings_are_indexed_unchecked :
  (answersEveryText ->
   forall c pending w, isPanic (embedPending c pending w).1 = false)
  /\ (forall c batch w floats p,
        batch <> [] ->
        (length batch <= Z.to_nat batchSize)%nat ->
        V2Embed (provider w) (documentRequest c (content <$> batch))
          = (inr (Some (Some floats)), p) ->
        (length floats < length batch)%nat ->
        stopsShort (embedPending c batch w).1
        /\ (floats = [] -> (embedPending c batch w).1 = Panic)).
Proof.
  split.
  - intros Hgood c pending w. rewrite embedPending_embedFrom.
    by apply embedFrom_no_panic.
  - intros c batch w floats p Hne Hlen Hp Hshort.
    rewrite embedPending_embedFrom, embedFrom_turn by done.
    rewrite take_ge by lia.
    assert (HE : Cohere.EmbedDocuments c (content <$> batch) w
                 = (Ok ((λ emb, {| Cohere.Embedding := emb |})
                          <$> (Cohere.float64sToFloat32s <$> floats)),
                    setProvider p
                      (record (CallEmbed
                         (documentRequest c (content <$> batch))) w))).
    { unfold Cohere.EmbedDocuments, Cohere.embed.
      destruct batch as [|x xs]; [contradiction|].
      cbn [fmap list_fmap]. cbn [fmap list_fmap] in Hp.
      fold (documentRequest c (content x :: (content <$> xs))).
      rewrite Hp. reflexivity. }
    rewrite (bind_step _ _ _ _ _ (wrap_Ok _ _ _ _ _ HE)).
    set (embs := (λ emb, {| Cohere.Embedding := emb |})
                   <$> (Cohere.float64sToFloat32s <$> floats)).
    set (w1 := setProvider p _).
    assert (Hl : length embs = length floats)
      by (subst embs; by rewrite !length_fmap).
    split.
    + pose proof (insertBatch_short embs 0 batch w1 ltac:(lia) ltac:(lia))
        as Hs.
      unfold bind.
      destruct (insertBatch embs 0 batch w1) as [[[]|e|] w2]; simpl in *.
      * destruct Hs as [Hs|[[e Hs]|[e Hs]]]; discriminate.
      * exact Hs.
      * by left.
    + intros ->. destruct batch as [|x xs]; [contradiction|].
      unfold bind. rewrite insertBatch_cons. reflexivity.
Qed.

End Batches.

Section Commit.
Context `{Collaborators}.

Lemma setDB_db (w w' : World) d : w' = setDB d w -> w' = setDB (db w') w.
Proof. intros ->. reflexivity. Qed.

Lemma setDB_setDB (w : World) d d' : setDB d' (setDB d w) = setDB d' w.
Proof. reflexivity. Qed.

Lemma setDB_id (w : World) : setDB (db w) w = w.
Proof. by destruct w. Qed.

Lemma embedded_refl d : embedded [] d d.
Proof.
  repeat split; auto. intros id Hin. by apply elem_of_nil in Hin.
Qed.

Lemma embedded_trans ids1 ids2 a b c :
  embedded ids1 a b -> embedded ids2 b c -> embedded (ids1 ++ ids2) a c.
Proof.
  intros (D1 & C1 & E1 & I1 & M1 & O1) (D2 & C2 & E2 & I2 & M2 & O2).
  repeat split; try congruence.
  - intros id Hin. apply elem_of_app in Hin as [Hin|Hin].
    + destruct (I1 id Hin) as [b' Hb]. exists b'. by apply M2.
    + by apply I2.
  - intros id b' Hb. by apply M2, M1.
  - intros id Hnot. rewrite O2, O1; [done| |];
      intros Hin; apply Hnot, elem_of_app; auto.
Qed.

Lemma embedded_insert d chunkID b d' :
  Store.InsertEmbedding d chunkID b = inr d' -> embedded [chunkID] d d'.
Proof.
  unfold Store.InsertEmbedding.
  destruct (Store.vec_chunks d !! chunkID) eqn:L; [discriminate|].
  destruct (_ =? _); [|discriminate]. intros [= <-].
  repeat split; simpl.
  - intros id Hin. apply list_elem_of_singleton in Hin as ->.
    rewrite lookup_insert_eq. eauto.
  - intros id b' Hb. rewrite lookup_insert_ne; [done|congruence].
  - intros id Hnot. rewrite lookup_insert_ne; [done|].
    intros ->. apply Hnot, list_elem_of_here.
Qed.

(** A batch that completes has written a vector for each of its units and
    touched nothing else. *)
Lemma insertBatch_Ok embeddings j batch w w' :
  insertBatch embeddings j batch w = (Ok tt, w') ->
  w' = setDB (db w') w /\ embedded (chunkID <$> batch) (db w) (db w').
Proof.
  revert j w. induction batch as [|p rest IH]; intros j w.
  - intros [= <-]. split; [by rewrite setDB_id|apply embedded_refl].
  - rewrite insertBatch_cons.
    destruct (index embeddings j) as [e|e|]; try discriminate.
    destruct (SerializeFloat32 _) as [err|b]; [discriminate|].
    destruct (Store.InsertEmbedding _ _ _) as [err|d] eqn:HI; [discriminate|].
    intros Hrest. destruct (IH _ _ Hrest) as [Hw Hemb].
    split; [exact Hw|].
    change (chunkID <$> p :: rest)
      with ([chunkID p] ++ (chunkID <$> rest))%list.
    apply (embedded_trans [chunkID p] (chunkID <$> rest) _ d);
      [by eapply embedded_insert|exact Hemb].
Qed.

(** The batches of a prefix that completes are committed, and the loop goes
    on with what follows the prefix. *)
Lemma embedFrom_prefix c (k : nat) :
  forall pre i w w1,
    length pre = (Z.to_nat batchSize * k)%nat ->
    embedFrom (length pre) c i pre w = (Ok tt, w1) ->
    embedded (chunkID <$> pre) (db w) (db w1)
    /\ forall rest,
         embedFrom (length (pre ++ rest)) c i (pre ++ rest) w
         = embedFrom (length rest) c (i + batchSize * Z.of_nat k) rest w1.
Proof.
  induction k as [|k IH]; intros pre i w w1 Hlen Hrun.
  - rewrite Nat.mul_0_r in Hlen. destruct pre; [|discriminate].
    injection Hrun as <-. split; [apply embedded_refl|].
    intros rest. simpl. f_equal. lia.
  - assert (Hne : pre <> []).
    { intros ->. simpl in Hlen. unfold batchSize in Hlen. lia. }
    assert (Hge : (Z.to_nat batchSize <= length pre)%nat) by lia.
    rewrite embedFrom_turn in Hrun by exact Hne.
    apply bind_Ok in Hrun as (embs & wa & HE & Hrun).
    apply bind_Ok in Hrun as ([] & wb & HB & Hrun).
    set (b := take (Z.to_nat batchSize) pre) in *.
    set (pre' := drop (Z.to_nat batchSize) pre) in *.
    assert (Hb : b <> []).
    { subst b. destruct pre; [contradiction|]. unfold batchSize. discriminate. }
    destruct (IH pre' (i + batchSize) wb w1) as [Hemb Hgo].
    { subst pre'. rewrite length_drop. lia. }
    { exact Hrun. }
    pose proof (wrap_Ok_inv _ _ _ _ _ HE) as HE'.
    apply EmbedDocuments_call in HE' as (Hdb & _); [|by destruct b].
    destruct (insertBatch_Ok _ _ _ _ _ HB) as [_ Hins].
    split.
    + rewrite <- (take_drop (Z.to_nat batchSize) pre), fmap_app.
      fold b pre'. eapply embedded_trans; [|exact Hemb].
      by rewrite <- Hdb.
    + intros rest.
      rewrite embedFrom_turn by (destruct pre; [contradiction|discriminate]).
      rewrite take_app_le, drop_app_le by exact Hge.
      fold b pre'.
      rewrite (bind_step _ _ _ _ _ HE), (bind_step _ _ _ _ _ HB).
      rewrite Hgo. f_equal. lia.
Qed.

(** C6. When the provider fails on a batch, after the batches before it
    were committed, the call returns that error for that batch; the failing
    call is the last one made to the provider; the store is as the
    committed batches left it: every unit of theirs has its embedding, and
    documents, chunks and every other embedding are as before the call. *)
Theorem C6_failed_batch_aborts c pre rest w w1 e w2 (k : Z) :
  0 <= k ->
  Z.of_nat (length pre) = batchSize * k ->
  rest <> [] ->
  embedPending c pre w = (Ok tt, w1) ->
  Cohere.EmbedDocuments c
    (content <$> take (Z.to_nat batchSize) rest) w1 = (Err e, w2) ->
  embedPending c (pre ++ rest) w
    = (Err (Wrap (FailedToGenerateEmbeddingsForBatch (k + 1)) e), w2)
  /\ calls w2
     = (calls w1 ++
        [CallEmbed (documentRequest c
                      (content <$> take (Z.to_nat batchSize) rest))])%list
  /\ db w2 = db w1
  /\ embedded (chunkID <$> pre) (db w) (db w2)
  /\ (forall p, p ∈ pre -> is_Some (Store.vec_chunks (db w2) !! chunkID p))
  /\ (forall p, p ∈ rest ->
        chunkID p ∉ chunkID <$> pre ->
        Store.vec_chunks (db w) !! chunkID p = None ->
        Store.vec_chunks (db w2) !! chunkID p = None)
  /\ Store.chunks (db w2) = Store.chunks (db w).
Proof.
  intros Hk Hlen Hne Hpre Hfail.
  rewrite embedPending_embedFrom in Hpre.
  destruct (embedFrom_prefix c (Z.to_nat k) pre 0 w w1) as [Hemb Hgo].
  { unfold batchSize in *. lia. }
  { exact Hpre. }
  assert (Htexts : content <$> take (Z.to_nat batchSize) rest <> []).
  { destruct rest; [contradiction|]. unfold batchSize. discriminate. }
  destruct (EmbedDocuments_call _ _ _ _ _ Htexts Hfail) as (Hdb & Hcalls & _).
  assert (Hemb2 : embedded (chunkID <$> pre) (db w) (db w2))
    by (by rewrite Hdb).
  split.
  { rewrite embedPending_embedFrom, Hgo, embedFrom_turn by exact Hne.
    rewrite (bind_Err _ _ _ _ _ (wrap_Err _ _ _ _ _ Hfail)).
    do 4 f_equal. rewrite Z2Nat.id by lia.
    rewrite Z.add_0_l, Z.mul_comm, Z.div_mul; [reflexivity|].
    unfold batchSize. lia. }
  split; [exact Hcalls|]. split; [exact Hdb|]. split; [exact Hemb2|].
  destruct Hemb2 as (_ & Hch & _ & Hin & _ & Hout).
  split; [|split; [|exact Hch]].
  - intros p Hp. apply Hin, list_elem_of_fmap. eauto.
  - intros p _ Hnot Hnone. by rewrite Hout.
Qed.

End Commit.

(** C9 with a provider that answers every text, and with one that returns
    no vector for a batch of two. *)
Lemma C9_embeddings_are_indexed_unchecked_witness :
  isPanic (embedPending (H := Demo.answering) Demo.client (Demo.units 1 3)
             Demo.answeringWorld).1 = false
  /\ (embedPending (H := Demo.scripted) Demo.client (Demo.units 1 2)
        Demo.noVectors).1 = Panic.
Proof.
  split.
  - apply (proj1 (C9_embeddings_are_indexed_unchecked (H := Demo.answering))).
    intros p req floats p' [= <- _]. by rewrite length_fmap.
  - refine (proj2 (proj2 (C9_embeddings_are_indexed_unchecked
                            (H := Demo.scripted))
                     Demo.client (Demo.units 1 2) Demo.noVectors []
                     {| Demo.embedReplies := []; Demo.rerankReplies := [] |}
                     _ _ _ _) eq_refl).
    + vm_compute; discriminate.
    + vm_compute. lia.
    + vm_compute; reflexivity.
    + vm_compute. lia.
Defined.

(** C6 with 97 units: the first batch of 96 is committed, the provider
    fails on the second. *)
Lemma C6_failed_batch_aborts_witness :
  (embedPending (H := Demo.scripted) Demo.client
     (Demo.units 1 96 ++ Demo.units 97 1) Demo.secondBatchFails).1
  = Err (Wrap (FailedToGenerateEmbeddingsForBatch 2)
           (Wrap EmbedRequestFailed (External "too many requests"))).
Proof.
  pose (w1 := (embedPending (H := Demo.scripted) Demo.client
                 (Demo.units 1 96) Demo.secondBatchFails).2).
  pose (w2 := (Cohere.EmbedDocuments (H := Demo.scripted) Demo.client
                 (content <$> take (Z.to_nat batchSize) (Demo.units 97 1))
                 w1).2).
  destruct (C6_failed_batch_aborts (H := Demo.scripted) Demo.client
              (Demo.units 1 96) (Demo.units 97 1) Demo.secondBatchFails w1
              (Wrap EmbedRequestFailed (External "too many requests")) w2 1)
    as [HS _].
  - lia.
  - vm_compute; reflexivity.
  - vm_compute; discriminate.
  - vm_compute; reflexivity.
  - vm_compute; reflexivity.
  - rewrite HS. reflexivity.
Defined.

Section Reconcile.
Context `{Collaborators}.

Lemma existingByPath_fold (l : list (string * Store.docRow))
    (acc : gmap string Store.Document.t) p :
  NoDup l.*1 ->
  fold_left (λ m d, <[Store.Document.Path d := d]> m)
    (Store.toDocument <$> l) acc !! p
  = match (list_to_map l : gmap string Store.docRow) !! p with
    | Some r => Some (Store.toDocument (p, r))
    | None => acc !! p
    end.
Proof.
  revert acc. induction l as [|[q r] l IH]; intros acc Hnd; [reflexivity|].
  apply NoDup_cons in Hnd as [Hq Hnd]. cbn [fmap list_fmap fold_left].
  rewrite IH by exact Hnd. cbn [list_to_map foldr]. simpl.
  destruct (decide (p = q)) as [->|Hne].
  - rewrite lookup_insert_eq.
    rewrite (not_elem_of_list_to_map_1 _ _ Hq).
    by rewrite lookup_insert_eq.
  - rewrite (lookup_insert_ne (list_to_map l)) by congruence.
    destruct (list_to_map l !! p); [reflexivity|].
    by rewrite lookup_insert_ne by congruence.
Qed.

(** The map [existingByPath] built from the listing of the table is the
    table read by path. *)
Lemma existingByPath_lookup d p :
  existingByPath (Store.GetAllDocuments d) !! p = Store.GetDocument d p.
Proof.
  unfold existingByPath, Store.GetAllDocuments, Store.GetDocument.
  rewrite existingByPath_fold by apply NoDup_fst_map_to_list.
  rewrite list_to_map_to_list.
  destruct (Store.documents d !! p); reflexivity.
Qed.

Lemma needsIndexing_world relPath full doc w o w' :
  needsIndexing relPath full doc w = (o, w') -> w' = w.
Proof.
  unfold needsIndexing. destruct full; [by intros [= _ <-]|].
  destruct doc; [|by intros [= _ <-]].
  unfold bind, Stat. destruct (fs w !! relPath); by intros [= _ <-].
Qed.

Lemma needsIndexing_true relPath full doc w :
  (needsIndexing relPath full doc w).1 = Ok true <->
  full = true
  \/ doc = None
  \/ exists d f,
       doc = Some d /\ fs w !! relPath = Some f
       /\ Store.Document.ModifiedAt d < Unix (ModTime f).
Proof.
  unfold needsIndexing. destruct full.
  { split; [auto|reflexivity]. }
  destruct doc as [d|].
  2:{ split; [auto|reflexivity]. }
  unfold bind, Stat. destruct (fs w !! relPath) as [f|] eqn:Hf; simpl.
  - split.
    + intros [= Hlt]. apply Z.ltb_lt in Hlt. right; right. eauto.
    + intros [?|[?|(d' & f' & [= <-] & [= <-] & Hlt)]]; try discriminate.
      apply Z.ltb_lt in Hlt. by rewrite Hlt.
  - split; [discriminate|].
    intros [?|[?|(d' & f' & _ & ? & _)]]; discriminate.
Qed.

Lemma needsIndexing_false relPath full doc w :
  (needsIndexing relPath full doc w).1 = Ok false ->
  full = false
  /\ exists d f,
       doc = Some d /\ fs w !! relPath = Some f
       /\ ~ Store.Document.ModifiedAt d < Unix (ModTime f).
Proof.
  unfold needsIndexing. destruct full; [discriminate|].
  destruct doc as [d|]; [|discriminate].
  unfold bind, Stat. destruct (fs w !! relPath) as [f|]; [|discriminate].
  simpl. intros [= Hlt]. apply Z.ltb_ge in Hlt.
  split; [reflexivity|]. exists d, f. repeat split. lia.
Qed.

(** The files selected are listed files that must be indexed; a listed
    file left out has an up-to-date document. *)
Lemma selectFiles_spec full byPath files w o w' :
  selectFiles full byPath files w = (o, w') ->
  w' = w
  /\ forall sel, o = Ok sel ->
       (forall p, p ∈ sel ->
          p ∈ files
          /\ (needsIndexing p full (byPath !! p) w).1 = Ok true)
       /\ (forall p, p ∈ files -> p ∉ sel ->
             (needsIndexing p full (byPath !! p) w).1 = Ok false).
Proof.
  revert o w'. induction files as [|f rest IH]; intros o w'.
  - intros [= <- <-]. split; [reflexivity|]. intros sel [= <-].
    split; intros p Hp; by apply elem_of_nil in Hp.
  - cbn [selectFiles]. unfold bind at 1.
    destruct (needsIndexing f full (byPath !! f) w) as [[b|e|] w0] eqn:Hn;
      pose proof (needsIndexing_world _ _ _ _ _ _ Hn) as ->.
    2,3: intros [= <- <-]; split; [reflexivity|discriminate].
    unfold bind.
    destruct (selectFiles full byPath rest w) as [[sel'|e|] w1] eqn:Hs;
      destruct (IH _ _ eq_refl) as [-> Hsel].
    2,3: intros [= <- <-]; split; [reflexivity|discriminate].
    intros [= <- <-]. split; [reflexivity|]. intros sel [= <-].
    destruct (Hsel sel' eq_refl) as [Hin Hout].
    assert (Hb : (needsIndexing f full (byPath !! f) w).1 = Ok b)
      by (by rewrite Hn).
    split.
    + intros p Hp. destruct b.
      * apply elem_of_cons in Hp as [->|Hp].
        -- split; [apply list_elem_of_here|exact Hb].
        -- destruct (Hin p Hp). split; [by apply list_elem_of_further|done].
      * destruct (Hin p Hp). split; [by apply list_elem_of_further|done].
    + intros p Hp Hnot. apply elem_of_cons in Hp as [->|Hp].
      * destruct b; [|exact Hb]. exfalso. apply Hnot, list_elem_of_here.
      * apply Hout; [exact Hp|]. intros Hin'. apply Hnot.
        destruct b; [by apply list_elem_of_further|exact Hin'].
Qed.

End Reconcile.

Section Passes.
Context `{Collaborators}.

Lemma Index_sameFiles c full w o w' :
  Index c full w = (o, w') -> sameFiles w w'.
Proof.
  apply (keeps_Index sameFiles); unfold sameFiles; try done.
  intros a b c' (-> & -> & ->) (-> & -> & ->). done.
Qed.

Lemma parseFile_sameFiles relPath w o w' :
  parseFile relPath w = (o, w') -> sameFiles w w'.
Proof.
  apply (keeps_parseFile sameFiles); unfold sameFiles; try done.
  intros a b c' (-> & -> & ->) (-> & -> & ->). done.
Qed.

Lemma uniqueIDs_delete docs q : uniqueIDs docs -> uniqueIDs (delete q docs).
Proof.
  intros Hu p q' r s Hp Hq.
  apply lookup_delete_Some in Hp as [_ Hp].
  apply lookup_delete_Some in Hq as [_ Hq]. eauto.
Qed.

Lemma DeleteDocument_documents d q :
  uniqueIDs (Store.documents d) ->
  Store.documents (Store.DeleteDocument d q) = delete q (Store.documents d).
Proof.
  intros Hu. unfold Store.DeleteDocument.
  destruct (Store.documents d !! q) as [r|] eqn:Hq.
  - cbn [Store.documents Store.DeleteChunksForDocument].
    apply map_eq. intros p.
    destruct (decide (p = q)) as [->|Hne].
    + rewrite lookup_delete_eq. apply map_lookup_filter_None. right.
      intros s Hs. rewrite Hq in Hs. injection Hs as <-. simpl. tauto.
    + rewrite lookup_delete_ne by congruence.
      destruct (Store.documents d !! p) as [s|] eqn:Hp.
      * apply map_lookup_filter_Some. split; [exact Hp|]. simpl.
        intros Hid. apply Hne. by apply (Hu p q s r).
      * apply map_lookup_filter_None. left. exact Hp.
  - symmetry. by apply delete_id.
Qed.

Lemma DB_eq (a b : Store.DB) :
  Store.embedDim a = Store.embedDim b ->
  Store.documents a = Store.documents b ->
  Store.chunks a = Store.chunks b ->
  Store.vec_chunks a = Store.vec_chunks b ->
  Store.last_insert_rowid a = Store.last_insert_rowid b ->
  a = b.
Proof. destruct a, b; simpl; intros; subst; reflexivity. Qed.

Lemma foldr_delete_delete (x : Z) (l : list Z) (v : gmap Z bytes) :
  foldr (λ id vec, delete id vec) (delete x v) l
  = delete x (foldr (λ id vec, delete id vec) v l).
Proof.
  induction l as [|y l IH]; cbn [foldr]; [reflexivity|].
  rewrite IH. apply delete_delete.
Qed.

Lemma query_run op w o w' :
  query op w = (o, w') ->
  w' = w
  /\ match storeFault w op (db w) with
     | Some e => o = Err e
     | None => o = Ok tt
     end.
Proof.
  unfold query. destruct (storeFault w op (db w)); by intros [= <- <-].
Qed.

Lemma statement_run op effect w o w' :
  statement op effect w = (o, w') ->
  match storeFault w op (db w) with
  | Some e => o = Err e /\ w' = w
  | None => o = Ok tt /\ w' = setDB (effect (db w)) w
  end.
Proof.
  unfold statement. destruct (storeFault w op (db w)); by intros [= <- <-].
Qed.

(** The loop over the chunk ids of [DeleteDocument]: it touches only the
    embeddings, and when it ends without error the embeddings of all the
    ids are gone. *)
Lemma deleteEmbeddings_run (ids : list Z) w o w' :
  forEach ids (λ chunkID, statement (DeleteEmbedding chunkID)
                            (deleteEmbedding chunkID)) w = (o, w') ->
  exists d,
    w' = setDB d w
    /\ Store.embedDim d = Store.embedDim (db w)
    /\ Store.documents d = Store.documents (db w)
    /\ Store.chunks d = Store.chunks (db w)
    /\ Store.last_insert_rowid d = Store.last_insert_rowid (db w)
    /\ ((o = Ok tt
         /\ Store.vec_chunks d
            = foldr (λ id vec, delete id vec) (Store.vec_chunks (db w)) ids)
        \/ exists e, o = Err e).
Proof.
  revert w. induction ids as [|x l IH]; intros w.
  - intros [= <- <-]. exists (db w). rewrite setDB_id.
    split_and!; try reflexivity. by left.
  - cbn [forEach]. unfold bind.
    destruct (statement _ _ w) as [o1 w1] eqn:E1.
    apply statement_run in E1.
    destruct (storeFault w (DeleteEmbedding x) (db w)) as [e|].
    + destruct E1 as [-> ->]. intros [= <- <-]. exists (db w).
      rewrite setDB_id. split_and!; try reflexivity. right. by exists e.
    + destruct E1 as [-> ->]. intros Hrun.
      destruct (IH _ Hrun) as (d & -> & H1 & H2 & H3 & H4 & H5).
      exists d. rewrite setDB_setDB. cbn [db setDB] in *.
      split_and!; try assumption; try reflexivity.
      destruct H5 as [[-> H5]|[e ->]]; [left|right; by exists e].
      split; [reflexivity|]. rewrite H5. cbn [foldr deleteEmbedding
        Store.vec_chunks]. apply foldr_delete_delete.
Qed.

(** [DeleteDocument] never panics; it changes only the store; when it
    returns without error the store is the one [Store.DeleteDocument]
    gives, and when it returns an error the documents are as before. *)
Lemma DeleteDocument_run path w o w' :
  DeleteDocument path w = (o, w') ->
  exists d,
    w' = setDB d w
    /\ ((o = Ok tt /\ d = Store.DeleteDocument (db w) path)
        \/ (exists e, o = Err e
                      /\ Store.documents d = Store.documents (db w))).
Proof.
  unfold DeleteDocument.
  destruct (query (SelectDocumentID path) w) as [o0 w0] eqn:E0.
  apply query_run in E0 as [-> E0].
  destruct (storeFault w (SelectDocumentID path) (db w)) as [e|]; subst o0.
  { intros [= <- <-]. exists (db w). rewrite setDB_id.
    split; [reflexivity|]. right. by exists e. }
  unfold Store.DeleteDocument.
  destruct (Store.documents (db w) !! path) as [r|] eqn:Hp.
  2:{ intros [= <- <-]. exists (db w). rewrite setDB_id.
      split; [reflexivity|]. by left. }
  unfold bind at 1.
  destruct (query (SelectChunkIDs (Store.doc_id r)) w) as [o1 w1] eqn:E1.
  apply query_run in E1 as [-> E1].
  destruct (storeFault w (SelectChunkIDs (Store.doc_id r)) (db w)) as [e|];
    subst o1.
  { intros [= <- <-]. exists (db w). rewrite setDB_id.
    split; [reflexivity|]. right. by exists e. }
  unfold bind at 1.
  destruct (forEach _ _ w) as [o2 w2] eqn:E2.
  apply deleteEmbeddings_run in E2
    as (d2 & -> & Hdim & Hdoc & Hch & Hlast & Hvec).
  destruct Hvec as [[-> Hvec]|[e ->]].
  2:{ intros [= <- <-]. exists d2. split; [reflexivity|]. right. by exists e. }
  unfold bind at 1.
  destruct (statement (DeleteChunks _) _ (setDB d2 w)) as [o3 w3] eqn:E3.
  apply statement_run in E3. cbn [storeFault db setDB] in E3.
  destruct (storeFault w (DeleteChunks (Store.doc_id r)) d2) as [e|].
  { destruct E3 as [-> ->]. intros [= <- <-]. exists d2.
    split; [reflexivity|]. right. by exists e. }
  destruct E3 as [-> ->]. rewrite setDB_setDB.
  intros E4. apply statement_run in E4. cbn [storeFault db setDB] in E4.
  destruct (storeFault w (DeleteDocumentRow (Store.doc_id r)) _) as [e|].
  { destruct E4 as [-> ->]. eexists. split; [reflexivity|].
    right. exists e. split; [reflexivity|]. exact Hdoc. }
  destruct E4 as [-> ->]. rewrite setDB_setDB. eexists.
  split; [reflexivity|]. left. split; [reflexivity|].
  apply DB_eq; cbn [deleteDocumentRow deleteChunkRows Store.embedDim
    Store.documents Store.chunks Store.vec_chunks Store.last_insert_rowid
    Store.DeleteChunksForDocument]; congruence.
Qed.

Lemma removeIfDeleted_run (currentPaths : gset string) doc w :
  removeIfDeleted currentPaths doc w
  = if decide (Store.Document.Path doc ∈ currentPaths) then (Ok tt, w)
    else wrap (FailedToDeleteDocument (Store.Document.Path doc))
           (DeleteDocument (Store.Document.Path doc)) w.
Proof. unfold removeIfDeleted. by destruct (decide _). Qed.

Lemma forEach_cons {A} (x : A) l (body : A -> M unit) w :
  forEach (x :: l) body w
  = match body x w with
    | (Ok _, w') => forEach l body w'
    | (Err e, w') => (Err e, w')
    | (Panic, w') => (Panic, w')
    end.
Proof. reflexivity. Qed.

(** One turn of the deletion loop. *)
Lemma removeIfDeleted_step (currentPaths : gset string) doc w o w' :
  removeIfDeleted currentPaths doc w = (o, w') ->
  exists d,
    w' = setDB d w
    /\ ((o = Ok tt
         /\ d = if decide (Store.Document.Path doc ∈ currentPaths)
                then db w
                else Store.DeleteDocument (db w) (Store.Document.Path doc))
        \/ (exists e,
              o = Err (Wrap (FailedToDeleteDocument (Store.Document.Path doc))
                         e)
              /\ (Store.Document.Path doc ∉ currentPaths)
              /\ Store.documents d = Store.documents (db w))).
Proof.
  rewrite removeIfDeleted_run.
  destruct (decide _) as [Hin|Hout].
  { intros [= <- <-]. exists (db w). rewrite setDB_id. split; [done|].
    by left. }
  unfold wrap.
  destruct (DeleteDocument _ w) as [o1 w1] eqn:E1.
  apply DeleteDocument_run in E1 as (d & -> & [[-> ->]|(e & -> & Hd)]);
    intros [= <- <-]; eexists; (split; [reflexivity|]).
  - by left.
  - right. by exists e.
Qed.

(** The deletions change only the store, and end normally or with the
    error of a delete. *)
Lemma removeDeleted_total currentPaths docs w o w' :
  removeDeleted currentPaths docs w = (o, w') ->
  exists d,
    w' = setDB d w
    /\ (o = Ok tt
        \/ exists doc e,
             doc ∈ docs
             /\ (Store.Document.Path doc ∉ currentPaths)
             /\ o = Err (Wrap (FailedToDeleteDocument
                                 (Store.Document.Path doc)) e)).
Proof.
  unfold removeDeleted. revert w.
  induction docs as [|doc rest IH]; intros w.
  - intros [= <- <-]. exists (db w). rewrite setDB_id. split; [done|].
    by left.
  - rewrite forEach_cons.
    destruct (removeIfDeleted currentPaths doc w) as [o1 w1] eqn:E1.
    apply removeIfDeleted_step in E1
      as (d1 & -> & [[-> _]|(e & -> & Hout & _)]).
    + intros Hrun. destruct (IH _ Hrun) as (d & -> & Ho).
      exists d. rewrite setDB_setDB. split; [reflexivity|].
      destruct Ho as [->|(doc' & e & Hin & Hout & ->)]; [by left|].
      right. exists doc', e. split; [by apply list_elem_of_further|done].
    + intros [= <- <-]. exists d1. split; [reflexivity|]. right.
      exists doc, e. split; [apply list_elem_of_here|done].
Qed.

(** With ids that are unique, deletions that end normally remove the
    documents listed in [docs] whose path is not current, and no other. *)
Lemma removeDeleted_documents (currentPaths : gset string) docs w w' :
  uniqueIDs (Store.documents (db w)) ->
  removeDeleted currentPaths docs w = (Ok tt, w') ->
  uniqueIDs (Store.documents (db w'))
  /\ (forall p, p ∈ currentPaths ->
        Store.documents (db w') !! p = Store.documents (db w) !! p)
  /\ (forall p r, Store.documents (db w') !! p = Some r ->
        Store.documents (db w) !! p = Some r)
  /\ (forall doc, doc ∈ docs -> Store.Document.Path doc ∉ currentPaths ->
        Store.documents (db w') !! Store.Document.Path doc = None).
Proof.
  unfold removeDeleted. revert w.
  induction docs as [|doc rest IH]; intros w Hu.
  - intros [= <-]. repeat split; auto. intros doc Hin.
    by apply elem_of_nil in Hin.
  - rewrite forEach_cons.
    destruct (removeIfDeleted currentPaths doc w) as [o1 w1] eqn:E1.
    apply removeIfDeleted_step in E1
      as (d1 & -> & [[-> Hd1]|(e & -> & _)]); [|discriminate].
    destruct (decide _) as [Hin|Hout].
    + subst d1. rewrite setDB_id. intros Hrun.
      destruct (IH w Hu Hrun) as (U & K & S & N).
      repeat split; auto.
      intros doc' Hd Hnot. apply elem_of_cons in Hd as [->|Hd];
        [contradiction|]. by apply N.
    + set (q := Store.Document.Path doc) in *.
      assert (Hdel : Store.documents d1 = delete q (Store.documents (db w)))
        by (subst d1; by apply DeleteDocument_documents).
      intros Hrun.
      destruct (IH (setDB d1 w)) as (U & K & S & N); [|exact Hrun|].
      { cbn [db setDB]. rewrite Hdel. by apply uniqueIDs_delete. }
      cbn [db setDB] in K, S.
      split; [exact U|]. split; [|split].
      * intros p Hp. rewrite K, Hdel by exact Hp.
        apply lookup_delete_ne. intros ->. contradiction.
      * intros p r Hp. apply S in Hp. rewrite Hdel in Hp.
        by apply lookup_delete_Some in Hp as [_ Hp].
      * intros doc' Hd Hnot. apply elem_of_cons in Hd as [->|Hd];
          [|by apply N].
        fold q.
        destruct (Store.documents (db w') !! q) as [r|] eqn:E;
          [|reflexivity].
        apply S in E. rewrite Hdel, lookup_delete_eq in E. discriminate.
Qed.

Lemma removeDeleted_noop (currentPaths : gset string) docs w :
  (forall doc, doc ∈ docs -> Store.Document.Path doc ∈ currentPaths) ->
  removeDeleted currentPaths docs w = (Ok tt, w).
Proof.
  unfold removeDeleted. intros Hall.
  induction docs as [|doc rest IH]; [reflexivity|].
  rewrite forEach_cons, removeIfDeleted_run.
  destruct (decide _) as [Hin|Hout].
  - apply IH. intros d Hd. by apply Hall, list_elem_of_further.
  - exfalso. apply Hout, Hall, list_elem_of_here.
Qed.

(** The chunks of a file are all inserted; only the store changes. *)
Lemma insertChunks_spec docID chunks w :
  exists d pending,
    insertChunks docID chunks w = (Ok pending, setDB d w)
    /\ Store.documents d = Store.documents (db w)
    /\ content <$> pending = Chunker.Content <$> chunks.
Proof.
  revert w. induction chunks as [|c cs IH]; intros w.
  - exists (db w), []. by rewrite setDB_id.
  - cbn [insertChunks]. unfold bind at 1. unfold InsertChunk.
    destruct (Store.InsertChunk (db w) docID _ _ _ _) as [id d1] eqn:E.
    assert (Hd1 : Store.documents d1 = Store.documents (db w)).
    { unfold Store.InsertChunk in E. by injection E as _ <-. }
    destruct (IH (setDB d1 w)) as (d & pending & Hrun & Hdoc & Hc).
    exists d, ({| chunkID := id; content := Chunker.Content c |} :: pending).
    unfold bind. rewrite Hrun. split; [reflexivity|].
    split; [by rewrite Hdoc|]. cbn [fmap list_fmap]. by rewrite <- Hc.
Qed.

Lemma parseFile_spec relPath w o w' :
  parseFile relPath w = (o, w') ->
  (exists new, calls w' = (calls w ++ new)%list
     /\ forall call, call ∈ new -> call = CallReadFile relPath)
  /\ forall pending, o = Ok pending ->
       exists f r,
         fs w !! relPath = Some f
         /\ calls w' = (calls w ++ [CallReadFile relPath])%list
         /\ content <$> pending
            = Chunker.Content <$> Chunker.chunkMarkdown (Data f)
         /\ Store.documents (db w') = <[relPath := r]> (Store.documents (db w))
         /\ Store.doc_modified_at r = Unix (ModTime f).
Proof.
  unfold parseFile. unfold bind at 1. unfold Stat.
  destruct (fs w !! relPath) as [f|] eqn:Hf.
  2:{ intros [= <- <-]. split; [|discriminate].
      exists []. split; [by rewrite app_nil_r|].
      intros call Hc. by apply elem_of_nil in Hc. }
  unfold bind at 1. unfold ReadFile. rewrite Hf.
  set (w1 := record (CallReadFile relPath) w).
  unfold bind at 1. unfold UpsertDocument.
  destruct (Store.UpsertDocument (db w1) relPath _ _ _) as [docID d1] eqn:EU.
  assert (Hd1 : exists r, Store.documents d1
                          = <[relPath := r]> (Store.documents (db w))
                          /\ Store.doc_modified_at r = Unix (ModTime f)).
  { unfold Store.UpsertDocument in EU. subst w1. cbn [db record] in EU.
    destruct (Store.documents (db w) !! relPath);
      injection EU as _ <-; eexists; split; reflexivity. }
  destruct Hd1 as (r & Hd1 & Hr).
  unfold bind at 1. unfold DeleteChunksForDocument.
  set (w2 := setDB (Store.DeleteChunksForDocument _ docID) _).
  destruct (insertChunks_spec docID (Chunker.chunkMarkdown (Data f)) w2)
    as (d & pending & Hrun & Hdoc & Hc).
  rewrite Hrun. intros [= <- <-].
  split.
  - exists [CallReadFile relPath]. split; [reflexivity|].
    intros call Hin. by apply list_elem_of_singleton in Hin.
  - intros pending' [= <-]. exists f, r. repeat split; try assumption.
    cbn [db setDB]. rewrite Hdoc. subst w2. cbn [db setDB].
    cbn [Store.documents Store.DeleteChunksForDocument]. exact Hd1.
Qed.

Lemma parseAll_spec sel w o w' :
  parseAll sel w = (o, w') ->
  exists new,
    calls w' = (calls w ++ new)%list
    /\ (forall call, call ∈ new -> exists p, call = CallReadFile p /\ p ∈ sel)
    /\ forall allPending, o = Ok allPending ->
         (forall t, t ∈ content <$> allPending ->
            exists p f,
              CallReadFile p ∈ new /\ fs w !! p = Some f
              /\ t ∈ Chunker.Content <$> Chunker.chunkMarkdown (Data f))
         /\ (forall p, p ∈ sel ->
               exists r f,
                 Store.documents (db w') !! p = Some r
                 /\ fs w !! p = Some f
                 /\ Store.doc_modified_at r = Unix (ModTime f))
         /\ (forall p, p ∉ sel ->
               Store.documents (db w') !! p = Store.documents (db w) !! p).
Proof.
  revert w o w'. induction sel as [|q rest IH]; intros w o w'.
  - intros [= <- <-]. exists []. split; [by rewrite app_nil_r|].
    split; [intros call Hc; by apply elem_of_nil in Hc|].
    intros allPending [= <-]. repeat split.
    + intros t Ht. by apply elem_of_nil in Ht.
    + intros p Hp. by apply elem_of_nil in Hp.
  - cbn [parseAll]. unfold bind at 1.
    destruct (wrap (FailedToParse q) (parseFile q) w) as [o1 w1] eqn:E1.
    assert (E1' : exists o1', parseFile q w = (o1', w1)
                    /\ (forall pd, o1 = Ok pd -> o1' = Ok pd)).
    { unfold wrap in E1. destruct (parseFile q w) as [[a|e|] w0];
        injection E1 as <- <-; eexists; split; try reflexivity;
        try discriminate; auto. }
    destruct E1' as (o1' & E1' & Hok1).
    destruct (parseFile_spec _ _ _ _ E1') as [(new1 & Hc1 & Hr1) Hp1].
    destruct (parseFile_sameFiles _ _ _ _ E1') as (Hfs1 & _).
    destruct o1 as [pending|e|].
    2,3: intros [= <- <-]; exists new1; split; [exact Hc1|];
         split; [|discriminate];
         intros call Hc; exists q; split;
           [by apply Hr1|apply list_elem_of_here].
    destruct (Hp1 pending (Hok1 _ eq_refl)) as (f & r & Hf & Hcall & Hcont
                                                & Hdoc & Hr).
    unfold bind.
    destruct (parseAll rest w1) as [o2 w2] eqn:E2.
    destruct (IH _ _ _ E2) as (new2 & Hc2 & Hr2 & Hp2).
    assert (Hcalls : calls w2
                     = (calls w ++ (CallReadFile q :: new2))%list).
    { rewrite Hc2, Hcall, <- app_assoc. reflexivity. }
    assert (Hreads : forall call, call ∈ CallReadFile q :: new2 ->
                       exists p, call = CallReadFile p /\ p ∈ q :: rest).
    { intros call Hc. apply elem_of_cons in Hc as [->|Hc].
      - exists q. split; [reflexivity|apply list_elem_of_here].
      - destruct (Hr2 call Hc) as (p & -> & Hp). exists p.
        split; [reflexivity|by apply list_elem_of_further]. }
    destruct o2 as [allPending|e|].
    2,3: intros [= <- <-]; exists (CallReadFile q :: new2);
         split; [exact Hcalls|]; split; [exact Hreads|discriminate].
    intros [= <- <-]. exists (CallReadFile q :: new2).
    split; [exact Hcalls|]. split; [exact Hreads|].
    intros ap [= <-]. destruct (Hp2 allPending eq_refl) as (Ht2 & Hd2 & Ho2).
    split; [|split].
    + intros t Ht. rewrite fmap_app in Ht.
      apply elem_of_app in Ht as [Ht|Ht].
      * exists q, f. split; [apply list_elem_of_here|].
        split; [exact Hf|]. by rewrite <- Hcont.
      * destruct (Ht2 t Ht) as (p & f' & Hin & Hf' & Hc').
        exists p, f'. split; [by apply list_elem_of_further|].
        split; [by rewrite <- Hfs1|exact Hc'].
    + intros p Hp. destruct (decide (p ∈ rest)) as [Hin|Hnot].
      * destruct (Hd2 p Hin) as (r' & f' & ? & Hf' & ?).
        exists r', f'. repeat split; try assumption. by rewrite <- Hfs1.
      * apply elem_of_cons in Hp as [->|Hp]; [|contradiction].
        exists r, f. rewrite (Ho2 q Hnot), Hdoc, lookup_insert_eq. done.
    + intros p Hp. rewrite Ho2, Hdoc.
      * apply lookup_insert_ne. intros ->. apply Hp, list_elem_of_here.
      * intros Hin. by apply Hp, list_elem_of_further.
Qed.

Lemma insertBatch_quiet embeddings j batch w o w' :
  insertBatch embeddings j batch w = (o, w') ->
  calls w' = calls w
  /\ Store.documents (db w') = Store.documents (db w).
Proof.
  revert j w. induction batch as [|p rest IH]; intros j w.
  - by intros [= <- <-].
  - rewrite insertBatch_cons.
    destruct (index embeddings j) as [e|e|]; try by intros [= <- <-].
    destruct (SerializeFloat32 _) as [err|b]; [by intros [= <- <-]|].
    destruct (Store.InsertEmbedding _ _ _) as [err|d] eqn:HI;
      [by intros [= <- <-]|].
    intros Hrest. destruct (IH _ _ Hrest) as [Hc Hd].
    split; [exact Hc|]. rewrite Hd. cbn [db setDB].
    by destruct (embedded_insert _ _ _ _ HI) as (-> & _).
Qed.

(** The embed calls of the loop carry texts of the units it was given. *)
Lemma embedFrom_calls fuel c i rest w o w' :
  embedFrom fuel c i rest w = (o, w') ->
  Store.documents (db w') = Store.documents (db w)
  /\ exists new,
       calls w' = (calls w ++ new)%list
       /\ forall call, call ∈ new ->
            exists texts,
              call = CallEmbed (documentRequest c texts)
              /\ forall t, t ∈ texts -> t ∈ content <$> rest.
Proof.
  revert i rest w. induction fuel as [|fuel IH]; intros i rest w.
  { intros [= <- <-]. split; [reflexivity|]. exists [].
    split; [by rewrite app_nil_r|]. intros call Hc.
    by apply elem_of_nil in Hc. }
  destruct rest as [|x xs].
  { intros [= <- <-]. split; [reflexivity|]. exists [].
    split; [by rewrite app_nil_r|]. intros call Hc.
    by apply elem_of_nil in Hc. }
  cbn [embedFrom]. set (batch := take (Z.to_nat batchSize) (x :: xs)).
  set (tail := drop (Z.to_nat batchSize) (x :: xs)).
  assert (Hbatch : forall t, t ∈ content <$> batch ->
                     t ∈ content <$> x :: xs).
  { intros t Ht. apply list_elem_of_fmap in Ht as (u & -> & Hu).
    apply list_elem_of_fmap. exists u. split; [reflexivity|].
    subst batch. eapply subseteq_take, Hu. }
  assert (Htail : forall t, t ∈ content <$> tail -> t ∈ content <$> x :: xs).
  { intros t Ht. apply list_elem_of_fmap in Ht as (u & -> & Hu).
    apply list_elem_of_fmap. exists u. split; [reflexivity|].
    subst tail. eapply subseteq_drop, Hu. }
  unfold bind at 1.
  destruct (wrap _ (Cohere.EmbedDocuments c (content <$> batch)) w)
    as [o1 w1] eqn:E1.
  assert (E1' : exists o1', Cohere.EmbedDocuments c (content <$> batch) w
                            = (o1', w1)).
  { unfold wrap in E1.
    destruct (Cohere.EmbedDocuments c (content <$> batch) w) as [[?|?|] ?];
      injection E1 as <- <-; eauto. }
  destruct E1' as [o1' E1'].
  apply EmbedDocuments_call in E1' as (Hdb1 & Hc1 & _); [|done].
  set (call1 := CallEmbed (documentRequest c (content <$> batch))) in *.
  assert (Hone : forall call, call ∈ [call1] ->
            exists texts, call = CallEmbed (documentRequest c texts)
              /\ forall t, t ∈ texts -> t ∈ content <$> x :: xs).
  { intros call Hc. apply list_elem_of_singleton in Hc as ->.
    exists (content <$> batch). split; [reflexivity|exact Hbatch]. }
  destruct o1 as [embs|e|].
  2,3: intros [= <- <-]; split; [by rewrite Hdb1|];
       exists [call1]; split; [exact Hc1|exact Hone].
  unfold bind.
  destruct (insertBatch embs 0 batch w1) as [o2 w2] eqn:E2.
  destruct (insertBatch_quiet _ _ _ _ _ _ E2) as [Hc2 Hd2].
  destruct o2 as [[]|e|].
  2,3: intros [= <- <-]; split; [by rewrite Hd2, Hdb1|];
       exists [call1]; split; [by rewrite Hc2|exact Hone].
  intros Hrest. destruct (IH _ _ _ Hrest) as (Hd3 & new & Hc3 & Hn3).
  split; [by rewrite Hd3, Hd2, Hdb1|].
  exists (call1 :: new). split.
  - rewrite Hc3, Hc2, Hc1, <- app_assoc. reflexivity.
  - intros call Hc. apply elem_of_cons in Hc as [->|Hc].
    + apply Hone, list_elem_of_here.
    + destruct (Hn3 call Hc) as (texts & -> & Ht). exists texts.
      split; [reflexivity|]. intros t Hin. by apply Htail, Ht.
Qed.

End Passes.

Section Index.
Context `{Collaborators}.

(** How a pass starts once the listing is there: it ends on the error of
    the query for the documents, with the world as it was, or on the error
    of a delete, or it goes on to select the files with the documents of
    unlisted paths removed. *)
Lemma Index_start c full w o w' files :
  found w = inr files ->
  Index c full w = (o, w') ->
  (exists e,
     storeFault w SelectAllDocuments (db w) = Some e
     /\ o = Err (Wrap FailedToGetExistingDocuments e) /\ w' = w)
  \/ (storeFault w SelectAllDocuments (db w) = None
      /\ exists d1,
           (exists doc e,
              doc ∈ Store.GetAllDocuments (db w)
              /\ (Store.Document.Path doc ∉ files)
              /\ o = Err (Wrap (FailedToDeleteDocument
                                  (Store.Document.Path doc)) e)
              /\ w' = setDB d1 w)
           \/ (removeDeleted (list_to_set files)
                 (Store.GetAllDocuments (db w)) w = (Ok tt, setDB d1 w)
               /\ bind (selectFiles full
                          (existingByPath (Store.GetAllDocuments (db w)))
                          files)
                    (λ filesToIndex,
                       match filesToIndex with
                       | [] => ret tt
                       | _ :: _ =>
                           bind (parseAll filesToIndex)
                             (λ allPending,
                                match allPending with
                                | [] => ret tt
                                | _ :: _ => embedPending c allPending
                                end)
                       end) (setDB d1 w) = (o, w'))).
Proof.
  intros Hfound. unfold Index.
  rewrite (bind_step _ _ w files w)
    by (unfold wrap, findMarkdownFiles; by rewrite Hfound).
  unfold bind at 1. unfold wrap at 1. unfold GetAllDocuments.
  destruct (storeFault w SelectAllDocuments (db w)) as [e|].
  { intros [= <- <-]. left. by exists e. }
  intros Hrun. right. split; [reflexivity|].
  unfold bind at 1 in Hrun.
  destruct (removeDeleted (list_to_set files)
              (Store.GetAllDocuments (db w)) w) as [o1 w1] eqn:Hrm.
  destruct (removeDeleted_total _ _ _ _ _ Hrm)
    as (d1 & -> & [->|(doc & e & Hin & Hout & ->)]).
  - exists d1. right. by split.
  - injection Hrun as <- <-. exists d1. left. exists doc, e.
    split_and!; try done. by rewrite elem_of_list_to_set in Hout.
Qed.

Lemma selected_mustIndex full w d1 p :
  (needsIndexing p full
     (existingByPath (Store.GetAllDocuments (db w)) !! p) (setDB d1 w)).1
    = Ok true ->
  mustIndex full w p.
Proof.
  rewrite needsIndexing_true, existingByPath_lookup. unfold mustIndex.
  intros [?|[?|(d & f & ? & ? & ?)]]; eauto 10.
Qed.

Lemma Index_calls c full w o w' files :
  found w = inr files ->
  Index c full w = (o, w') ->
  exists new,
    calls w' = (calls w ++ new)%list
    /\ (forall p, CallReadFile p ∈ new -> p ∈ files /\ mustIndex full w p)
    /\ (forall req t, CallEmbed req ∈ new -> t ∈ Texts req ->
          exists p f,
            CallReadFile p ∈ new /\ fs w !! p = Some f
            /\ t ∈ Chunker.Content <$> Chunker.chunkMarkdown (Data f))
    /\ ((forall p, p ∈ files -> ~ mustIndex full w p) -> new = []).
Proof.
  intros Hfound HI.
  assert (Hquiet : forall d1 : Store.DB, exists new : list Call,
    calls (setDB d1 w) = (calls w ++ new)%list
    /\ (forall p, CallReadFile p ∈ new -> p ∈ files /\ mustIndex full w p)
    /\ (forall req t, CallEmbed req ∈ new -> t ∈ Texts req ->
          exists p f,
            CallReadFile p ∈ new /\ fs w !! p = Some f
            /\ t ∈ Chunker.Content <$> Chunker.chunkMarkdown (Data f))
    /\ ((forall p, p ∈ files -> ~ mustIndex full w p) -> new = [])).
  { intros d1. exists []. split; [by rewrite app_nil_r|].
    repeat split; try (intros; exfalso; eapply elem_of_nil; eassumption). }
  destruct (Index_start c full w o w' files Hfound HI)
    as [(e & _ & _ & ->)|(_ & d1 & [(doc & e & _ & _ & _ & ->)|[_ HI']])].
  { rewrite <- (setDB_id w). apply Hquiet. }
  { apply Hquiet. }
  revert HI'. clear HI.
  set (w1 := setDB d1 w).
  set (byPath := existingByPath (Store.GetAllDocuments (db w))).
  assert (Hnil : exists new : list Call,
    calls w1 = (calls w ++ new)%list
    /\ (forall p, CallReadFile p ∈ new -> p ∈ files /\ mustIndex full w p)
    /\ (forall req t, CallEmbed req ∈ new -> t ∈ Texts req ->
          exists p f,
            CallReadFile p ∈ new /\ fs w !! p = Some f
            /\ t ∈ Chunker.Content <$> Chunker.chunkMarkdown (Data f))
    /\ ((forall p, p ∈ files -> ~ mustIndex full w p) -> new = [])).
  { exists []. split; [by rewrite app_nil_r|].
    repeat split; try (intros; exfalso; eapply elem_of_nil; eassumption). }
  unfold bind at 1.
  destruct (selectFiles full byPath files w1) as [o2 w2] eqn:Hs.
  destruct (selectFiles_spec _ _ _ _ _ _ Hs) as [-> Hsel].
  destruct o2 as [sel|e|]; [|intros [= <- <-]; exact Hnil..].
  destruct (Hsel sel eq_refl) as [Hin _].
  assert (Hmust : forall p, p ∈ sel -> p ∈ files /\ mustIndex full w p).
  { intros p Hp. destruct (Hin p Hp) as [Hf Hn].
    split; [exact Hf|]. eapply selected_mustIndex, Hn. }
  destruct sel as [|s ss]; [intros [= <- <-]; exact Hnil|].
  assert (Hsome : (forall p, p ∈ files -> ~ mustIndex full w p) -> False).
  { intros Hno. destruct (Hmust s (list_elem_of_here _ _)) as [Hf Hm].
    exact (Hno s Hf Hm). }
  unfold bind at 1.
  destruct (parseAll (s :: ss) w1) as [o3 w3] eqn:Hp.
  destruct (parseAll_spec _ _ _ _ Hp) as (new3 & Hc3 & Hr3 & Hp3).
  assert (Hreads : exists new : list Call,
    calls w3 = (calls w ++ new)%list
    /\ (forall p, CallReadFile p ∈ new -> p ∈ files /\ mustIndex full w p)
    /\ (forall req t, CallEmbed req ∈ new -> t ∈ Texts req ->
          exists p f,
            CallReadFile p ∈ new /\ fs w !! p = Some f
            /\ t ∈ Chunker.Content <$> Chunker.chunkMarkdown (Data f))
    /\ ((forall p, p ∈ files -> ~ mustIndex full w p) -> new = [])).
  { exists new3. split; [exact Hc3|]. split; [|split].
    - intros p Hc. destruct (Hr3 _ Hc) as (q & [= <-] & Hq). by apply Hmust.
    - intros req t Hc. destruct (Hr3 _ Hc) as (q & [=] & _).
    - intros Hno. destruct (Hsome Hno). }
  destruct o3 as [ap|e|]; [|intros [= <- <-]; exact Hreads..].
  destruct ap as [|a ap']; [intros [= <- <-]; exact Hreads|].
  destruct (Hp3 _ eq_refl) as (Ht3 & _ & _).
  rewrite embedPending_embedFrom. intros He.
  destruct (embedFrom_calls _ _ _ _ _ _ _ He) as (_ & new4 & Hc4 & Hn4).
  exists (new3 ++ new4)%list. split; [|split; [|split]].
  - rewrite Hc4, Hc3, <- app_assoc. reflexivity.
  - intros p Hc. apply elem_of_app in Hc as [Hc|Hc].
    + destruct (Hr3 _ Hc) as (q & [= <-] & Hq). by apply Hmust.
    + destruct (Hn4 _ Hc) as (texts & [=] & _).
  - intros req t Hc Ht. apply elem_of_app in Hc as [Hc|Hc].
    + destruct (Hr3 _ Hc) as (q & [=] & _).
    + destruct (Hn4 _ Hc) as (texts & [= ->] & Htexts).
      destruct (Ht3 t (Htexts t Ht)) as (p & f & Hin3 & Hf & Hcont).
      exists p, f. split; [apply elem_of_app; by left|]. done.
  - intros Hno. destruct (Hsome Hno).
Qed.

Lemma selectFiles_none byPath files w :
  (forall p, p ∈ files ->
     (needsIndexing p false (byPath !! p) w).1 = Ok false) ->
  selectFiles false byPath files w = (Ok [], w).
Proof.
  induction files as [|f rest IH]; intros Hall; [reflexivity|].
  cbn [selectFiles]. unfold bind at 1.
  pose proof (Hall f (list_elem_of_here _ _)) as Hf.
  destruct (needsIndexing f false (byPath !! f) w) as [o w0] eqn:E.
  pose proof (needsIndexing_world _ _ _ _ _ _ E) as ->.
  simpl in Hf. subst o. unfold bind.
  rewrite IH; [reflexivity|].
  intros p Hp. by apply Hall, list_elem_of_further.
Qed.

(** Once every listed file has an up-to-date document, a pass without
    [fullReindex] returns at once and leaves the world as it is: with the
    error of the query for the documents, if it has one, and normally
    otherwise. *)
Lemma Index_upToDate_noop c w files :
  found w = inr files -> upToDate files w ->
  Index c false w
  = match storeFault w SelectAllDocuments (db w) with
    | Some e => (Err (Wrap FailedToGetExistingDocuments e), w)
    | None => (Ok tt, w)
    end.
Proof.
  intros Hfound [Hup Hkeys]. unfold Index.
  rewrite (bind_step _ _ w files w)
    by (unfold wrap, findMarkdownFiles; by rewrite Hfound).
  unfold bind at 1. unfold wrap at 1. unfold GetAllDocuments.
  destruct (storeFault w SelectAllDocuments (db w)) as [e|]; [reflexivity|].
  rewrite (bind_step _ _ w tt w).
  2:{ apply removeDeleted_noop. intros doc Hd.
      apply list_elem_of_fmap in Hd as ([p r] & -> & Hpr).
      apply elem_of_map_to_list in Hpr. apply elem_of_list_to_set. simpl.
      apply Hkeys. by exists r. }
  rewrite (bind_step _ _ w [] w); [reflexivity|].
  apply selectFiles_none. intros p Hp.
  destruct (Hup p Hp) as (r & f & Hr & Hf & Hnew).
  rewrite existingByPath_lookup. unfold Store.GetDocument. rewrite Hr.
  unfold needsIndexing, bind, Stat. cbn [fmap option_fmap option_map].
  cbn beta. rewrite Hf. simpl.
  do 2 f_equal. apply Z.ltb_ge. lia.
Qed.

(** After a pass that succeeds, every listed file has an up-to-date
    document. *)
Lemma Index_upToDate c full w w' files :
  uniqueIDs (Store.documents (db w)) ->
  found w = inr files ->
  Index c full w = (Ok tt, w') ->
  upToDate files w'.
Proof.
  intros Hu Hfound HI.
  destruct (Index_sameFiles _ _ _ _ _ HI) as (Hfs & _).
  destruct (Index_start c full w _ _ files Hfound HI)
    as [(e & _ & [=] & _)
       |(_ & d1 & [(doc & e & _ & _ & [=] & _)|[Hrm HI']])].
  clear HI. rename HI' into HI.
  pose proof (removeDeleted_documents (list_to_set files)
                (Store.GetAllDocuments (db w)) w _ Hu Hrm) as Hdocs.
  cbn [db setDB] in Hdocs.
  destruct Hdocs as (_ & K & S & N).
  set (w1 := setDB d1 w) in *.
  set (byPath := existingByPath (Store.GetAllDocuments (db w))) in *.
  assert (Hkeys1 : forall p r, Store.documents d1 !! p = Some r -> p ∈ files).
  { intros p r Hp. destruct (decide (p ∈ files)) as [|Hnot]; [done|].
    exfalso.
    assert (Hd : Store.toDocument (p, r) ∈ Store.GetAllDocuments (db w)).
    { apply list_elem_of_fmap. exists (p, r). split; [reflexivity|].
      apply elem_of_map_to_list. by apply S. }
    apply N in Hd; [simpl in Hd; congruence|].
    simpl. by rewrite elem_of_list_to_set. }
  apply bind_Ok in HI as (sel & w2 & Hs & HI).
  destruct (selectFiles_spec _ _ _ _ _ _ Hs) as [-> Hsel].
  destruct (Hsel sel eq_refl) as [Hin Hout].
  assert (Hold : forall p, p ∈ files -> p ∉ sel ->
            exists r f, Store.documents d1 !! p = Some r
                        /\ fs w !! p = Some f
                        /\ ~ Store.doc_modified_at r < Unix (ModTime f)).
  { intros p Hp Hnot. apply Hout in Hnot; [|exact Hp].
    apply needsIndexing_false in Hnot as (_ & d & f & Hd & Hf & Hlt).
    subst byPath. rewrite existingByPath_lookup in Hd.
    unfold Store.GetDocument in Hd.
    destruct (Store.documents (db w) !! p) as [r|] eqn:Hr; [|discriminate].
    injection Hd as <-. exists r, f. split; [|done].
    rewrite K; [done|]. by apply elem_of_list_to_set. }
  assert (Hdone : forall w3,
            fs w' = fs w ->
            (forall p, p ∈ sel ->
               exists r f, Store.documents (db w3) !! p = Some r
                           /\ fs w !! p = Some f
                           /\ Store.doc_modified_at r = Unix (ModTime f)) ->
            (forall p, p ∉ sel ->
               Store.documents (db w3) !! p = Store.documents d1 !! p) ->
            Store.documents (db w') = Store.documents (db w3) ->
            upToDate files w').
  { intros w3 Hfs' Hd Ho Heq. split.
    - intros p Hp. rewrite Heq, Hfs'.
      destruct (decide (p ∈ sel)) as [Hs'|Hs'].
      + destruct (Hd p Hs') as (r & f & ? & ? & Hm). exists r, f.
        repeat split; try assumption. lia.
      + rewrite (Ho p Hs'). by apply Hold.
    - intros p [r Hp]. rewrite Heq in Hp.
      destruct (decide (p ∈ sel)) as [Hs'|Hs']; [by apply Hin|].
      rewrite (Ho p Hs') in Hp. by eapply Hkeys1. }
  destruct sel as [|s ss].
  { injection HI as <-. apply (Hdone w1); try done.
    intros p Hp. by apply elem_of_nil in Hp. }
  apply bind_Ok in HI as (ap & w3 & Hp & HI).
  destruct (parseAll_spec _ _ _ _ Hp) as (new3 & _ & _ & Hp3).
  destruct (Hp3 ap eq_refl) as (_ & Hd & Ho).
  destruct ap as [|a ap'].
  { injection HI as Heq. apply (Hdone w3); try done. by rewrite <- Heq. }
  rewrite embedPending_embedFrom in HI.
  destruct (embedFrom_calls _ _ _ _ _ _ _ HI) as (Hdoc & _).
  by apply (Hdone w3).
Qed.

End Index.

Section NoPanic.
Context `{Collaborators}.

(** Parsing a file fails or returns; it has no slice to index. *)
Lemma parseFile_no_panic relPath w :
  isPanic (parseFile relPath w).1 = false.
Proof.
  unfold parseFile. unfold bind at 1. unfold Stat.
  destruct (fs w !! relPath) as [f|] eqn:Hf; [|reflexivity].
  unfold bind at 1. unfold ReadFile. rewrite Hf.
  unfold bind at 1. unfold UpsertDocument.
  destruct (Store.UpsertDocument _ _ _ _ _) as [docID d1].
  unfold bind at 1. unfold DeleteChunksForDocument.
  match goal with
  | |- context [insertChunks ?i ?l ?x] =>
      destruct (insertChunks_spec i l x) as (d & pending & -> & _)
  end.
  reflexivity.
Qed.

Lemma indexFile_no_panic c relPath w :
  answersEveryText ->
  isPanic (indexFile c relPath w).1 = false.
Proof.
  intros Hgood. unfold indexFile, bind.
  pose proof (parseFile_no_panic relPath w) as Hp.
  destruct (parseFile relPath w) as [[pending|e|] w1];
    [|reflexivity|discriminate].
  rewrite embedPending_embedFrom. by apply embedFrom_no_panic.
Qed.

End NoPanic.

Section Reindex.
Context `{Collaborators}.

Lemma batches_spec (fuel : nat) (rest : list pendingChunk) :
  (length rest <= fuel)%nat ->
  concat (IndexerInv.batches fuel rest) = rest
  /\ Forall (λ b, (1 <= length b <= Z.to_nat batchSize)%nat)
       (IndexerInv.batches fuel rest).
Proof.
  revert rest. induction fuel as [|fuel IH]; intros rest Hlen.
  - destruct rest; [|simpl in Hlen; lia]. by split.
  - destruct rest as [|x xs]; [by split|].
    cbn [IndexerInv.batches]. set (n := Z.to_nat batchSize).
    assert (Hn : n = 96%nat) by reflexivity.
    destruct (IH (drop n (x :: xs))) as [Hc HF].
    { rewrite length_drop. simpl in *. lia. }
    split.
    + cbn [concat]. rewrite Hc. apply take_drop.
    + constructor; [|exact HF]. rewrite length_take. simpl length. lia.
Qed.

Lemma embedFrom_batches fuel c i rest w o w' :
  embedFrom fuel c i rest w = (o, w') ->
  exists k,
    calls w' = (calls w ++ (IndexerInv.embedCall c <$> take k (IndexerInv.batches fuel rest)))%list
    /\ (o = Ok tt -> take k (IndexerInv.batches fuel rest) = IndexerInv.batches fuel rest).
Proof.
  revert i rest w. induction fuel as [|fuel IH]; intros i rest w.
  { intros [= <- <-]. exists 0%nat. by rewrite app_nil_r. }
  destruct rest as [|x xs].
  { intros [= <- <-]. exists 0%nat. by rewrite app_nil_r. }
  cbn [embedFrom IndexerInv.batches].
  set (batch := take (Z.to_nat batchSize) (x :: xs)).
  set (tail := drop (Z.to_nat batchSize) (x :: xs)).
  unfold bind at 1.
  destruct (wrap _ (Cohere.EmbedDocuments c (content <$> batch)) w)
    as [o1 w1] eqn:E1.
  assert (E1' : exists o1', Cohere.EmbedDocuments c (content <$> batch) w
                            = (o1', w1)).
  { unfold wrap in E1.
    destruct (Cohere.EmbedDocuments c (content <$> batch) w) as [[?|?|] ?];
      injection E1 as <- <-; eauto. }
  destruct E1' as [o1' E1'].
  apply EmbedDocuments_call in E1' as (_ & Hc1 & _); [|done].
  fold (IndexerInv.embedCall c batch) in Hc1.
  destruct o1 as [embs|e|].
  2,3: intros [= <- <-]; exists 1%nat; split; [|discriminate];
       cbn [take fmap list_fmap]; by rewrite take_0.
  unfold bind.
  destruct (insertBatch embs 0 batch w1) as [o2 w2] eqn:E2.
  destruct (insertBatch_quiet _ _ _ _ _ _ E2) as [Hc2 _].
  destruct o2 as [[]|e|].
  2,3: intros [= <- <-]; exists 1%nat; split; [|discriminate];
       cbn [take fmap list_fmap]; rewrite take_0; by rewrite Hc2.
  intros Hrest. destruct (IH _ _ _ Hrest) as (k & Hc3 & Hall).
  exists (S k). cbn [take fmap list_fmap]. split.
  - rewrite Hc3, Hc2, Hc1, <- app_assoc. reflexivity.
  - intros Ho. by rewrite (Hall Ho).
Qed.

Lemma parseFile_documents relPath w o w' :
  parseFile relPath w = (o, w') ->
  forall p, p <> relPath ->
    Store.documents (db w') !! p = Store.documents (db w) !! p.
Proof.
  intros Hrun p Hp.
  destruct (parseFile_spec _ _ _ _ Hrun) as [_ Hok].
  destruct o as [pending|e|].
  - destruct (Hok pending eq_refl) as (f & r & _ & _ & _ & -> & _).
    by apply lookup_insert_ne.
  - revert Hrun. unfold parseFile. unfold bind at 1. unfold Stat.
    destruct (fs w !! relPath) as [f|] eqn:Hf; [|by intros [= _ <-]].
    unfold bind at 1. unfold ReadFile. rewrite Hf.
    unfold bind at 1. unfold UpsertDocument.
    destruct (Store.UpsertDocument _ _ _ _ _) as [docID d1].
    unfold bind at 1. unfold DeleteChunksForDocument.
    set (w3 := setDB _ _).
    destruct (insertChunks_spec docID (Chunker.chunkMarkdown (Data f)) w3)
      as (d & pending & -> & _). discriminate.
  - pose proof (parseFile_no_panic relPath w) as Hn.
    rewrite Hrun in Hn. discriminate.
Qed.



(** A pass over the selected files that succeeds has read each of them,
    and returns a unit for every chunk of each. *)
Lemma parseAll_reads sel w allPending w' new :
  parseAll sel w = (Ok allPending, w') ->
  calls w' = (calls w ++ new)%list ->
  forall p, p ∈ sel ->
    exists f,
      fs w !! p = Some f
      /\ CallReadFile p ∈ new
      /\ forall t, t ∈ Chunker.Content <$> Chunker.chunkMarkdown (Data f) ->
                   t ∈ content <$> allPending.
Proof.
  revert w allPending w' new.
  induction sel as [|q rest IH]; intros w allPending w' new Hrun Hc p Hp;
    [by apply elem_of_nil in Hp|].
  cbn [parseAll] in Hrun.
  apply bind_Ok in Hrun as (pending & w1 & H1 & Hrun).
  apply wrap_Ok_inv in H1.
  apply bind_Ok in Hrun as (ap2 & w2 & H2 & Hret).
  injection Hret as <- <-.
  destruct (parseFile_spec _ _ _ _ H1) as [_ Hs].
  destruct (Hs pending eq_refl) as (f & r & Hf & Hc1 & Hcont & _).
  destruct (parseFile_sameFiles _ _ _ _ H1) as (Hfs1 & _).
  destruct (parseAll_spec _ _ _ _ H2) as (new2 & Hc2 & _).
  assert (Hnew : new = CallReadFile q :: new2).
  { rewrite Hc2, Hc1, <- app_assoc in Hc. by apply app_inv_head in Hc. }
  subst new. apply elem_of_cons in Hp as [->|Hp].
  - exists f. split_and!; [exact Hf|apply list_elem_of_here|].
    intros t Ht. rewrite fmap_app, Hcont. apply elem_of_app. by left.
  - destruct (IH _ _ _ _ H2 Hc2 p Hp) as (f' & Hf' & Hin & Ht).
    exists f'. rewrite <- Hfs1. split_and!; [exact Hf'| |].
    + by apply list_elem_of_further.
    + intros t Hin'. rewrite fmap_app. apply elem_of_app. right. by apply Ht.
Qed.

(** An embedding loop that succeeds has sent the content of every unit. *)
Lemma embedFrom_texts fuel c i rest w w' new :
  embedFrom fuel c i rest w = (Ok tt, w') ->
  (length rest <= fuel)%nat ->
  calls w' = (calls w ++ new)%list ->
  forall t, t ∈ content <$> rest ->
    exists req, CallEmbed req ∈ new /\ t ∈ Texts req.
Proof.
  intros Hrun Hlen Hc t Ht.
  destruct (embedFrom_batches _ _ _ _ _ _ _ Hrun) as (k & Hk & Hall).
  rewrite (Hall eq_refl) in Hk. rewrite Hk in Hc.
  apply app_inv_head in Hc. subst new.
  destruct (batches_spec fuel rest Hlen) as [Hcat _].
  rewrite <- Hcat in Ht.
  apply list_elem_of_fmap in Ht as (u & -> & Hu).
  apply list_elem_of_In, in_concat in Hu as (b & Hb & Hu).
  apply list_elem_of_In in Hb, Hu.
  exists (documentRequest c (content <$> b)). split.
  - apply list_elem_of_fmap. by exists b.
  - cbn [Texts documentRequest]. apply list_elem_of_fmap. by exists u.
Qed.

(** A pass that succeeds has indexed again every listed path that meets
    one of the three conditions: it has read the file, given the path's
    document the file's modification time, and sent the content of every
    chunk of the file to the provider. *)
Lemma Index_reindexes c full w w' files new :
  found w = inr files ->
  Index c full w = (Ok tt, w') ->
  calls w' = (calls w ++ new)%list ->
  forall p, p ∈ files -> mustIndex full w p ->
    exists f r,
      fs w !! p = Some f
      /\ CallReadFile p ∈ new
      /\ Store.documents (db w') !! p = Some r
      /\ Store.doc_modified_at r = Unix (ModTime f)
      /\ forall t, t ∈ Chunker.Content <$> Chunker.chunkMarkdown (Data f) ->
           exists req, CallEmbed req ∈ new /\ t ∈ Texts req.
Proof.
  intros Hfound HI Hc p Hp Hmust.
  destruct (Index_start c full w _ _ files Hfound HI)
    as [(e & _ & [=] & _)
       |(_ & d1 & [(doc & e & _ & _ & [=] & _)|[_ HI']])].
  clear HI. set (w1 := setDB d1 w) in *.
  apply bind_Ok in HI' as (sel & w2 & Hs & HI).
  destruct (selectFiles_spec _ _ _ _ _ _ Hs) as [-> Hsel].
  destruct (Hsel sel eq_refl) as [_ Hout].
  assert (Hyes : (needsIndexing p full
                    (existingByPath (Store.GetAllDocuments (db w)) !! p)
                    w1).1 = Ok true).
  { apply needsIndexing_true. rewrite existingByPath_lookup.
    destruct Hmust as [?|[?|(d & f & ? & ? & ?)]]; eauto 10. }
  assert (Hps : p ∈ sel).
  { destruct (decide (p ∈ sel)) as [|Hnot]; [done|].
    rewrite (Hout p Hp Hnot) in Hyes. discriminate. }
  destruct sel as [|s ss]; [by apply elem_of_nil in Hps|].
  apply bind_Ok in HI as (ap & w3 & Hpa & HI).
  destruct (parseAll_spec _ _ _ _ Hpa) as (new3 & Hc3 & _ & Hp3).
  destruct (Hp3 ap eq_refl) as (_ & Hdoc & _).
  destruct (Hdoc p Hps) as (r & f & Hr & Hf & Hm).
  destruct (parseAll_reads _ _ _ _ _ Hpa Hc3 p Hps) as (f' & Hf' & Hread & Ht).
  rewrite Hf in Hf'. injection Hf' as <-.
  cbn [fs setDB w1] in Hf. cbn [calls setDB w1] in Hc3.
  destruct ap as [|a ap'].
  - injection HI as <-. rewrite Hc3 in Hc. apply app_inv_head in Hc.
    subst new. exists f, r. split_and!; try done.
    intros t Hin. apply Ht in Hin. by apply elem_of_nil in Hin.
  - rewrite embedPending_embedFrom in HI.
    destruct (embedFrom_calls _ _ _ _ _ _ _ HI) as (Hd & new4 & Hc4 & _).
    assert (Hnew : new = (new3 ++ new4)%list).
    { rewrite Hc4, Hc3, <- app_assoc in Hc. by apply app_inv_head in Hc. }
    subst new. exists f, r. split_and!; try done.
    + apply elem_of_app. by left.
    + by rewrite Hd.
    + intros t Hin. apply Ht in Hin.
      destruct (embedFrom_texts _ _ _ _ _ _ _ HI (le_n _) Hc4 t Hin)
        as (req & Hreq & Htx).
      exists req. split; [apply elem_of_app; by right|exact Htx].
Qed.

End Reindex.

Section Incremental.
Context `{Collaborators}.

(** C2. A listed path is selected exactly on one of the three conditions:
    a full reindex is asked for, the path has no document, or the file's
    modification time is later than the document's. In a pass, a file is
    read only if it is listed and meets one of them, and every text sent
    to the embedding provider is the content of a chunk of a file read in
    that pass, so that a path meeting none of them is not read, not chunked
    and not embedded, and a pass in which no path meets one makes no
    outside call at all. Conversely, a pass that succeeds has indexed again
    every listed path that meets one of them: it has read the file, set the
    document's modification time to the file's and sent the content of
    every chunk of the file to the provider. And after a pass that
    succeeded, a pass without [fullReindex] over the same files and store
    returns at once, leaving the world, and so the list of calls, as it
    was: normally, or with the error of the store on the query for the
    documents. *)
Theorem C2_unchanged_files_are_skipped c :
  (forall relPath full doc w,
     (needsIndexing relPath full doc w).1 = Ok true <->
     full = true
     \/ doc = None
     \/ exists d f,
          doc = Some d /\ fs w !! relPath = Some f
          /\ Store.Document.ModifiedAt d < Unix (ModTime f))
  /\ (forall full w o w' files,
        found w = inr files ->
        Index c full w = (o, w') ->
        exists new,
          calls w' = (calls w ++ new)%list
          /\ (forall p, CallReadFile p ∈ new ->
                p ∈ files /\ mustIndex full w p)
          /\ (forall req t, CallEmbed req ∈ new -> t ∈ Texts req ->
                exists p f,
                  CallReadFile p ∈ new /\ fs w !! p = Some f
                  /\ t ∈ Chunker.Content <$> Chunker.chunkMarkdown (Data f))
          /\ ((forall p, p ∈ files -> ~ mustIndex full w p) -> new = []))
  /\ (forall full w w' files new,
        found w = inr files ->
        Index c full w = (Ok tt, w') ->
        calls w' = (calls w ++ new)%list ->
        forall p, p ∈ files -> mustIndex full w p ->
          exists f r,
            fs w !! p = Some f
            /\ CallReadFile p ∈ new
            /\ Store.documents (db w') !! p = Some r
            /\ Store.doc_modified_at r = Unix (ModTime f)
            /\ forall t,
                 t ∈ Chunker.Content <$> Chunker.chunkMarkdown (Data f) ->
                 exists req, CallEmbed req ∈ new /\ t ∈ Texts req)
  /\ (forall full w w1 w2,
        uniqueIDs (Store.documents (db w)) ->
        Index c full w = (Ok tt, w1) ->
        fs w2 = fs w1 -> found w2 = found w1 -> db w2 = db w1 ->
        Index c false w2
        = match storeFault w2 SelectAllDocuments (db w2) with
          | Some e => (Err (Wrap FailedToGetExistingDocuments e), w2)
          | None => (Ok tt, w2)
          end).
Proof.
  split; [exact needsIndexing_true|]. split; [|split].
  - intros full w o w' files. apply Index_calls.
  - intros full w w' files new. apply Index_reindexes.
  - intros full w w1 w2 Hu HI Hfs Hfound Hdb.
    destruct (Index_sameFiles _ _ _ _ _ HI) as (_ & Hf1 & _).
    destruct (found w) as [e|files] eqn:Hw.
    { exfalso. unfold Index, bind, wrap, findMarkdownFiles in HI.
      rewrite Hw in HI. discriminate. }
    pose proof (Index_upToDate c full w w1 files Hu Hw HI) as Hup.
    apply (Index_upToDate_noop c w2 files); [congruence|].
    unfold upToDate in *. by rewrite Hfs, Hdb.
Qed.

End Incremental.

(** C2 on a vault of two notes. The first pass reads both and makes one
    embed call, and a second pass changes nothing. When [b.md] has been
    written again, the next pass reads [b.md], whose file is now later
    than its document, and does not read [a.md]. A pass with
    [fullReindex] over the indexed vault reads [a.md] again. *)
Lemma C2_unchanged_files_are_skipped_witness :
  Index (H := Demo.answering) Demo.client false Demo.vaultIndexed
    = (Ok tt, Demo.vaultIndexed)
  /\ length (calls Demo.vaultIndexed) = 3%nat
  /\ CallReadFile "b.md"
       ∈ calls (Index (H := Demo.answering) Demo.client false
                  IndexerInv.touchedVault).2
  /\ (CallReadFile "a.md"
        ∉ calls (Index (H := Demo.answering) Demo.client false
                   IndexerInv.touchedVault).2)
  /\ CallReadFile "a.md"
       ∈ drop 3 (calls (Index (H := Demo.answering) Demo.client true
                          Demo.vaultIndexed).2).
Proof.
  pose proof (C2_unchanged_files_are_skipped (H := Demo.answering)
                Demo.client) as (_ & Hskip & Hagain & Hidem).
  split; [|split; [vm_compute; reflexivity|split; [|split]]].
  - refine (eq_trans (Hidem false Demo.vault Demo.vaultIndexed
                        Demo.vaultIndexed _ _ eq_refl eq_refl eq_refl) _).
    + intros p q r s Hp. cbn in Hp. by rewrite lookup_empty in Hp.
    + vm_compute; reflexivity.
    + vm_compute; reflexivity.
  - destruct (Hagain false IndexerInv.touchedVault
                (Index (H := Demo.answering) Demo.client false
                   IndexerInv.touchedVault).2
                ["a.md"; "b.md"]
                (calls (Index (H := Demo.answering) Demo.client false
                          IndexerInv.touchedVault).2)
                eq_refl) with (p := "b.md")
      as (f & r & _ & Hread & _).
    + vm_compute; reflexivity.
    + reflexivity.
    + apply list_elem_of_further, list_elem_of_here.
    + right; right. eexists _, _.
      split; [vm_compute; reflexivity|].
      split; [vm_compute; reflexivity|vm_compute; reflexivity].
    + exact Hread.
  - intros Hin.
    destruct (Hskip false IndexerInv.touchedVault
                (Index (H := Demo.answering) Demo.client false
                   IndexerInv.touchedVault).1
                (Index (H := Demo.answering) Demo.client false
                   IndexerInv.touchedVault).2
                ["a.md"; "b.md"] eq_refl)
      as (new & Hc & Hread & _); [apply surjective_pairing|].
    change (calls IndexerInv.touchedVault) with (@nil Call) in Hc.
    cbn [app] in Hc. rewrite Hc in Hin.
    destruct (Hread "a.md" Hin) as [_ [Hfull|[Hnone|(d & f & Hd & Hf & Hlt)]]].
    + discriminate.
    + vm_compute in Hnone. discriminate.
    + vm_compute in Hd, Hf. injection Hd as <-. injection Hf as <-.
      vm_compute in Hlt. discriminate.
  - destruct (Hagain true Demo.vaultIndexed
                (Index (H := Demo.answering) Demo.client true
                   Demo.vaultIndexed).2
                ["a.md"; "b.md"]
                (drop 3 (calls (Index (H := Demo.answering) Demo.client true
                                  Demo.vaultIndexed).2)))
      with (p := "a.md") as (f & r & _ & Hread & _).
    + vm_compute; reflexivity.
    + vm_compute; reflexivity.
    + vm_compute; reflexivity.
    + apply list_elem_of_here.
    + by left.
    + exact Hread.
Defined.

End IndexerSpec.

(** ** The watcher. *)

Module WatcherSpec.
Import Watcher EnvSpec.
Section WatcherSpec.
Context `{Collaborators}.





Lemma expired_NoDup now (p : gmap string Z) : NoDup (expired now p).
Proof. apply NoDup_fst_map_to_list. Qed.

Lemma elem_of_expired now (p : gmap string Z) path :
  path ∈ expired now p <->
  exists t, p !! path = Some t /\ debounceDelay <= now - t.
Proof.
  unfold expired. rewrite list_elem_of_fmap. split.
  - intros ([q t] & -> & Hin). apply elem_of_map_to_list in Hin.
    apply map_lookup_filter_Some in Hin as [Hl Hd]. eauto.
  - intros (t & Hl & Hd). exists (path, t). split; [reflexivity|].
    apply elem_of_map_to_list, map_lookup_filter_Some. auto.
Qed.















(** C8, as amended. An event on a name without the note extension changes
    nothing; an event whose root-relative path begins with the hidden-file
    marker changes nothing; and a path enters the pending set, or has
    its time changed, only by an event on a note whose relative path does
    not begin with the marker. *)
Theorem C8_ignores_hidden_root_entries :
  (forall event wt w,
     Indexer.isMarkdownFile (Name event) = false ->
     handleEvent event wt w = (wt, w))
  /\ (forall event wt w relPath,
        Rel (dir w) (Name event) = inr relPath ->
        Indexer.isHiddenRelPath relPath = true ->
        handleEvent event wt w = (wt, w))
  /\ (forall event wt w path t,
        pending (handleEvent event wt w).1 !! path = Some t ->
        pending wt !! path <> Some t ->
        Indexer.isMarkdownFile (Name event) = true
        /\ Rel (dir w) (Name event) = inr path
        /\ Indexer.isHiddenRelPath path = false).
Proof.
  unfold Indexer.isMarkdownFile, Indexer.isHiddenRelPath.
  split; [|split].
  - intros event wt w Hmd. unfold handleEvent. by rewrite Hmd.
  - intros event wt w relPath Hrel Hhid. unfold handleEvent.
    rewrite Hrel, Hhid. by destruct (negb _).
  - intros event wt w path t. unfold handleEvent.
    destruct (Str.HasSuffix _ _); cbn [negb]; [|by intros ? []].
    destruct (Rel _ _) as [e|relPath]; [by intros ? []|].
    destruct (Str.HasPrefix relPath ".") eqn:Hhid; [by intros ? []|].
    destruct (_ || _).
    + cbn [fst pending]. intros Hnew Hold.
      destruct (decide (relPath = path)) as [->|Hne]; [done|].
      rewrite lookup_insert_ne in Hnew by exact Hne. contradiction.
    + destruct (_ || _); [|by intros ? []].
      cbn [fst pending]. intros Hnew Hold.
      apply lookup_delete_Some in Hnew as [_ Hnew]. contradiction.
Qed.

End WatcherSpec.


(** C8 as stated fails: a write to a note whose relative path has a
    hidden-prefixed component below the first one enters the pending
    set. *)
Lemma C8_hidden_component_below_root_is_admitted :
  hasHiddenComponent "notes/.draft.md" = true
  /\ Rel (Collaborators := Demo.scripted) "/vault" "/vault/notes/.draft.md"
     = inr "notes/.draft.md"
  /\ pending (handleEvent (H := Demo.scripted)
                (Demo.write "/vault/notes/.draft.md")
                NewWatcher Demo.watched).1
     = {[ "notes/.draft.md" := 0 ]}
  /\ ~ (forall (H : Collaborators) event wt w relPath,
          Rel (dir w) (Name event) = inr relPath ->
          hasHiddenComponent relPath = true ->
          handleEvent event wt w = (wt, w)).
Proof.
  assert (Hp : pending (handleEvent (H := Demo.scripted)
                          (Demo.write "/vault/notes/.draft.md")
                          NewWatcher Demo.watched).1
               = {[ "notes/.draft.md" := 0 ]})
    by (vm_compute; reflexivity).
  split; [reflexivity|]. split; [reflexivity|]. split; [exact Hp|].
  intros Hall.
  rewrite (Hall Demo.scripted (Demo.write "/vault/notes/.draft.md")
             NewWatcher Demo.watched "notes/.draft.md" eq_refl eq_refl) in Hp.
  vm_compute in Hp. discriminate.
Qed.

(** C8, as amended, on an event below a hidden directory of the root. *)
Lemma C8_ignores_hidden_root_entries_witness :
  handleEvent (H := Demo.scripted) (Demo.write "/vault/.obsidian/cache.md")
    NewWatcher Demo.watched
  = (NewWatcher, Demo.watched).
Proof.
  apply (proj1 (proj2 (C8_ignores_hidden_root_entries (H := Demo.scripted)))
           _ _ _ ".obsidian/cache.md"); vm_compute; reflexivity.
Defined.

End WatcherSpec.

(** ** The store. *)

Module StoreSpec.
Import Store Db.

Lemma nextRowid_above (ids : list Z) :
  1 <= nextRowid ids /\ forall id, id ∈ ids -> id < nextRowid ids.
Proof.
  unfold nextRowid. induction ids as [|x l [IH1 IH2]]; simpl.
  - split; [lia|]. intros id Hin. by apply elem_of_nil in Hin.
  - split; [lia|]. intros id Hin.
    apply elem_of_cons in Hin as [->|Hin]; [lia|].
    specialize (IH2 id Hin). lia.
Qed.

Lemma documentIDs_elem (db : DB) p r :
  documents db !! p = Some r -> doc_id r ∈ documentIDs db.
Proof.
  intros Hp. unfold documentIDs. apply list_elem_of_fmap.
  exists (p, r). split; [reflexivity|]. by apply elem_of_map_to_list.
Qed.

Lemma chunkIDs_elem (db : DB) id :
  id ∈ chunkIDs db <-> is_Some (chunks db !! id).
Proof.
  unfold chunkIDs. rewrite list_elem_of_fmap. split.
  - intros ([k c] & -> & Hin). apply elem_of_map_to_list in Hin. eauto.
  - intros [c Hc]. exists (id, c). split; [reflexivity|].
    by apply elem_of_map_to_list.
Qed.

Lemma chunkIDsOf_elem (db : DB) docID id :
  id ∈ chunkIDsOf db docID <-> chunkOf db docID id.
Proof.
  unfold chunkIDsOf, chunkOf. rewrite list_elem_of_fmap. split.
  - intros ([k c] & -> & Hin). apply elem_of_map_to_list in Hin.
    apply map_lookup_filter_Some in Hin as [Hc Hd]. eauto.
  - intros (c & Hc & Hd). exists (id, c). split; [reflexivity|].
    apply elem_of_map_to_list, map_lookup_filter_Some. auto.
Qed.

Lemma foldr_delete_lookup (l : list Z) (m : gmap Z bytes) k :
  foldr (λ id vec, delete id vec) m l !! k
  = if decide (k ∈ l) then None else m !! k.
Proof.
  induction l as [|x l IH]; cbn [foldr].
  - rewrite decide_False; [done|apply not_elem_of_nil].
  - destruct (decide (k = x)) as [->|Hne].
    + rewrite lookup_delete_eq, decide_True; [done|apply list_elem_of_here].
    + rewrite lookup_delete_ne, IH by congruence.
      destruct (decide (k ∈ l)) as [Hin|Hnot].
      * rewrite decide_True; [done|by apply list_elem_of_further].
      * rewrite decide_False; [done|].
        intros Hin. apply elem_of_cons in Hin as [?|?]; contradiction.
Qed.

(** [UpsertDocument] and [GetDocument]: the document read back has the
    values written and keeps its id when the path was known; a new path
    gets an id that no document has, and the count grows by one; no other
    path, no chunk and no embedding is touched; ids stay unique. *)
Theorem upsert_then_get (db : DB) (path title : string) (m i : Z) :
  let id := (UpsertDocument db path title m i).1 in
  let db' := (UpsertDocument db path title m i).2 in
  (exists docID,
     GetDocument db' path
     = Some {| Document.ID := docID; Document.Path := path;
               Document.Title := title; Document.ModifiedAt := m;
               Document.IndexedAt := i |}
     /\ match GetDocument db path with
        | Some old => docID = Document.ID old
        | None => docID = id /\ 1 <= id /\ id ∉ documentIDs db
        end)
  /\ (forall q, q <> path -> GetDocument db' q = GetDocument db q)
  /\ DocumentCount db'
     = DocumentCount db + match GetDocument db path with
                          | Some _ => 0
                          | None => 1
                          end
  /\ chunks db' = chunks db
  /\ vec_chunks db' = vec_chunks db
  /\ (Indexer.uniqueIDs (documents db) -> Indexer.uniqueIDs (documents db')).
Proof.
  unfold UpsertDocument, GetDocument, DocumentCount.
  destruct (documents db !! path) as [r|] eqn:Hp; cbn [fst snd documents
    chunks vec_chunks fmap option_fmap option_map].
  - split; [|split; [|split; [|split; [|split]]]]; try reflexivity.
    + exists (doc_id r). rewrite lookup_insert_eq. split; reflexivity.
    + intros q Hq. by rewrite lookup_insert_ne.
    + rewrite <- (insert_delete_id (documents db) path r Hp) at 2.
      rewrite <- (insert_delete_eq (documents db)).
      rewrite !map_size_insert_None by apply lookup_delete_eq. lia.
    + intros Hu p q a b Ha Hb Hid.
      destruct (decide (p = path)) as [->|Hp'];
        destruct (decide (q = path)) as [->|Hq']; [done|..].
      * rewrite lookup_insert_eq in Ha. injection Ha as <-.
        rewrite lookup_insert_ne in Hb by congruence.
        symmetry. by apply (Hu q path b r).
      * rewrite lookup_insert_eq in Hb. injection Hb as <-.
        rewrite lookup_insert_ne in Ha by congruence.
        by apply (Hu p path a r).
      * rewrite lookup_insert_ne in Ha, Hb by congruence. by apply (Hu p q a b).
  - destruct (nextRowid_above (documentIDs db)) as [H1 Hfresh].
    assert (Hnew : nextRowid (documentIDs db) ∉ documentIDs db).
    { intros Hin. apply Hfresh in Hin. lia. }
    split; [|split; [|split; [|split; [|split]]]]; try reflexivity.
    + exists (nextRowid (documentIDs db)). rewrite lookup_insert_eq. done.
    + intros q Hq. by rewrite lookup_insert_ne.
    + rewrite map_size_insert_None by exact Hp. lia.
    + intros Hu p q a b Ha Hb Hid.
      destruct (decide (p = path)) as [->|Hp'];
        destruct (decide (q = path)) as [->|Hq']; [done|..].
      * rewrite lookup_insert_eq in Ha. injection Ha as <-.
        rewrite lookup_insert_ne in Hb by congruence.
        exfalso. apply Hnew. simpl in Hid. rewrite Hid.
        by eapply documentIDs_elem.
      * rewrite lookup_insert_eq in Hb. injection Hb as <-.
        rewrite lookup_insert_ne in Ha by congruence.
        exfalso. apply Hnew. simpl in Hid. rewrite <- Hid.
        by eapply documentIDs_elem.
      * rewrite lookup_insert_ne in Ha, Hb by congruence. by apply (Hu p q a b).
Qed.

Lemma DeleteChunksForDocument_inside (db : DB) (docID id : Z) :
  chunkOf db docID id ->
  GetChunk (DeleteChunksForDocument db docID) id = None
  /\ vec_chunks (DeleteChunksForDocument db docID) !! id = None.
Proof.
  intros Hc. pose proof Hc as (c & Hl & Hd). split.
  - unfold GetChunk. cbn [chunks DeleteChunksForDocument].
    rewrite (proj2 (map_lookup_filter_None _ _ id)); [done|].
    right. intros c' Hc'. rewrite Hl in Hc'. injection Hc' as <-.
    simpl. tauto.
  - cbn [vec_chunks DeleteChunksForDocument].
    rewrite foldr_delete_lookup, decide_True; [done|].
    by apply chunkIDsOf_elem.
Qed.

Lemma DeleteChunksForDocument_outside (db : DB) (docID id : Z) :
  ~ chunkOf db docID id ->
  chunks (DeleteChunksForDocument db docID) !! id = chunks db !! id
  /\ vec_chunks (DeleteChunksForDocument db docID) !! id
     = vec_chunks db !! id.
Proof.
  intros Hc. split.
  - cbn [chunks DeleteChunksForDocument].
    destruct (chunks db !! id) as [c|] eqn:Hl.
    + apply map_lookup_filter_Some. split; [done|]. simpl.
      intros Hd. apply Hc. by exists c.
    + apply map_lookup_filter_None. by left.
  - cbn [vec_chunks DeleteChunksForDocument].
    rewrite foldr_delete_lookup, decide_False; [done|].
    by rewrite chunkIDsOf_elem.
Qed.

Lemma DeleteChunksForDocument_noOrphans (db : DB) (docID : Z) :
  noOrphans db -> noOrphans (DeleteChunksForDocument db docID).
Proof.
  intros Hno id Hv.
  destruct (chunks db !! id) as [c|] eqn:Hl.
  - destruct (decide (chunk_doc_id c = docID)) as [Hd|Hd].
    + destruct (DeleteChunksForDocument_inside db docID id) as [_ Hn];
        [by exists c|].
      rewrite Hn in Hv. by destruct Hv.
    + destruct (DeleteChunksForDocument_outside db docID id) as [H1 _].
      { intros (c' & Hl' & Hd'). congruence. }
      rewrite H1, Hl. eauto.
  - destruct (DeleteChunksForDocument_outside db docID id) as [_ H2].
    { intros (c' & Hl' & _). congruence. }
    rewrite H2 in Hv. apply Hno in Hv. rewrite Hl in Hv. by destruct Hv.
Qed.

(** [DeleteChunksForDocument] removes the chunks of the document and the
    embeddings of those chunks, and nothing else: every other chunk and
    embedding reads as before, the documents are untouched, and a store
    without orphan embeddings stays so. *)
Theorem delete_chunks_cascades (db : DB) (docID : Z) :
  let db' := DeleteChunksForDocument db docID in
  (forall id, chunkOf db docID id ->
     GetChunk db' id = None /\ vec_chunks db' !! id = None)
  /\ (forall id, ~ chunkOf db docID id ->
        GetChunk db' id = GetChunk db id
        /\ vec_chunks db' !! id = vec_chunks db !! id)
  /\ documents db' = documents db
  /\ (forall id, ~ chunkOf db' docID id)
  /\ (noOrphans db -> noOrphans db').
Proof.
  intros db'. subst db'.
  split; [apply DeleteChunksForDocument_inside|].
  split; [|split; [reflexivity|split]].
  - intros id Hc.
    destruct (DeleteChunksForDocument_outside db docID id Hc) as [H1 H2].
    split; [|exact H2]. unfold GetChunk. by rewrite H1.
  - intros id (c & Hl & Hd).
    cbn [chunks DeleteChunksForDocument] in Hl.
    apply map_lookup_filter_Some in Hl as [_ Hne]. simpl in Hne. tauto.
  - apply DeleteChunksForDocument_noOrphans.
Qed.

(** [DeleteDocument]: a path without a document changes nothing; for a
    stored document, the document is gone, and so are its chunks and their
    embeddings; chunks of other documents and their embeddings stay; with
    unique ids every other document stays. *)
Theorem delete_document_cascades (db : DB) (path : string) :
  let db' := DeleteDocument db path in
  (GetDocument db path = None -> db' = db)
  /\ (forall old, GetDocument db path = Some old ->
        GetDocument db' path = None
        /\ (forall id, chunkOf db (Document.ID old) id ->
              GetChunk db' id = None /\ vec_chunks db' !! id = None)
        /\ (forall id, ~ chunkOf db (Document.ID old) id ->
              GetChunk db' id = GetChunk db id
              /\ vec_chunks db' !! id = vec_chunks db !! id)
        /\ (Indexer.uniqueIDs (documents db) ->
            forall q, q <> path -> GetDocument db' q = GetDocument db q))
  /\ (noOrphans db -> noOrphans db').
Proof.
  intros db'. unfold GetDocument. subst db'. unfold DeleteDocument.
  destruct (documents db !! path) as [r|] eqn:Hp;
    cbn [fmap option_fmap option_map].
  2:{ split; [done|]. split; [discriminate|done]. }
  split; [discriminate|].
  pose proof (DeleteChunksForDocument_inside db (doc_id r)) as Hin.
  pose proof (DeleteChunksForDocument_noOrphans db (doc_id r)) as Hno.
  assert (Hout : forall id, ~ chunkOf db (doc_id r) id ->
            GetChunk (DeleteChunksForDocument db (doc_id r)) id
            = GetChunk db id
            /\ vec_chunks (DeleteChunksForDocument db (doc_id r)) !! id
               = vec_chunks db !! id).
  { intros id Hc.
    destruct (DeleteChunksForDocument_outside db (doc_id r) id Hc)
      as [H1 H2].
    split; [|exact H2]. unfold GetChunk. by rewrite H1. }
  split.
  - intros old [= <-]. cbn [Document.ID toDocument snd documents
      DeleteChunksForDocument].
    split; [|split; [|split]].
    + rewrite (proj2 (map_lookup_filter_None _ _ path)); [done|].
      right. intros r' Hr'. rewrite Hp in Hr'. injection Hr' as <-.
      simpl. tauto.
    + exact Hin.
    + exact Hout.
    + intros Hu q Hq.
      destruct (documents db !! q) as [s|] eqn:Hs.
      * rewrite (proj2 (map_lookup_filter_Some _ _ q s)); [done|].
        split; [done|]. simpl. intros Hid. apply Hq. by apply (Hu q path s r).
      * rewrite (proj2 (map_lookup_filter_None _ _ q)); [done|]. by left.
  - exact Hno.
Qed.

(** [InsertChunk] and [GetChunk]: the new chunk has an id that was not in
    use, at least 1, and reads back as written; the count grows by one; no
    other chunk, no document and no embedding is touched. *)
Theorem insert_chunk_then_get (db : DB) (docID : Z) (content : string)
    (startLine endLine : Z) (heading : string) :
  let id := (InsertChunk db docID content startLine endLine heading).1 in
  let db' := (InsertChunk db docID content startLine endLine heading).2 in
  1 <= id
  /\ GetChunk db id = None
  /\ (forall other, is_Some (chunks db !! other) -> other < id)
  /\ GetChunk db' id
     = Some {| Chunk.ID := id; Chunk.DocID := docID; Chunk.Content := content;
               Chunk.StartLine := startLine; Chunk.EndLine := endLine;
               Chunk.Heading := heading |}
  /\ (forall other, other <> id -> GetChunk db' other = GetChunk db other)
  /\ ChunkCount db' = ChunkCount db + 1
  /\ documents db' = documents db
  /\ vec_chunks db' = vec_chunks db
  /\ (noOrphans db -> noOrphans db').
Proof.
  unfold InsertChunk, GetChunk, ChunkCount. cbn [fst snd chunks documents
    vec_chunks].
  destruct (nextRowid_above (chunkIDs db)) as [H1 Hfresh].
  assert (Hbelow : forall other, is_Some (chunks db !! other) ->
                     other < nextRowid (chunkIDs db)).
  { intros other Ho. by apply Hfresh, chunkIDs_elem. }
  assert (Hnone : chunks db !! nextRowid (chunkIDs db) = None).
  { destruct (chunks db !! nextRowid (chunkIDs db)) eqn:E; [|done].
    assert (Hlt : nextRowid (chunkIDs db) < nextRowid (chunkIDs db))
      by (apply Hbelow; eauto).
    lia. }
  split; [exact H1|]. split; [by rewrite Hnone|]. split; [exact Hbelow|].
  split; [by rewrite lookup_insert_eq|].
  split; [intros other Ho; by rewrite lookup_insert_ne|].
  split; [rewrite map_size_insert_None by exact Hnone; lia|].
  split; [reflexivity|]. split; [reflexivity|].
  intros Hno other Hv. cbn [vec_chunks chunks] in *.
  apply Hno in Hv. destruct (decide (other = nextRowid (chunkIDs db))) as [->|Hne].
  - rewrite lookup_insert_eq. eauto.
  - by rewrite lookup_insert_ne.
Qed.

(** [InsertEmbedding] succeeds exactly when the chunk id has no embedding
    yet and the vector has [embedDim] floats of four bytes; it then stores
    the vector under the id and touches nothing else, and a second insert
    for the id fails: a chunk never has two embeddings. *)
Theorem insert_embedding_once (db : DB) (chunkID : Z) (embedding : bytes) :
  ((exists db', InsertEmbedding db chunkID embedding = inr db') <->
   vec_chunks db !! chunkID = None
   /\ Z.of_nat (length embedding) = 4 * embedDim db)
  /\ (forall db',
        InsertEmbedding db chunkID embedding = inr db' ->
        vec_chunks db' = <[chunkID := embedding]> (vec_chunks db)
        /\ chunks db' = chunks db
        /\ documents db' = documents db
        /\ embedDim db' = embedDim db
        /\ (forall again, exists e,
              InsertEmbedding db' chunkID again = inl e)
        /\ (noOrphans db -> is_Some (chunks db !! chunkID) ->
            noOrphans db')).
Proof.
  unfold InsertEmbedding.
  destruct (vec_chunks db !! chunkID) as [b|] eqn:Hv.
  { split; [|discriminate]. split; [intros [? [=]]|intros [[=] _]]. }
  destruct (Z.of_nat (length embedding) =? 4 * embedDim db) eqn:Hw.
  - apply Z.eqb_eq in Hw. split; [split; eauto|].
    intros db' [= <-]. cbn [vec_chunks chunks documents embedDim].
    repeat split.
    + intros again. rewrite lookup_insert_eq. eauto.
    + intros Hno Hc other Ho. cbn [vec_chunks chunks] in *.
      destruct (decide (other = chunkID)) as [->|Hne]; [done|].
      rewrite lookup_insert_ne in Ho by congruence. by apply Hno.
  - apply Z.eqb_neq in Hw. split; [|discriminate].
    split; [intros [? [=]]|intros [_ ?]; contradiction].
Qed.

Section Similar.
Context `{Collaborators}.

Lemma omap_sublist {A B} (f : A -> option B) (g : B -> A) (l : list A) :
  (forall a b, f a = Some b -> g b = a) ->
  sublist (g <$> omap f l) l.
Proof.
  intros Hfg. induction l as [|a l IH]; cbn [omap list_omap]; [constructor|].
  destruct (f a) as [b|] eqn:E.
  - cbn [fmap list_fmap]. rewrite (Hfg a b E). by constructor.
  - by constructor.
Qed.

(** [SearchSimilar] returns the hits of the vector scan in their order,
    without those whose chunk or document is not stored, and only those
    are left out: every candidate carries a stored chunk under its id, the
    distance of its hit, and the path of a stored document with the
    chunk's document id; every hit whose chunk is stored, with a stored
    document of the chunk's document id, has its candidate, with that
    chunk and the distance of the hit; an error of the scan is returned as
    it is. *)
Theorem search_similar_joins (db : DB) (queryEmbedding : bytes) (limit : Z) :
  match vecMatch (vec_chunks db) queryEmbedding limit with
  | inl e => SearchSimilar db queryEmbedding limit = inl e
  | inr hits =>
      exists candidates,
        SearchSimilar db queryEmbedding limit = inr candidates
        /\ sublist ((λ c, (Chunk.ID (Chunk c), Distance c)) <$> candidates)
             hits
        /\ (forall c, c ∈ candidates ->
              GetChunk db (Chunk.ID (Chunk c)) = Some (Chunk c)
              /\ exists d,
                   GetDocument db (Path c) = Some d
                   /\ Document.ID d = Chunk.DocID (Chunk c))
        /\ (forall hit ch path d,
              hit ∈ hits ->
              GetChunk db hit.1 = Some ch ->
              GetDocument db path = Some d ->
              Document.ID d = Chunk.DocID ch ->
              exists c,
                c ∈ candidates /\ Chunk c = ch /\ Distance c = hit.2)
  end.
Proof.
  unfold SearchSimilar.
  destruct (vecMatch (vec_chunks db) queryEmbedding limit) as [e|hits];
    [reflexivity|].
  exists (omap (joinHit db) hits). split; [reflexivity|]. split; [|split].
  - apply omap_sublist. intros [id dist] c. unfold joinHit. cbn [fst snd].
    destruct (chunks db !! id) as [row|]; [|discriminate].
    destruct (pathOfDocument db (chunk_doc_id row)); [|discriminate].
    intros [= <-]. reflexivity.
  - intros c Hc. apply list_elem_of_omap in Hc as ([id dist] & _ & Hj).
    unfold joinHit in Hj. cbn [fst snd] in Hj.
    destruct (chunks db !! id) as [row|] eqn:Hrow; [|discriminate].
    destruct (pathOfDocument db (chunk_doc_id row)) as [path|] eqn:Hpath;
      [|discriminate].
    injection Hj as <-. cbn [Chunk Path Chunk.ID Chunk.DocID toChunk fst snd].
    split; [unfold GetChunk; by rewrite Hrow|].
    unfold pathOfDocument in Hpath.
    destruct (map_to_list (filter _ (documents db))) as [|[p r] rest] eqn:El;
      [discriminate|].
    injection Hpath as <-.
    assert (Hin : (p, r) ∈ map_to_list
              (filter (λ kv, doc_id kv.2 = chunk_doc_id row) (documents db)))
      by (rewrite El; apply list_elem_of_here).
    apply elem_of_map_to_list, map_lookup_filter_Some in Hin as [Hp Hid].
    exists (toDocument (p, r)). unfold GetDocument. rewrite Hp.
    split; [reflexivity|exact Hid].
  - intros [id dist] ch path d Hin Hch Hd Hid. cbn [fst snd] in *.
    unfold GetChunk in Hch.
    destruct (chunks db !! id) as [row|] eqn:Hrow; [|discriminate].
    injection Hch as <-.
    unfold GetDocument in Hd.
    destruct (documents db !! path) as [r|] eqn:Hr; [|discriminate].
    injection Hd as <-. cbn [Document.ID Chunk.DocID toDocument toChunk snd]
      in Hid.
    assert (Hsome : exists q, pathOfDocument db (chunk_doc_id row) = Some q).
    { unfold pathOfDocument.
      destruct (map_to_list
                  (filter (λ kv, doc_id kv.2 = chunk_doc_id row)
                     (documents db))) as [|[q r'] rest] eqn:El;
        [|by exists q].
      assert (Hx : (path, r) ∈ map_to_list
                (filter (λ kv, doc_id kv.2 = chunk_doc_id row)
                   (documents db))).
      { apply elem_of_map_to_list, map_lookup_filter_Some. by split. }
      rewrite El in Hx. by apply elem_of_nil in Hx. }
    destruct Hsome as [q Hq].
    exists {| Chunk := toChunk (id, row); Distance := dist; Path := q |}.
    split; [|by split].
    apply list_elem_of_omap. exists (id, dist). split; [exact Hin|].
    unfold joinHit. cbn [fst snd]. by rewrite Hrow, Hq.
Qed.

End Similar.

End StoreSpec.

(** ** The provider client. *)

Module CohereSpec.
Import Cohere.
Section CohereSpec.
Context `{Collaborators}.

(** What the two query-time calls leave alone. *)
Lemma EmbedQuery_frame (c : Client) (query : string) (w : World) :
  (exists req, calls (EmbedQuery c query w).2
               = (calls w ++ [CallEmbed req])%list)
  /\ db (EmbedQuery c query w).2 = db w
  /\ sameFiles w (EmbedQuery c query w).2.
Proof.
  unfold EmbedQuery, embed, sameFiles.
  destruct (V2Embed (provider w) _) as [resp p].
  destruct resp as [err|[[[|v vs]|]|]]; cbn [fst snd];
    try (destruct (IsNoEmbeddings err)); eauto 10.
Qed.

Lemma Rerank_frame (c : Client) (query d : string) (ds : list string)
    (topN : Z) (w : World) :
  (exists req, calls (Rerank c query (d :: ds) topN w).2
               = (calls w ++ [CallRerank req])%list)
  /\ db (Rerank c query (d :: ds) topN w).2 = db w
  /\ sameFiles w (Rerank c query (d :: ds) topN w).2.
Proof.
  unfold Rerank, sameFiles.
  destruct (V2Rerank (provider w) _) as [[err|results] p]; eauto 10.
Qed.

(** [EmbedQuery] makes one provider call, with the query as the only text
    and the query input type, and touches neither store nor files. It
    returns the first vector of the answer, converted, whatever follows
    it; an answer without the list, or with an empty list, is the error
    "no embedding returned", never an empty success. *)
Theorem embed_query_first_vector (c : Client) (query : string) (w : World) :
  let req := {| Texts := [query]; EmbedModel := embedModel c;
                InputType := SearchQuery; OutputDimension := embedDim c |} in
  let r := EmbedQuery c query w in
  calls r.2 = (calls w ++ [CallEmbed req])%list
  /\ db r.2 = db w
  /\ sameFiles w r.2
  /\ provider r.2 = (V2Embed (provider w) req).2
  /\ r.1 = match (V2Embed (provider w) req).1 with
           | inl err =>
               if IsNoEmbeddings err then Err NoEmbeddingReturned
               else Err (Wrap EmbedQueryFailed err)
           | inr None | inr (Some None) | inr (Some (Some [])) =>
               Err NoEmbeddingReturned
           | inr (Some (Some (v :: _))) => Ok (toFloat32 <$> v)
           end.
Proof.
  unfold EmbedQuery, embed, sameFiles.
  destruct (V2Embed (provider w) _) as [resp p].
  destruct resp as [err|[[[|v vs]|]|]]; cbn [fst snd];
    try (destruct (IsNoEmbeddings err)); done.
Qed.

(** [Rerank] makes no call for an empty list of documents. Otherwise it
    makes one call with the query, the documents and [topN], and returns
    the provider's selections one for one, in their order, with their
    indices and scores as they came. *)
Theorem rerank_passes_through
    (c : Client) (query : string) (documents : list string) (topN : Z)
    (w : World) :
  let req := {| RerankModel := rerankModel c; Query := query;
                Documents := documents; TopN := topN |} in
  let r := Rerank c query documents topN w in
  db r.2 = db w
  /\ sameFiles w r.2
  /\ match documents with
     | [] => r = (Ok [], w)
     | _ :: _ =>
         calls r.2 = (calls w ++ [CallRerank req])%list
         /\ r.1 = match (V2Rerank (provider w) req).1 with
                  | inl err => Err (Wrap RerankRequestFailed err)
                  | inr results =>
                      Ok ((λ x, {| Index := x.1; Score := x.2 |}) <$> results)
                  end
     end.
Proof.
  unfold Rerank, sameFiles. destruct documents as [|d ds]; [done|].
  destruct (V2Rerank (provider w) _) as [[err|results] p]; done.
Qed.

End CohereSpec.
End CohereSpec.

(** ** More on the searcher. *)

Module SearchMore.
Import Search SearchUtil EnvSpec.
Section SearchMore.
Context `{Collaborators}.

(** [Search] never writes: the store and the files are as before. It makes
    the embed call, and after it at most the rerank call, and no other
    outside call. An error it returns comes from one of its four failure
    points. *)
Theorem search_is_read_only (c : Cohere.Client) (query : string) (w : World) :
  let r := Search c query w in
  db r.2 = db w
  /\ sameFiles w r.2
  /\ (exists e, calls r.2 = (calls w ++ [CallEmbed e])%list
                \/ exists rr,
                     calls r.2 = (calls w ++ [CallEmbed e; CallRerank rr])%list)
  /\ (forall e, r.1 = Err e -> searchFailure e).
Proof.
  cbn zeta.
  pose proof (CohereSpec.EmbedQuery_frame c query w)
    as ([req1 Hc1] & Hd1 & Hf1).
  assert (Hfail : forall ctx inner,
            ctx = FailedToEmbedQuery \/ ctx = FailedToSerializeQueryEmbedding
            \/ ctx = VectorSearchFailed \/ ctx = RerankFailed ->
            forall e, Err (A := list Result) (Wrap ctx inner) = Err e ->
                      searchFailure e).
  { intros ctx inner Hctx e [= <-]. by exists ctx, inner. }
  destruct (Search c query w) as [o w'] eqn:ES. cbn [fst snd].
  unfold Search in ES. unfold bind at 1 in ES. unfold wrap at 1 in ES.
  destruct (Cohere.EmbedQuery c query w) as [[queryEmb|e1|] w1];
    cbn [fst snd] in *.
  2:{ injection ES as <- <-. split; [exact Hd1|]. split; [exact Hf1|].
      split; [eauto|]. apply Hfail. auto. }
  2:{ injection ES as <- <-. split; [exact Hd1|]. split; [exact Hf1|].
      split; [eauto|discriminate]. }
  unfold bind at 1 in ES. unfold wrap at 1 in ES.
  destruct (SerializeFloat32 queryEmb) as [e2|embBytes]; cbn [fail ret] in ES.
  { injection ES as <- <-. split; [exact Hd1|]. split; [exact Hf1|].
    split; [eauto|]. apply Hfail. auto. }
  unfold bind at 1 in ES. unfold wrap at 1, SearchSimilar in ES.
  destruct (Store.SearchSimilar (db w1) embBytes vectorSearchLimit)
    as [e3|candidates].
  { injection ES as <- <-. split; [exact Hd1|]. split; [exact Hf1|].
    split; [eauto|]. apply Hfail. auto. }
  destruct candidates as [|cand cands].
  { injection ES as <- <-. split; [exact Hd1|]. split; [exact Hf1|].
    split; [eauto|discriminate]. }
  remember (contents (cand :: cands)) as docs eqn:Hdocs.
  destruct docs as [|d ds]; [discriminate Hdocs|].
  pose proof (CohereSpec.Rerank_frame c query d ds rerankTopN w1)
    as ([req2 Hc2] & Hd2 & Hf2).
  unfold bind, wrap in ES.
  destruct (Cohere.Rerank c query (d :: ds) rerankTopN w1)
    as [[rrs|e4|] w2]; cbn [fst snd lift] in *; injection ES as <- <-.
  all: split; [congruence|]; split;
    [destruct Hf1 as (? & ? & ?), Hf2 as (? & ? & ?);
     unfold sameFiles; repeat split; congruence|];
    split; [eexists; right; eexists;
            rewrite Hc2, Hc1, <- app_assoc; reflexivity|].
  - intros e He. exfalso. eapply SearchSpec.mapResults_not_Err, He.
  - apply Hfail. auto.
  - discriminate.
Qed.

(** When the vector search finds no candidate, [Search] returns an empty
    list of results and no error, and the rerank provider is not called:
    the embed call is the only outside call. *)
Theorem search_without_candidates
    (c : Cohere.Client) (query : string) (w w1 : World) queryEmb embBytes :
  Cohere.EmbedQuery c query w = (Ok queryEmb, w1) ->
  SerializeFloat32 queryEmb = inr embBytes ->
  Store.SearchSimilar (db w1) embBytes vectorSearchLimit = inr [] ->
  Search c query w = (Ok [], w1)
  /\ exists e, calls w1 = (calls w ++ [CallEmbed e])%list.
Proof.
  intros He Hs Hv. split.
  - unfold Search.
    rewrite (bind_step _ _ _ _ _ (wrap_Ok _ _ _ _ _ He)). rewrite Hs.
    rewrite (bind_step _ _ w1 embBytes w1) by reflexivity.
    rewrite (bind_step _ _ w1 [] w1); [reflexivity|].
    apply wrap_Ok. unfold SearchSimilar. by rewrite Hv.
  - pose proof (CohereSpec.EmbedQuery_frame c query w) as ([req Hc] & _).
    rewrite He in Hc. eauto.
Qed.

End SearchMore.

(** A query against an empty store. *)
Lemma search_without_candidates_witness :
  (Search (H := Demo.scripted) Demo.client "q"
     (Demo.embedWorld [inr (Some (Some [[0%Q; 0%Q]]))])).1 = Ok [].
Proof.
  pose (w := Demo.embedWorld [inr (Some (Some [[0%Q; 0%Q]]))]).
  pose (w1 := (Cohere.EmbedQuery (H := Demo.scripted) Demo.client "q" w).2).
  destruct (search_without_candidates (H := Demo.scripted) Demo.client "q"
              w w1 [0%Q; 0%Q] (replicate 8 Byte.x00)) as [HS _].
  - vm_compute; reflexivity.
  - vm_compute; reflexivity.
  - vm_compute; reflexivity.
  - fold w. rewrite HS. reflexivity.
Defined.

Lemma length_substring (n : nat) (s : string) :
  (n <= String.length s)%nat ->
  String.length (String.substring 0 n s) = n.
Proof.
  revert s. induction n as [|n IH]; intros s Hn.
  - by destruct s.
  - destruct s as [|a s]; [simpl in Hn; lia|].
    simpl. f_equal. apply IH. simpl in Hn. lia.
Qed.

Lemma length_append (a b : string) :
  String.length (a ++ b) = (String.length a + String.length b)%nat.
Proof. induction a as [|x a IH]; simpl; [reflexivity|by rewrite IH]. Qed.

(** [truncateContent] returns a content of at most [maxLen] bytes as it is.
    A longer content is cut to its first [maxLen - 3] bytes followed by
    three dots, [maxLen] bytes in all, when [maxLen] is at least 3; for a
    smaller [maxLen] the slice bound is negative and the call panics. *)
Theorem truncateContent_bounds (content : string) (maxLen : Z) :
  (Str.len content <= maxLen -> truncateContent content maxLen = Ok content)
  /\ (maxLen < Str.len content -> 3 <= maxLen ->
      exists s,
        truncateContent content maxLen = Ok s
        /\ Str.len s = maxLen
        /\ s = String.substring 0 (Z.to_nat (maxLen - 3)) content ++ "...")
  /\ (maxLen < Str.len content -> maxLen < 3 ->
      truncateContent content maxLen = Panic).
Proof.
  unfold truncateContent, Str.len. split; [|split].
  - intros Hle. by rewrite (proj2 (Z.leb_le _ _) Hle).
  - intros Hlt H3. rewrite (proj2 (Z.leb_gt _ _) Hlt).
    rewrite (proj2 (Z.ltb_ge _ _)) by lia.
    eexists. split; [reflexivity|]. split; [|reflexivity].
    rewrite length_append, length_substring by lia. simpl. lia.
  - intros Hlt H3. rewrite (proj2 (Z.leb_gt _ _) Hlt).
    by rewrite (proj2 (Z.ltb_lt _ _)) by lia.
Qed.

End SearchMore.

(** ** More on the chunker. *)

Module ChunkerMore.
Import Chunker ChunkerInv.

Lemma length_list_ascii_of_string (s : string) :
  length (list_ascii_of_string s) = String.length s.
Proof. induction s; simpl; congruence. Qed.

Lemma trimWith_length width fuel (l : list ascii) :
  (length (Str.trimWith width fuel l) <= length l)%nat.
Proof.
  revert l. induction fuel as [|fuel IH]; intros l; simpl; [lia|].
  destruct (width l) as [|n]; [lia|].
  etransitivity; [apply IH|]. rewrite length_drop. lia.
Qed.

(** Trimming never lengthens. *)
Lemma TrimSpace_len (s : string) : Str.len (Str.TrimSpace s) <= Str.len s.
Proof.
  unfold Str.len, Str.TrimSpace. cbv zeta.
  pose proof (length_list_ascii_of_string s) as Hl.
  set (l := list_ascii_of_string s) in *.
  pose proof (trimWith_length Str.leadingSpace (length l) l) as H2.
  set (l1 := Str.trimWith Str.leadingSpace (length l) l) in *.
  pose proof (trimWith_length Str.trailingSpace (length (rev l1)) (rev l1))
    as H1.
  set (r1 := Str.trimWith Str.trailingSpace (length (rev l1)) (rev l1)) in *.
  rewrite ChunkerSpec.length_string_of_list_ascii, length_rev.
  rewrite length_rev in H1. lia.
Qed.

Lemma len_append (a b : string) : Str.len (a ++ b) = Str.len a + Str.len b.
Proof. unfold Str.len. rewrite SearchMore.length_append. lia. Qed.

Lemma len_nonneg (s : string) : 0 <= Str.len s.
Proof. unfold Str.len. lia. Qed.

Lemma len_empty (s : string) : Str.len s = 0 -> s = "".
Proof. unfold Str.len. destruct s; [done|simpl; lia]. Qed.

(** [Split] loses no byte: the lines and their separators make up the
    content. *)
Lemma written_Split (s : string) : written (Str.Split s) = Str.len s + 1.
Proof.
  unfold written, Str.len. induction s as [|c s IH]; [reflexivity|].
  cbn [Str.Split]. destruct (Ascii.eqb c "010").
  - cbn [foldr]. rewrite IH. simpl String.length. lia.
  - destruct (Str.Split s) as [|l ls]; cbn [foldr] in *;
      simpl String.length in *; lia.
Qed.

Lemma longest_bound (lines : list string) :
  0 <= longest lines
  /\ forall l, l ∈ lines -> Str.len l <= longest lines.
Proof.
  unfold longest. induction lines as [|x xs [IH0 IH]]; cbn [foldr].
  - split; [lia|]. intros l Hl. by apply elem_of_nil in Hl.
  - split; [lia|]. intros l Hl. apply elem_of_cons in Hl as [->|Hl]; [lia|].
    specialize (IH l Hl). lia.
Qed.

Lemma append_assoc (a b c : string) : (a ++ b) ++ c = a ++ b ++ c.
Proof.
  induction a as [|x a IH]; [reflexivity|exact (f_equal (String x) IH)].
Qed.

Lemma list_ascii_of_string_append (a b : string) :
  list_ascii_of_string (a ++ b)
  = (list_ascii_of_string a ++ list_ascii_of_string b)%list.
Proof.
  induction a as [|x a IH]; [reflexivity|exact (f_equal (cons x) IH)].
Qed.

Lemma trimWith_drop width fuel (l : list ascii) :
  exists k, Str.trimWith width fuel l = drop k l.
Proof.
  revert l. induction fuel as [|fuel IH]; intros l; simpl.
  - by exists 0%nat.
  - destruct (width l) as [|n]; [by exists 0%nat|].
    destruct (IH (drop (S n) l)) as [k ->]. rewrite drop_drop. by eexists.
Qed.

(** The newline that ends a buffer is trimmed away. *)
Lemma TrimSpace_newline (b : string) :
  Str.len (Str.TrimSpace (b ++ String "010" "")) <= Str.len b.
Proof.
  unfold Str.len, Str.TrimSpace. cbv zeta.
  rewrite list_ascii_of_string_append.
  rewrite <- (length_list_ascii_of_string b).
  set (x := list_ascii_of_string b).
  change (list_ascii_of_string (String "010" "")) with ["010"%char].
  destruct (trimWith_drop Str.leadingSpace (length (x ++ ["010"%char])%list)
              (x ++ ["010"%char])%list) as [k ->].
  rewrite ChunkerSpec.length_string_of_list_ascii, length_rev.
  destruct (decide (k <= length x)%nat) as [Hk|Hk].
  - rewrite drop_app_le by exact Hk.
    rewrite rev_app_distr. cbn [rev app length].
    change (Str.trimWith Str.trailingSpace (S (length (rev (drop k x))))
              ("010"%char :: rev (drop k x)))
      with (Str.trimWith Str.trailingSpace (length (rev (drop k x)))
              (rev (drop k x))).
    pose proof (trimWith_length Str.trailingSpace (length (rev (drop k x)))
                  (rev (drop k x))) as H1.
    set (t := Str.trimWith _ _ _) in *.
    rewrite length_rev, length_drop in H1. lia.
  - rewrite drop_ge by (rewrite length_app; simpl; lia).
    simpl. lia.
Qed.

Lemma goodChunk_mono M T n W n' W' c :
  n <= n' -> W <= W' -> goodChunk M T n W c -> goodChunk M T n' W' c.
Proof. unfold goodChunk. intros ? ? (?&?&?&?&?&?&?). repeat split; lia. Qed.

(** A flush between two lines, or after the last. *)
Lemma sized_flush_between M T n W st :
  sized M T n W st ->
  (forall c, c ∈ chunks (flushChunk st) -> goodChunk M T n W c)
  /\ currentLine (flushChunk st) = n + 1
  /\ startLine (flushChunk st) = n + 1.
Proof.
  unfold maxChunkTokens, avgCharsPerToken.
  intros (Hcl & Hsl & Hne & Hb & HW & HT & HM & Hnl & Hch).
  split; [|cbn [currentLine startLine flushChunk]; lia].
  intros c. rewrite ChunkerSpec.flushChunk_chunks.
  destruct (kept _) eqn:Hk; [|apply Hch].
  intros Hin. apply elem_of_app in Hin as [Hin|Hin]; [by apply Hch|].
  apply list_elem_of_singleton in Hin as ->.
  unfold kept in Hk. apply andb_prop in Hk as [_ Hk]. apply Z.ltb_lt in Hk.
  assert (Hne' : currentChunk st <> "").
  { intros E. rewrite E in Hk. vm_compute in Hk. discriminate. }
  specialize (Hne Hne').
  destruct Hnl as [E|[b E]]; [done|].
  pose proof (TrimSpace_newline b) as Ht. rewrite <- E in Ht.
  assert (Hlb : Str.len (currentChunk st) = Str.len b + 1).
  { rewrite E, len_append. reflexivity. }
  unfold goodChunk, maxChunkTokens, avgCharsPerToken in *.
  cbn [Content StartLine EndLine]. repeat split; lia.
Qed.

Lemma sized_step M T n W st line :
  Str.len line <= M ->
  W + Str.len line + 1 <= T ->
  sized M T n W st ->
  sized M T (n + 1) (W + Str.len line + 1) (step st line).
Proof.
  unfold maxChunkTokens, avgCharsPerToken.
  intros HlM HWT Hst.
  pose proof (len_nonneg line) as Hl0.
  assert (Hnl : Str.len (String "010" "") = 1) by reflexivity.
  (* the state before the line is written *)
  assert (H1 : exists st1,
    match headingRegex line with
    | Some (hashes, headingText) => onHeading hashes headingText st
    | None => st
    end = st1
    /\ currentLine st1 = n + 1
    /\ 1 <= startLine st1 <= n + 1
    /\ Str.len (currentChunk st1) <= 2000
    /\ Str.len (currentChunk st1) <= W
    /\ forall c, c ∈ chunks st1 -> goodChunk M T n W c).
  { eexists. split; [reflexivity|].
    destruct (headingRegex line) as [[hashes text]|].
    - destruct (sized_flush_between _ _ _ _ _ Hst) as (Hch & Hcl & Hsl).
      destruct Hst as (_ & Hsl0 & _ & _ & _ & HT & _).
      cbn [onHeading currentLine startLine currentChunk chunks flushChunk]
        in *.
      unfold Str.len at 1 2. simpl String.length.
      split_and!; try lia. exact Hch.
    - destruct Hst as (Hcl & Hsl & _ & Hb & HW & _ & _ & _ & Hch).
      unfold maxChunkTokens, avgCharsPerToken in Hb.
      split_and!; try lia. exact Hch. }
  destruct H1 as (st1 & E1 & Hcl & Hsl & Hb & HW & Hch).
  destruct Hst as (_ & _ & _ & _ & _ & HT & HM & _).
  unfold step. rewrite E1.
  assert (Hbuf : currentChunk (writeLine line st1)
                 = (currentChunk st1 ++ line) ++ String "010" "").
  { cbn [currentChunk writeLine]. by rewrite append_assoc. }
  assert (Hlen : Str.len (currentChunk (writeLine line st1))
                 = Str.len (currentChunk st1) + Str.len line + 1).
  { rewrite Hbuf, !len_append, Hnl. lia. }
  pose proof (len_nonneg (currentChunk st1)) as Hb0.
  unfold maxChunkTokens, avgCharsPerToken.
  destruct (500 * 4 <? Str.len (currentChunk (writeLine line st1))) eqn:Eo.
  - apply Z.ltb_lt in Eo.
    unfold sized, maxChunkTokens, avgCharsPerToken.
    cbn [nextLine currentLine startLine currentChunk chunks flushChunk].
    cbn [currentLine startLine chunks writeLine].
    unfold Str.len at 1 2. simpl String.length.
    split_and!; try lia; try done; [by left|].
    intros c.
    destruct (kept (Str.TrimSpace (currentChunk (writeLine line st1))))
      eqn:Hk.
    + intros Hin. apply elem_of_app in Hin as [Hin|Hin].
      * eapply goodChunk_mono; [| |by apply Hch]; lia.
      * apply list_elem_of_singleton in Hin as ->.
        unfold kept in Hk. apply andb_prop in Hk as [_ Hk].
        apply Z.ltb_lt in Hk.
        pose proof (TrimSpace_newline (currentChunk st1 ++ line)) as Ht.
        rewrite <- Hbuf, len_append in Ht.
        unfold goodChunk, maxChunkTokens, avgCharsPerToken.
        cbn [Content StartLine EndLine]. repeat split; lia.
    + intros Hin. eapply goodChunk_mono; [| |by apply Hch]; lia.
  - apply Z.ltb_ge in Eo.
    unfold sized, maxChunkTokens, avgCharsPerToken.
    cbn [nextLine currentLine startLine currentChunk chunks].
    cbn [currentLine startLine chunks writeLine].
    split_and!; try lia.
    + right. by eexists.
    + intros c Hin. eapply goodChunk_mono; [| |by apply Hch]; lia.
Qed.

Lemma written_nonneg (lines : list string) : 0 <= written lines.
Proof.
  unfold written. induction lines as [|x xs IH]; cbn [foldr]; [lia|].
  pose proof (len_nonneg x). lia.
Qed.

Lemma sized_run M T (lines : list string) :
  forall n W st,
    (forall l, l ∈ lines -> Str.len l <= M) ->
    W + written lines <= T ->
    sized M T n W st ->
    sized M T (n + Z.of_nat (length lines)) (W + written lines)
      (fold_left step lines st).
Proof.
  induction lines as [|l ls IH]; intros n W st HM HT Hst.
  - simpl. unfold written. simpl. by rewrite !Z.add_0_r.
  - cbn [fold_left]. unfold written in *. cbn [foldr] in *.
    fold (written ls) in *.
    pose proof (written_nonneg ls) as H0.
    pose proof (len_nonneg l).
    replace (n + Z.of_nat (length (l :: ls)))
      with (n + 1 + Z.of_nat (length ls)) by (simpl length; lia).
    replace (W + (Str.len l + 1 + written ls))
      with (W + Str.len l + 1 + written ls) by lia.
    apply IH.
    + intros x Hx. by apply HM, list_elem_of_further.
    + lia.
    + apply sized_step; [apply HM, list_elem_of_here|lia|exact Hst].
Qed.

(** Every chunk of a document, against the document's size, line count
    and longest line. *)
Lemma chunkMarkdown_good (content : string) (c : Chunk) :
  c ∈ chunkMarkdown content ->
  goodChunk (longest (Str.Split content)) (Str.len content + 1)
    (Z.of_nat (length (Str.Split content))) (Str.len content + 1) c.
Proof.
  unfold chunkMarkdown, run.
  pose proof (longest_bound (Str.Split content)) as [HM0 HM].
  pose proof (written_Split content) as HW.
  pose proof (len_nonneg content) as Hc0.
  assert (Hi : sized (longest (Str.Split content)) (Str.len content + 1)
                 0 0 init).
  { unfold sized, maxChunkTokens, avgCharsPerToken.
    cbn [init currentLine startLine currentChunk chunks].
    split_and!; try lia; try done; [by left|].
    intros c' Hc'. by apply elem_of_nil in Hc'. }
  assert (HT : 0 + written (Str.Split content) <= Str.len content + 1)
    by lia.
  pose proof (sized_run _ _ (Str.Split content) 0 0 init HM HT Hi) as Hr.
  rewrite HW in Hr. rewrite !Z.add_0_l in Hr.
  destruct (sized_flush_between _ _ _ _ _ Hr) as (Hch & _).
  apply Hch.
Qed.

(** Chunk sizes. Every chunk is longer than 20 bytes, no longer than the
    document, and exceeds the budget of 2000 bytes by no more than the
    document's longest line. *)
Theorem chunk_size_bounds (content : string) :
  Forall (λ c, 20 < Str.len (Content c)
               /\ Str.len (Content c) <= Str.len content
               /\ Str.len (Content c)
                  <= maxChunkTokens * avgCharsPerToken
                     + longest (Str.Split content))
    (chunkMarkdown content).
Proof.
  apply Forall_forall. intros c Hc.
  destruct (chunkMarkdown_good _ _ Hc) as (H1 & H2 & H3 & _).
  split_and!; [exact H1|lia|exact H2].
Qed.

(** Line ranges. Every chunk starts on line 1 or later, ends no later than
    the document's last line, and its end line is at most one line before
    its start line. *)
Theorem chunk_line_bounds (content : string) :
  Forall (λ c, 1 <= StartLine c
               /\ StartLine c <= EndLine c + 1
               /\ EndLine c <= Z.of_nat (length (Str.Split content)))
    (chunkMarkdown content).
Proof.
  apply Forall_forall. intros c Hc.
  destruct (chunkMarkdown_good _ _ Hc) as (_ & _ & _ & H4 & H5 & H6 & _).
  split_and!; assumption.
Qed.

(** Within the budget the ranges are proper: when the document is shorter
    than 2000 bytes, the size flush never runs and every chunk ends on or
    after its start line. *)
Theorem chunk_range_within_budget (content : string) :
  Str.len content < maxChunkTokens * avgCharsPerToken ->
  Forall (λ c, StartLine c <= EndLine c) (chunkMarkdown content).
Proof.
  intros Hlen. apply Forall_forall. intros c Hc.
  destruct (chunkMarkdown_good _ _ Hc) as (_ & _ & _ & _ & _ & _ & H7).
  apply H7. lia.
Qed.

Lemma chunk_range_within_budget_witness :
  Forall (λ c, StartLine c <= EndLine c) (chunkMarkdown Fixtures.A_B_C_D).
Proof.
  apply (chunk_range_within_budget Fixtures.A_B_C_D). vm_compute. reflexivity.
Defined.

(** A document of at most 20 bytes yields no chunk. *)
Theorem short_content_no_chunks (content : string) :
  Str.len content <= 20 -> chunkMarkdown content = [].
Proof.
  intros Hlen. destruct (chunkMarkdown content) as [|c l] eqn:E;
    [reflexivity|].
  assert (Hc : c ∈ chunkMarkdown content)
    by (rewrite E; apply list_elem_of_here).
  destruct (chunkMarkdown_good _ _ Hc) as (H1 & _ & H3 & _). lia.
Qed.

Lemma short_content_no_chunks_witness :
  chunkMarkdown "# Title, 20 bytes ok" = [].
Proof. apply short_content_no_chunks. vm_compute. discriminate. Defined.

(** *** Breadcrumbs. *)

Lemma headingTexts_elem (lines : list string) (line hashes text : string) :
  line ∈ lines -> headingRegex line = Some (hashes, text) ->
  text ∈ headingTexts lines.
Proof.
  intros Hin Hm. unfold headingTexts. apply list_elem_of_omap.
  exists line. split; [exact Hin|]. by rewrite Hm.
Qed.

Lemma headed_flushChunk texts st :
  headed texts st -> headed texts (flushChunk st).
Proof.
  intros (Hlen & Hin & Hcur & Hch).
  unfold headed. rewrite ChunkerSpec.flushChunk_chunks.
  cbn [headingStack currentHeading flushChunk].
  split_and!; try assumption.
  intros c. destruct (kept _); [|apply Hch].
  intros Hc. apply elem_of_app in Hc as [Hc|Hc]; [by apply Hch|].
  apply list_elem_of_singleton in Hc as ->. cbn [Heading].
  destruct (headingStack st) as [|t ts] eqn:E.
  - left. by rewrite Hcur.
  - right. exists (t :: ts). split_and!; [simpl; lia|exact Hlen|exact Hcur|].
    exact Hin.
Qed.

Lemma headed_step texts st line :
  (forall hashes text, headingRegex line = Some (hashes, text) ->
     text ∈ texts) ->
  headed texts st -> headed texts (step st line).
Proof.
  intros Htext Hst. unfold step.
  set (st1 := match headingRegex line with
              | Some (hashes, headingText) => onHeading hashes headingText st
              | None => st
              end).
  assert (H1 : headed texts st1).
  { subst st1. destruct (headingRegex line) as [[hashes text]|] eqn:Hm;
      [|assumption].
    pose proof (ChunkerSpec.headingRegex_level _ _ _ Hm) as HL.
    destruct (headed_flushChunk _ _ Hst) as (Hlen & Hin & _ & Hch).
    unfold headed, onHeading.
    cbn [headingStack currentHeading chunks] in *.
    cbn [headingStack flushChunk] in *.
    rewrite ChunkerSpec.popWhile_take by lia.
    split_and!; [| |reflexivity|exact Hch].
    - rewrite length_app, length_take. simpl. lia.
    - intros t Ht. apply elem_of_app in Ht as [Ht|Ht].
      + apply Hin. eapply (subseteq_take _ (headingStack st)), Ht.
      + apply list_elem_of_singleton in Ht as ->. by eapply Htext. }
  assert (H2 : headed texts (writeLine line st1)) by exact H1.
  destruct (maxChunkTokens * avgCharsPerToken <? _).
  - exact (headed_flushChunk _ _ H2).
  - exact H2.
Qed.

Lemma headed_run texts (lines : list string) st :
  (forall line hashes text, line ∈ lines ->
     headingRegex line = Some (hashes, text) -> text ∈ texts) ->
  headed texts st -> headed texts (fold_left step lines st).
Proof.
  revert st. induction lines as [|l ls IH]; intros st Htexts Hst;
    [exact Hst|].
  cbn [fold_left]. apply IH.
  - intros line hashes text Hin. apply Htexts. by apply list_elem_of_further.
  - apply headed_step; [|exact Hst].
    intros hashes text. apply Htexts, list_elem_of_here.
Qed.

Lemma chunkMarkdown_headed (content : string) (c : Chunk) :
  c ∈ chunkMarkdown content ->
  breadcrumb (headingTexts (Str.Split content)) (Heading c).
Proof.
  assert (Hi : headed (headingTexts (Str.Split content)) init).
  { unfold headed. cbn [init headingStack currentHeading chunks length].
    split_and!; [lia| |reflexivity|];
      intros x Hx; by apply elem_of_nil in Hx. }
  pose proof (headed_run _ (Str.Split content) init
                (headingTexts_elem (Str.Split content)) Hi) as Hr.
  destruct (headed_flushChunk _ _ Hr) as (_ & _ & _ & Hch).
  apply Hch.
Qed.

(** The heading of every chunk is a breadcrumb of the document: empty, or
    one to six texts of heading lines of the document joined by " > ". *)
Theorem chunk_heading_is_breadcrumb (content : string) :
  Forall (λ c, Heading c = ""
               \/ exists stack,
                    (1 <= length stack <= 6)%nat
                    /\ Heading c = Str.Join stack " > "
                    /\ forall t, t ∈ stack ->
                         exists line hashes,
                           line ∈ Str.Split content
                           /\ headingRegex line = Some (hashes, t))
    (chunkMarkdown content).
Proof.
  apply Forall_forall. intros c Hc.
  destruct (chunkMarkdown_headed _ _ Hc) as [He|(stack & Hl & Hj & Hin)];
    [by left|].
  right. exists stack. split_and!; [lia|lia|exact Hj|].
  intros t Ht. apply Hin in Ht. unfold headingTexts in Ht.
  apply list_elem_of_omap in Ht as (line & Hline & Hm).
  destruct (headingRegex line) as [[hashes text]|] eqn:E; [|discriminate].
  injection Hm as <-. by exists line, hashes.
Qed.

(** A document without a heading line gives chunks without a heading. *)
Theorem no_heading_line_no_breadcrumb (content : string) :
  (forall line, line ∈ Str.Split content -> headingRegex line = None) ->
  Forall (λ c, Heading c = "") (chunkMarkdown content).
Proof.
  intros Hnone. apply Forall_forall. intros c Hc.
  destruct (chunkMarkdown_headed _ _ Hc) as [He|(stack & Hl & _ & Hin)];
    [exact He|].
  destruct stack as [|t ts]; [simpl in Hl; lia|].
  specialize (Hin t (list_elem_of_here _ _)). unfold headingTexts in Hin.
  apply list_elem_of_omap in Hin as (line & Hline & Hm).
  by rewrite (Hnone line Hline) in Hm.
Qed.

Lemma no_heading_line_no_breadcrumb_witness :
  Forall (λ c, Heading c = "")
    (chunkMarkdown
       (Fixtures.lines ["A first line that is kept as a chunk.";
                        "#hashtag, not a heading"])).
Proof.
  apply no_heading_line_no_breadcrumb. intros line Hline.
  vm_compute in Hline.
  apply elem_of_cons in Hline as [->|Hline]; [reflexivity|].
  apply list_elem_of_singleton in Hline as ->. reflexivity.
Defined.

(** *** Order of the ranges. *)

Lemma ascending_lookup (l : list Chunk) :
  ascending l ->
  forall i j a b, l !! i = Some a -> l !! j = Some b -> (i < j)%nat ->
    EndLine a < StartLine b.
Proof.
  induction 1 as [|l c Hasc IH Hlast]; intros i j a b Ha Hb Hij.
  - by rewrite lookup_nil in Ha.
  - destruct (decide (j < length l)%nat) as [Hj|Hj].
    + rewrite lookup_app_l in Ha, Hb by lia. by eapply IH.
    + assert (Hjl : j = length l).
      { apply lookup_lt_Some in Hb. rewrite length_app in Hb. simpl in Hb.
        lia. }
      subst j. rewrite lookup_app_l in Ha by lia.
      rewrite list_lookup_middle in Hb by reflexivity. injection Hb as <-.
      apply Hlast. by eapply list_elem_of_lookup_2.
Qed.

(** The chunks come in the order of the document and do not overlap: a
    chunk starts after the end line of every chunk before it. *)
Theorem chunk_ranges_ascend (content : string) (i j : nat) (a b : Chunk) :
  chunkMarkdown content !! i = Some a ->
  chunkMarkdown content !! j = Some b ->
  (i < j)%nat ->
  EndLine a < StartLine b.
Proof.
  apply ascending_lookup, ChunkerSpec.chunkMarkdown_ascending.
Qed.

Lemma chunk_ranges_ascend_witness :
  EndLine {| Content := "### C" ++ Fixtures.nl
                        ++ "The body of section C, long enough to be kept.";
             StartLine := 3; EndLine := 4; Heading := "A > B > C" |}
  < StartLine {| Content := "## D" ++ Fixtures.nl
                   ++ "The body of section D, long enough to be kept.";
                 StartLine := 5; EndLine := 6; Heading := "A > D" |}.
Proof.
  apply (chunk_ranges_ascend Fixtures.A_B_C_D 0 1);
    [vm_compute; reflexivity|vm_compute; reflexivity|lia].
Defined.

End ChunkerMore.

(** ** More on the watcher. *)

Module WatcherMore.
Import Watcher WatcherInv EnvSpec Store Db.
Section WatcherMore.
Context `{Collaborators}.

Lemma messages_app (l1 l2 : list Call) :
  messages (l1 ++ l2) = (messages l1 ++ messages l2)%list.
Proof. apply omap_app. Qed.

(** Indexing a file reports nothing by itself. *)
Lemma indexFile_messages c relPath w o w' :
  Indexer.indexFile c relPath w = (o, w') ->
  messages (calls w') = messages (calls w).
Proof.
  apply (IndexerSpec.keeps_indexFile
           (λ a b, messages (calls b) = messages (calls a))); try done.
  - intros a b c' -> ->. done.
  - intros a q. cbn [calls record]. rewrite messages_app. simpl.
    by rewrite app_nil_r.
  - intros a req. cbn [calls record]. rewrite messages_app. simpl.
    by rewrite app_nil_r.
Qed.

Lemma reindexAll_reports c toIndex w :
  let r := reindexAll c toIndex w in
  (r.1 = Ok tt \/ r.1 = Panic)
  /\ (Indexer.answersEveryText -> r.1 = Ok tt)
  /\ (r.1 = Ok tt ->
      exists reports,
        Forall2 reportFor toIndex reports
        /\ messages (calls r.2)
           = (messages (calls w) ++ concat reports)%list).
Proof.
  revert w. induction toIndex as [|q rest IH]; intros w.
  - cbn. split_and!; [by left|done|]. intros _. exists [].
    split; [constructor|]. by rewrite app_nil_r.
  - cbn [reindexAll]. cbv zeta.
    pose proof (IndexerSpec.indexFile_no_panic c q (message (Indexing q) w))
      as Hnp.
    destruct (Indexer.indexFile c q (message (Indexing q) w))
      as [o1 w1] eqn:E1.
    pose proof (indexFile_messages _ _ _ _ _ E1) as Hm1.
    cbn [calls message record] in Hm1. rewrite messages_app in Hm1.
    cbn [messages omap list_omap app] in Hm1.
    destruct o1 as [[]|e|].
    + destruct (IH (message (Indexed q) w1)) as (Hor & Hgood & Hrep).
      split_and!; [exact Hor|exact Hgood|].
      intros Hok. destruct (Hrep Hok) as (reports & HF & Hm).
      exists ([Indexing q; Indexed q] :: reports).
      split; [constructor; [by left|exact HF]|].
      rewrite Hm. cbn [calls message record]. rewrite messages_app, Hm1.
      cbn [messages omap list_omap concat app].
      by rewrite <- !app_assoc.
    + destruct (IH (message (ErrorIndexing q e) w1)) as (Hor & Hgood & Hrep).
      split_and!; [exact Hor|exact Hgood|].
      intros Hok. destruct (Hrep Hok) as (reports & HF & Hm).
      exists ([Indexing q; ErrorIndexing q e] :: reports).
      split; [constructor; [right; by exists e|exact HF]|].
      rewrite Hm. cbn [calls message record]. rewrite messages_app, Hm1.
      cbn [messages omap list_omap concat app].
      by rewrite <- !app_assoc.
    + cbn [fst snd]. split_and!; [by right| |discriminate].
      intros Hgood. specialize (Hnp Hgood). discriminate.
Qed.

(** A sweep never returns an error: it ends normally or in a panic, and
    with a provider that answers every text it ends normally. When it ends
    normally it has reported every expired path, each once and in the
    order of the sweep, as being indexed and then as indexed or as failed
    with its error; a failure of one path does not keep the later ones
    from being indexed. *)
Theorem sweep_reports_every_path (c : Cohere.Client) (wt : Watcher)
    (w : World) :
  let sweep := indexPendingFiles c wt w in
  let toIndex := expired (now w) (pending wt) in
  NoDup toIndex
  /\ (sweep.2.1 = Ok tt \/ sweep.2.1 = Panic)
  /\ (Indexer.answersEveryText -> sweep.2.1 = Ok tt)
  /\ (sweep.2.1 = Ok tt ->
      exists reports,
        Forall2 reportFor toIndex reports
        /\ messages (calls sweep.2.2)
           = (messages (calls w) ++ concat reports)%list).
Proof.
  cbv zeta. split; [apply WatcherSpec.expired_NoDup|].
  unfold indexPendingFiles. cbn [fst snd].
  apply reindexAll_reports.
Qed.

(** A sweep while no pending change is two seconds old does nothing: the
    pending set, the store and the list of calls are as before. *)
Theorem idle_sweep_is_noop (c : Cohere.Client) (wt : Watcher) (w : World) :
  (forall path t, pending wt !! path = Some t -> now w - t < debounceDelay) ->
  indexPendingFiles c wt w = (wt, (Ok tt, w)).
Proof.
  intros Hyoung. unfold indexPendingFiles.
  assert (He : expired (now w) (pending wt) = []).
  { destruct (expired (now w) (pending wt)) as [|x l] eqn:E; [reflexivity|].
    assert (Hx : x ∈ expired (now w) (pending wt))
      by (rewrite E; apply list_elem_of_here).
    apply WatcherSpec.elem_of_expired in Hx as (t & Ht & Hd).
    specialize (Hyoung x t Ht). lia. }
  rewrite He. cbn [removeAll fold_left reindexAll]. by destruct wt.
Qed.

Lemma DeleteDocument_gone (d : DB) (path : string) :
  GetDocument (DeleteDocument d path) path = None.
Proof.
  unfold GetDocument, DeleteDocument.
  destruct (documents d !! path) as [r|] eqn:Hp; [|by rewrite Hp].
  cbn [documents DeleteChunksForDocument].
  rewrite (proj2 (map_lookup_filter_None _ _ path)); [done|].
  right. intros r' Hr'. rewrite Hp in Hr'. injection Hr' as <-.
  simpl. tauto.
Qed.

(** A remove or rename event on an admitted note that is not also a write
    or create event drops the pending change of the path, whatever the
    store does, so that no later sweep indexes it, and calls
    [DeleteDocument] on the path. When that call returns no error, the
    path's document is gone from the store with its chunks and their
    embeddings, and the removal is reported. When it returns an error, the
    error is dropped: nothing is reported, the handler returns as usual,
    and the documents are as before. The call never panics. *)
Theorem remove_event_cancels_pending
    (event : Event) (wt : Watcher) (w : World) (relPath : string) :
  Indexer.isMarkdownFile (Name event) = true ->
  Rel (dir w) (Name event) = inr relPath ->
  Indexer.isHiddenRelPath relPath = false ->
  isChange (Op event) = false ->
  has (Op event) Remove || has (Op event) Rename = true ->
  let s := handleEvent event wt w in
  let r := Indexer.DeleteDocument relPath w in
  pending s.1 = delete relPath (pending wt)
  /\ (forall clock, relPath ∉ expired clock (pending s.1))
  /\ (r.1 = Ok tt \/ exists e, r.1 = Err e)
  /\ (r.1 = Ok tt ->
      db s.2 = DeleteDocument (db w) relPath
      /\ GetDocument (db s.2) relPath = None
      /\ (forall old id,
            GetDocument (db w) relPath = Some old ->
            chunkOf (db w) (Document.ID old) id ->
            GetChunk (db s.2) id = None /\ vec_chunks (db s.2) !! id = None)
      /\ calls s.2
         = (calls w ++ [CallMessage (RemovedFromIndex relPath)])%list)
  /\ (forall e, r.1 = Err e ->
        s.2 = r.2
        /\ calls s.2 = calls w
        /\ documents (db s.2) = documents (db w)).
Proof.
  intros Hmd Hrel Hhid Hch Hrm s r.
  assert (Hs : s = ({| pending := delete relPath (pending wt) |},
                    match r with
                    | (Ok _, w') => message (RemovedFromIndex relPath) w'
                    | (_, w') => w'
                    end)).
  { subst s r. unfold handleEvent.
    unfold Indexer.isMarkdownFile in Hmd. rewrite Hmd. cbn [negb].
    rewrite Hrel. unfold Indexer.isHiddenRelPath in Hhid. rewrite Hhid.
    unfold isChange in Hch. by rewrite Hch, Hrm. }
  rewrite Hs. clear Hs. cbn [fst pending].
  destruct r as [o w'] eqn:Er. subst r.
  apply IndexerSpec.DeleteDocument_run in Er
    as (d & -> & [[-> ->]|(e & -> & Hd)]); cbn [fst snd].
  - split_and!; [reflexivity| |by left| |discriminate].
    { intros clock. rewrite WatcherSpec.elem_of_expired, lookup_delete_eq.
      intros (t & [=] & _). }
    intros _. cbn [db calls message record setDB].
    split_and!; [reflexivity|apply DeleteDocument_gone| |reflexivity].
    intros old id Hold Hc. unfold GetDocument in Hold.
    unfold DeleteDocument.
    destruct (documents (db w) !! relPath) as [r|]; [|discriminate].
    injection Hold as <-.
    cbn [Document.ID toDocument snd] in Hc.
    destruct (StoreSpec.DeleteChunksForDocument_inside (db w) (doc_id r) id Hc)
      as [H1 H2].
    split; [exact H1|exact H2].
  - split_and!; [reflexivity| |right; by exists e|discriminate|].
    { intros clock. rewrite WatcherSpec.elem_of_expired, lookup_delete_eq.
      intros (t & [=] & _). }
    intros e' _. by split_and!.
Qed.

End WatcherMore.

(** The sweep of an idle watcher one second after a change. *)
Lemma idle_sweep_is_noop_witness :
  indexPendingFiles (H := Demo.scripted) Demo.client
    (pendingSince "a.md" 0) (setNow 1000000000 Demo.watched)
  = (pendingSince "a.md" 0, (Ok tt, setNow 1000000000 Demo.watched)).
Proof.
  apply idle_sweep_is_noop. intros path t Hp.
  cbn [pending pendingSince] in Hp.
  apply lookup_singleton_Some in Hp as [_ <-]. vm_compute. reflexivity.
Defined.

(** A note is written and then removed before the delay has passed: with
    a store that answers, and with one that fails; and the removal of a
    note that has its document and three chunks in the store. *)
Lemma remove_event_cancels_pending_witness :
  pending (handleEvent (H := Demo.scripted) (remove "/vault/a.md")
             (pendingSince "a.md" 0) Demo.watched).1
  = delete "a.md" {[ "a.md" := 0 ]}
  /\ calls (handleEvent (H := Demo.scripted) (remove "/vault/a.md")
              (pendingSince "a.md" 0) Demo.watched).2
     = [CallMessage (RemovedFromIndex "a.md")]
  /\ calls (handleEvent (H := Demo.scripted) (remove "/vault/a.md")
              (pendingSince "a.md" 0) failingStore).2
     = []
  /\ is_Some (GetDocument (db IndexerInv.emptiedVault) "note.md")
  /\ GetDocument
       (db (handleEvent (H := Demo.scripted) (remove "/vault/note.md")
              (pendingSince "note.md" 0) IndexerInv.emptiedVault).2)
       "note.md"
     = None.
Proof.
  destruct (remove_event_cancels_pending (H := Demo.scripted)
              (remove "/vault/a.md") (pendingSince "a.md" 0) Demo.watched
              "a.md") as (Hp & _ & _ & Hok & _);
    [vm_compute; reflexivity..|].
  destruct (remove_event_cancels_pending (H := Demo.scripted)
              (remove "/vault/a.md") (pendingSince "a.md" 0) failingStore
              "a.md") as (_ & _ & _ & _ & Herr);
    [vm_compute; reflexivity..|].
  destruct (remove_event_cancels_pending (H := Demo.scripted)
              (remove "/vault/note.md") (pendingSince "note.md" 0)
              IndexerInv.emptiedVault "note.md") as (_ & _ & _ & Hgone & _);
    [vm_compute; reflexivity..|].
  split; [exact Hp|]. split; [|split; [|split]].
  - refine (proj2 (proj2 (proj2 (Hok _)))). vm_compute; reflexivity.
  - refine (proj1 (proj2 (Herr (External "disk I/O error") _))).
    vm_compute; reflexivity.
  - vm_compute. eexists. reflexivity.
  - refine (proj1 (proj2 (Hgone _))). vm_compute; reflexivity.
Defined.

End WatcherMore.

(** ** More on the indexer. *)

Module IndexerMore.
Import Indexer IndexerInv EnvSpec IndexerSpec.
Section IndexerMore.
Context `{Collaborators}.

Lemma embedFrom_embedded fuel c i rest w w' :
  embedFrom fuel c i rest w = (Ok tt, w') ->
  (length rest <= fuel)%nat ->
  embedded (chunkID <$> rest) (db w) (db w').
Proof.
  revert i rest w. induction fuel as [|fuel IH]; intros i rest w.
  { intros [= <-] Hlen. destruct rest; [|simpl in Hlen; lia].
    apply embedded_refl. }
  destruct rest as [|x xs].
  { intros [= <-] _. apply embedded_refl. }
  cbn [embedFrom].
  set (batch := take (Z.to_nat batchSize) (x :: xs)).
  set (tail := drop (Z.to_nat batchSize) (x :: xs)).
  intros Hrun Hlen.
  apply bind_Ok in Hrun as (embs & w1 & He & Hrun).
  apply wrap_Ok_inv in He.
  apply EmbedDocuments_call in He as (Hdb1 & _); [|done].
  apply bind_Ok in Hrun as ([] & w2 & Hb & Hrun).
  apply insertBatch_Ok in Hb as [_ Hb]. rewrite Hdb1 in Hb.
  apply IH in Hrun.
  2:{ subst tail. rewrite length_drop. simpl in *.
      assert (Z.to_nat batchSize = 96%nat) by reflexivity. lia. }
  rewrite <- (take_drop (Z.to_nat batchSize) (x :: xs)), fmap_app.
  by eapply embedded_trans.
Qed.

(** [embedPending] sends the pending units to the provider in consecutive
    batches: the batches are the units in their order, each of 1 to 96
    units; the calls made, whatever the outcome, are the calls for the
    first batches, one call per batch and in order, with the contents of
    the batch as texts; and on success there is a call for every batch,
    every unit has an embedding, and chunks and documents are as before. *)
Theorem embed_batches (c : Cohere.Client) (pending : list pendingChunk)
    (w : World) :
  let r := embedPending c pending w in
  concat (batchesOf pending) = pending
  /\ Forall (λ b, (1 <= length b <= 96)%nat) (batchesOf pending)
  /\ (exists k, calls r.2
                = (calls w ++ (embedCall c <$> take k (batchesOf pending)))%list)
  /\ (r.1 = Ok tt ->
      calls r.2 = (calls w ++ (embedCall c <$> batchesOf pending))%list
      /\ embedded (chunkID <$> pending) (db w) (db r.2)).
Proof.
  cbv zeta. unfold batchesOf.
  destruct (batches_spec (length pending) pending (le_n _)) as [Hc HF].
  split; [exact Hc|]. split; [exact HF|].
  rewrite embedPending_embedFrom.
  destruct (embedFrom (length pending) c 0 pending w) as [o w'] eqn:E.
  destruct (embedFrom_batches _ _ _ _ _ _ _ E) as (k & Hk & Hall).
  cbn [fst snd]. split; [by exists k|].
  intros ->. split; [by rewrite <- (Hall eq_refl)|].
  by eapply embedFrom_embedded.
Qed.

Lemma insertBatch_errors embeddings j batch w e w' :
  insertBatch embeddings j batch w = (Err e, w') -> embedFailure e.
Proof.
  revert j w. induction batch as [|p rest IH]; intros j w; [intros [=]|].
  rewrite insertBatch_cons.
  destruct (index embeddings j) as [x|e0|] eqn:Ei.
  - destruct (SerializeFloat32 _) as [err|b].
    { intros [= <- <-]. right. left. by eexists. }
    destruct (Store.InsertEmbedding _ _ _) as [err|d].
    { intros [= <- <-]. right. right. by eexists. }
    apply IH.
  - by destruct (SearchSpec.index_not_Err embeddings j e0).
  - intros [=].
Qed.

Lemma embedFrom_errors fuel c i rest w e w' :
  embedFrom fuel c i rest w = (Err e, w') -> embedFailure e.
Proof.
  revert i rest w. induction fuel as [|fuel IH]; intros i rest w;
    [intros [=]|].
  destruct rest as [|x xs]; [intros [=]|].
  cbn [embedFrom]. unfold bind at 1.
  destruct (wrap _ (Cohere.EmbedDocuments c _) w) as [o1 w1] eqn:E1.
  destruct o1 as [embs|e1|]; [| |intros [=]].
  - unfold bind.
    destruct (insertBatch embs 0 _ w1) as [[[]|e2|] w2] eqn:E2;
      [apply IH| |intros [=]].
    intros [= <- <-]. by eapply insertBatch_errors.
  - intros [= <- <-]. unfold wrap in E1.
    destruct (Cohere.EmbedDocuments c _ w) as [[?|e0|] ?];
      try discriminate.
    injection E1 as <- <-. left. by do 2 eexists.
Qed.

(** A pass reads before it embeds: the outside calls of [Index] are file
    reads followed by embedding calls, so no file is read after the first
    batch was sent; and when the pass fails on parsing a file, no
    embedding call was made. *)
Theorem index_reads_before_embeds
    (c : Cohere.Client) (full : bool) (w : World) o w' files :
  found w = inr files ->
  Index c full w = (o, w') ->
  exists reads embeds,
    calls w' = (calls w ++ reads ++ embeds)%list
    /\ Forall (λ call, exists p, call = CallReadFile p /\ p ∈ files) reads
    /\ Forall (λ call, exists batch, call = embedCall c batch) embeds
    /\ (forall p e, o = Err (Wrap (FailedToParse p) e) -> embeds = []).
Proof.
  intros Hfound HI.
  assert (Hquiet : forall d1 : Store.DB, exists reads embeds : list Call,
    calls (setDB d1 w) = (calls w ++ reads ++ embeds)%list
    /\ Forall (λ call, exists p, call = CallReadFile p /\ p ∈ files) reads
    /\ Forall (λ call, exists batch, call = embedCall c batch) embeds
    /\ (forall p e, o = Err (Wrap (FailedToParse p) e) -> embeds = [])).
  { intros d1. exists [], []. split; [by rewrite app_nil_r|].
    by repeat split. }
  destruct (Index_start c full w o w' files Hfound HI)
    as [(e & _ & _ & ->)|(_ & d1 & [(doc & e & _ & _ & _ & ->)|[_ HI']])].
  { rewrite <- (setDB_id w). apply Hquiet. }
  { apply Hquiet. }
  revert HI'. clear HI.
  set (w1 := setDB d1 w).
  assert (Hnil : exists reads embeds : list Call,
    calls w1 = (calls w ++ reads ++ embeds)%list
    /\ Forall (λ call, exists p, call = CallReadFile p /\ p ∈ files) reads
    /\ Forall (λ call, exists batch, call = embedCall c batch) embeds
    /\ (forall p e, o = Err (Wrap (FailedToParse p) e) -> embeds = [])).
  { exists [], []. split; [by rewrite app_nil_r|]. by repeat split. }
  unfold bind at 1.
  destruct (selectFiles full _ files w1) as [o2 w2] eqn:Hs.
  destruct (selectFiles_spec _ _ _ _ _ _ Hs) as [-> Hsel].
  destruct o2 as [sel|e|]; [|intros [= <- <-]; exact Hnil..].
  destruct (Hsel sel eq_refl) as [Hin _].
  destruct sel as [|s ss]; [intros [= <- <-]; exact Hnil|].
  unfold bind at 1.
  destruct (parseAll (s :: ss) w1) as [o3 w3] eqn:Hp.
  destruct (parseAll_spec _ _ _ _ Hp) as (new3 & Hc3 & Hr3 & _).
  assert (Hreads : Forall (λ call, exists p, call = CallReadFile p /\ p ∈ files)
                     new3).
  { apply Forall_forall. intros call Hc.
    destruct (Hr3 call Hc) as (q & -> & Hq). exists q.
    split; [reflexivity|]. by apply Hin. }
  assert (Hparsed : exists reads embeds : list Call,
    calls w3 = (calls w ++ reads ++ embeds)%list
    /\ Forall (λ call, exists p, call = CallReadFile p /\ p ∈ files) reads
    /\ Forall (λ call, exists batch, call = embedCall c batch) embeds
    /\ (forall p e, o = Err (Wrap (FailedToParse p) e) -> embeds = [])).
  { exists new3, []. rewrite app_nil_r. by repeat split. }
  destruct o3 as [ap|e|]; [|intros [= <- <-]; exact Hparsed..].
  destruct ap as [|a ap']; [intros [= <- <-]; exact Hparsed|].
  rewrite embedPending_embedFrom. intros He.
  destruct (embedFrom_batches _ _ _ _ _ _ _ He) as (k & Hk & _).
  exists new3, (embedCall c <$> take k (batches (length (a :: ap')) (a :: ap'))).
  split; [by rewrite Hk, Hc3, <- app_assoc|].
  split; [exact Hreads|]. split.
  - apply Forall_forall. intros call Hc.
    apply list_elem_of_fmap in Hc as (b & -> & _). by exists b.
  - intros p e ->. apply embedFrom_errors in He.
    destruct He as [(n & inner & [=])|[(inner & [=])|(inner & [=])]].
Qed.

Lemma insertChunks_rows docID (chunks : list Chunker.Chunk) w :
  exists d pending,
    insertChunks docID chunks w = (Ok pending, setDB d w)
    /\ Store.documents d = Store.documents (db w)
    /\ Forall2 (λ p chunk,
         content p = Chunker.Content chunk
         /\ Db.GetChunk d (chunkID p)
            = Some (storedChunk (chunkID p) docID chunk)
         /\ Store.chunks (db w) !! chunkID p = None) pending chunks
    /\ NoDup (chunkID <$> pending)
    /\ (forall id, is_Some (Store.chunks (db w) !! id) ->
          Store.chunks d !! id = Store.chunks (db w) !! id).
Proof.
  revert w. induction chunks as [|ch cs IH]; intros w.
  - exists (db w), []. rewrite setDB_id.
    split_and!; [reflexivity|reflexivity|constructor|constructor|done].
  - cbn [insertChunks]. unfold bind at 1. unfold InsertChunk.
    unfold Store.InsertChunk.
    set (id := Store.nextRowid (Store.chunkIDs (db w))).
    set (r := {| Store.chunk_doc_id := docID;
                 Store.chunk_content := Chunker.Content ch;
                 Store.chunk_start_line := Chunker.StartLine ch;
                 Store.chunk_end_line := Chunker.EndLine ch;
                 Store.chunk_heading := Chunker.Heading ch |}).
    set (d1 := Store.mkDB _ _ _ _ _).
    assert (Hnone : Store.chunks (db w) !! id = None).
    { destruct (Store.chunks (db w) !! id) eqn:E; [|done].
      destruct (StoreSpec.nextRowid_above (Store.chunkIDs (db w)))
        as [_ Hfresh].
      assert (Hlt : id < id).
      { apply Hfresh, StoreSpec.chunkIDs_elem. by rewrite E. }
      lia. }
    destruct (IH (setDB d1 w)) as (d & pending & Hrun & Hdoc & HF & Hnd & Hmono).
    rewrite setDB_setDB in Hrun. cbn [db setDB] in Hdoc, HF, Hmono.
    assert (Hd1 : Store.chunks d1 = <[id := r]> (Store.chunks (db w)))
      by reflexivity.
    exists d, ({| chunkID := id; content := Chunker.Content ch |} :: pending).
    unfold bind. rewrite Hrun.
    split_and!; [reflexivity|exact Hdoc| | |].
    + constructor.
      * cbn [chunkID content]. split_and!; [reflexivity| |exact Hnone].
        unfold Db.GetChunk. rewrite Hmono, Hd1, lookup_insert_eq; [done|].
        rewrite Hd1, lookup_insert_eq. eauto.
      * eapply Forall2_impl; [exact HF|].
        intros p chunk (Hc & Hg & Hn). split_and!; [exact Hc|exact Hg|].
        rewrite Hd1 in Hn. apply lookup_insert_None in Hn. tauto.
    + cbn [fmap list_fmap chunkID]. apply NoDup_cons. split; [|exact Hnd].
      intros Hin. apply list_elem_of_fmap in Hin as (p & Hp & Hin).
      apply list_elem_of_lookup in Hin as [n Hn].
      destruct (Forall2_lookup_l _ _ _ _ _ HF Hn) as (chunk & _ & _ & _ & Hx).
      rewrite <- Hp, Hd1, lookup_insert_eq in Hx. discriminate.
    + intros id' Hsome.
      assert (Hne : id <> id').
      { intros <-. rewrite Hnone in Hsome. by destruct Hsome. }
      rewrite Hmono; rewrite Hd1, lookup_insert_ne by exact Hne; done.
Qed.

(** Indexing a note the store does not know: [parseFile] reads the file
    once, stores a document under the path with the title, the file's
    modification time and the time of indexing in seconds, under an id no
    document had, and stores the chunks of [chunkMarkdown] one for one
    and in order under pairwise different chunk ids, each with its
    content, line range and heading and with the new document's id; the
    pending units it returns pair these chunk ids with the contents. *)
Theorem parse_new_file_stores_chunks (relPath : string) (w : World) (f : File) :
  fs w !! relPath = Some f ->
  Store.GetDocument (db w) relPath = None ->
  exists pending w' docID,
    parseFile relPath w = (Ok pending, w')
    /\ calls w' = (calls w ++ [CallReadFile relPath])%list
    /\ Store.GetDocument (db w') relPath
       = Some {| Store.Document.ID := docID;
                 Store.Document.Path := relPath;
                 Store.Document.Title := extractTitle (Data f) relPath;
                 Store.Document.ModifiedAt := Unix (ModTime f);
                 Store.Document.IndexedAt := Unix (now w) |}
    /\ (docID ∉ Store.documentIDs (db w))
    /\ Forall2 (λ p chunk,
         content p = Chunker.Content chunk
         /\ Db.GetChunk (db w') (chunkID p)
            = Some (storedChunk (chunkID p) docID chunk))
         pending (Chunker.chunkMarkdown (Data f))
    /\ NoDup (chunkID <$> pending).
Proof.
  intros Hf Hnew. unfold Store.GetDocument in Hnew.
  apply fmap_None in Hnew.
  unfold parseFile. unfold bind at 1. unfold Stat. rewrite Hf.
  unfold bind at 1. unfold ReadFile. rewrite Hf.
  set (w1 := record (CallReadFile relPath) w).
  unfold bind at 1. unfold UpsertDocument, Store.UpsertDocument.
  cbn [db record w1]. rewrite Hnew.
  set (docID := Store.nextRowid (Store.documentIDs (db w))).
  unfold bind at 1. unfold DeleteChunksForDocument.
  set (w3 := setDB (Store.DeleteChunksForDocument _ docID) _).
  destruct (insertChunks_rows docID (Chunker.chunkMarkdown (Data f)) w3)
    as (d & pending & Hrun & Hdoc & HF & Hnd & _).
  exists pending, (setDB d w3), docID.
  split; [exact Hrun|]. split; [reflexivity|]. split; [|split; [|split]].
  - unfold Store.GetDocument. cbn [db setDB]. rewrite Hdoc.
    subst w3. cbn [db setDB Store.documents Store.DeleteChunksForDocument].
    by rewrite lookup_insert_eq.
  - intros Hin.
    destruct (StoreSpec.nextRowid_above (Store.documentIDs (db w)))
      as [_ Hfresh].
    specialize (Hfresh _ Hin). subst docID. lia.
  - cbn [db setDB]. eapply Forall2_impl; [exact HF|].
    intros p chunk (Hc & Hg & _). by split.
  - exact Hnd.
Qed.

Lemma parseAll_documents sel w o w' :
  parseAll sel w = (o, w') ->
  forall p, p ∉ sel ->
    Store.documents (db w') !! p = Store.documents (db w) !! p.
Proof.
  revert w o w'. induction sel as [|q rest IH]; intros w o w';
    [by intros [= _ <-]|].
  cbn [parseAll]. unfold bind at 1.
  destruct (wrap (FailedToParse q) (parseFile q) w) as [o1 w1] eqn:E1.
  assert (E1' : exists o1', parseFile q w = (o1', w1)).
  { unfold wrap in E1. destruct (parseFile q w) as [[?|?|] ?];
      injection E1 as <- <-; eauto. }
  destruct E1' as [o1' E1'].
  pose proof (parseFile_documents _ _ _ _ E1') as Hd1.
  intros Hrun p Hp. apply not_elem_of_cons in Hp as [Hne Hp].
  destruct o1 as [pending|e|];
    [|injection Hrun as _ <-; by apply Hd1..].
  unfold bind in Hrun.
  destruct (parseAll rest w1) as [o2 w2] eqn:E2.
  rewrite <- (Hd1 p Hne), <- (IH _ _ _ E2 p Hp).
  by destruct o2; injection Hrun as _ <-.
Qed.

Lemma selectFiles_errors full byPath files w e w' :
  selectFiles full byPath files w = (Err e, w') ->
  e = External "no such file or directory".
Proof.
  revert e w'. induction files as [|f rest IH]; intros e w'; [intros [=]|].
  cbn [selectFiles]. unfold bind at 1.
  destruct (needsIndexing f full (byPath !! f) w) as [o1 w1] eqn:Hn.
  pose proof (needsIndexing_world _ _ _ _ _ _ Hn) as ->.
  destruct o1 as [b|e1|]; [| |intros [=]].
  - unfold bind.
    destruct (selectFiles full byPath rest w) as [[sel|e2|] w2] eqn:Hs2;
      intros [= <- <-]. by eapply IH.
  - intros [= <- <-]. revert Hn. unfold needsIndexing.
    destruct full; [discriminate|].
    destruct (byPath !! f); [|discriminate].
    unfold bind, Stat. destruct (fs w !! f); [discriminate|].
    by intros [= <-].
Qed.

Lemma parseAll_errors sel w e w' :
  parseAll sel w = (Err e, w') ->
  exists q inner, e = Wrap (FailedToParse q) inner.
Proof.
  revert w e w'. induction sel as [|q rest IH]; intros w e w'; [intros [=]|].
  cbn [parseAll]. unfold bind at 1. unfold wrap at 1.
  destruct (parseFile q w) as [[pd|e1|] w1]; [| |intros [=]].
  - unfold bind. destruct (parseAll rest w1) as [[ap|e2|] w2] eqn:E2;
      intros [= <- <-]. by eapply IH.
  - intros [= <- <-]. by do 2 eexists.
Qed.

(** A pass forgets the notes that are gone: once the listing has been
    read, and unless the pass ends on the store's error for the query of
    the documents or for a delete, the store has no document for a path
    that is not listed, however the pass ends. On the error for the query
    the pass leaves the world as it was. *)
Theorem index_removes_unlisted
    (c : Cohere.Client) (full : bool) (w : World) o w' files :
  uniqueIDs (Store.documents (db w)) ->
  found w = inr files ->
  Index c full w = (o, w') ->
  (forall e, o = Err (Wrap FailedToGetExistingDocuments e) -> w' = w)
  /\ ((forall e, o <> Err (Wrap FailedToGetExistingDocuments e)) ->
      (forall p e, o <> Err (Wrap (FailedToDeleteDocument p) e)) ->
      forall p, p ∉ files -> Store.GetDocument (db w') p = None).
Proof.
  intros Hu Hfound Hrun.
  destruct (Index_start c full w o w' files Hfound Hrun)
    as [(e & _ & -> & ->)
       |(Hnf & d1 & [(doc & e & _ & _ & -> & ->)|[Hrm HI]])].
  { split; [done|]. intros Hno. exfalso. exact (Hno e eq_refl). }
  { split; [discriminate|]. intros _ Hno. exfalso.
    exact (Hno _ e eq_refl). }
  split.
  { intros e ->. exfalso. revert HI. unfold bind at 1.
    destruct (selectFiles full _ files (setDB d1 w)) as [[sel|e2|] w2] eqn:Hs;
      [|intros [= He _]|discriminate].
    2:{ apply selectFiles_errors in Hs. congruence. }
    destruct sel as [|s ss]; [discriminate|].
    unfold bind at 1.
    destruct (parseAll (s :: ss) w2) as [[ap|e3|] w3] eqn:Hpa;
      [|intros [= He _]|discriminate].
    2:{ apply parseAll_errors in Hpa as (q & inner & ->). discriminate. }
    destruct ap as [|a ap']; [discriminate|].
    rewrite embedPending_embedFrom. intros He.
    apply embedFrom_errors in He.
    destruct He as [(n & inner & [=])|[(inner & [=])|(inner & [=])]]. }
  intros _ _ p Hp.
  pose proof (removeDeleted_documents (list_to_set files)
                (Store.GetAllDocuments (db w)) w _ Hu Hrm) as Hdel.
  cbn [db setDB] in Hdel.
  destruct Hdel as (_ & _ & Hsub & Hgone).
  assert (H1 : Store.documents d1 !! p = None).
  { destruct (Store.documents d1 !! p) as [r|] eqn:E; [|done].
    specialize (Hsub p r E).
    rewrite <- (Hgone (Store.toDocument (p, r))); [done| |].
    - unfold Store.GetAllDocuments. apply list_elem_of_fmap.
      exists (p, r). split; [reflexivity|]. by apply elem_of_map_to_list.
    - cbn [Store.Document.Path Store.toDocument fst].
      by rewrite elem_of_list_to_set. }
  set (w1 := setDB d1 w) in *.
  assert (Hw1 : Store.GetDocument (db w1) p = None).
  { unfold Store.GetDocument. cbn [db setDB w1]. by rewrite H1. }
  revert HI. unfold bind at 1.
  destruct (selectFiles full _ files w1) as [o2 w2] eqn:Hs.
  destruct (selectFiles_spec _ _ _ _ _ _ Hs) as [-> Hsel].
  destruct o2 as [sel|e|]; [|by intros [= _ <-]..].
  destruct (Hsel sel eq_refl) as [Hin _].
  destruct sel as [|s ss]; [by intros [= _ <-]|].
  unfold bind at 1.
  destruct (parseAll (s :: ss) w1) as [o3 w3] eqn:Hpa.
  assert (H3 : Store.GetDocument (db w3) p = None).
  { unfold Store.GetDocument.
    rewrite (parseAll_documents _ _ _ _ Hpa p); [exact Hw1|].
    intros Hps. apply Hp. by apply Hin. }
  destruct o3 as [ap|e|]; [|by intros [= _ <-]..].
  destruct ap as [|a ap']; [by intros [= _ <-]|].
  rewrite embedPending_embedFrom. intros He.
  destruct (embedFrom_calls _ _ _ _ _ _ _ He) as (Hd & _).
  unfold Store.GetDocument in *. by rewrite Hd.
Qed.

End IndexerMore.

(** A first pass over the vault of two notes. *)
Lemma index_reads_before_embeds_witness :
  exists reads embeds,
    calls Demo.vaultIndexed = (reads ++ embeds)%list
    /\ Forall (λ call, exists p, call = CallReadFile p
                                 /\ p ∈ ["a.md"; "b.md"]) reads
    /\ Forall (λ call, exists batch,
                 call = embedCall Demo.client batch)
         embeds.
Proof.
  destruct (index_reads_before_embeds (H := Demo.answering) Demo.client false
              Demo.vault
              (Index (H := Demo.answering) Demo.client false Demo.vault).1
              Demo.vaultIndexed ["a.md"; "b.md"] eq_refl)
    as (reads & embeds & Hc & Hr & He & _).
  - apply surjective_pairing.
  - exists reads, embeds. split; [exact Hc|]. by split.
Defined.

(** The note [a.md] of the vault, not indexed before. *)
Lemma parse_new_file_stores_chunks_witness :
  exists pending w',
    parseFile (H := Demo.answering) "a.md" Demo.vault = (Ok pending, w')
    /\ NoDup (chunkID <$> pending).
Proof.
  destruct (parse_new_file_stores_chunks (H := Demo.answering) "a.md"
              Demo.vault
              {| ModTime := 1700000000000000000; Data := Fixtures.A_B_C_D |})
    as (pending & w' & docID & Hrun & _ & _ & _ & _ & Hnd).
  - vm_compute; reflexivity.
  - vm_compute; reflexivity.
  - by exists pending, w'.
Defined.

(** The pass over the emptied vault removes the document of the note. *)
Lemma index_removes_unlisted_witness :
  Store.GetDocument
    (db (Index (H := Demo.scripted) Demo.client false emptiedVault).2)
    "note.md" = None.
Proof.
  refine (proj2 (index_removes_unlisted (H := Demo.scripted) Demo.client false
                   emptiedVault
                   (Index (H := Demo.scripted) Demo.client false
                      emptiedVault).1
                   (Index (H := Demo.scripted) Demo.client false
                      emptiedVault).2 [] _ eq_refl _) _ _ "note.md" _).
  - intros p q r s Hp Hq _.
    cbn [db emptiedVault Store.documents Demo.threeChunks] in Hp, Hq.
    apply lookup_singleton_Some in Hp as [<- _].
    by apply lookup_singleton_Some in Hq as [<- _].
  - apply surjective_pairing.
  - intros e. vm_compute. discriminate.
  - intros p e. vm_compute. discriminate.
  - apply not_elem_of_nil.
Defined.

End IndexerMore.

(** ** The walks of the vault. *)

Module WalkSpec.
Import Walk.

Lemma node_ind' (P : node -> Prop) :
  (forall name, P (File name)) ->
  (forall name entries, Forall P entries -> P (Dir name entries)) ->
  forall n, P n.
Proof.
  intros HF HD. fix IH 1. intros [name|name entries]; [apply HF|].
  apply HD. induction entries as [|e es IHes]; constructor;
    [apply IH|exact IHes].
Qed.

(** What the walk of [findMarkdownFiles] lists from a node on. *)
Lemma markdownBelow_reach (n : node) :
  forall below comps,
    comps ∈ markdownBelow below n <->
    exists path name,
      comps = (below ++ path)%list
      /\ reach n path (File name)
      /\ Indexer.isMarkdownFile name = true.
Proof.
  induction n as [fname|dname entries IH] using node_ind';
    intros below comps.
  - cbn [markdownBelow]. split.
    + destruct (Indexer.isMarkdownFile fname) eqn:Hmd;
        [|intros Hin; by apply elem_of_nil in Hin].
      intros Hin. apply list_elem_of_singleton in Hin as ->.
      exists [], fname. rewrite app_nil_r. split_and!; [done|constructor|done].
    + intros (path & name & -> & Hr & Hmd). inversion Hr; subst.
      rewrite Hmd, app_nil_r. apply list_elem_of_here.
  - cbn [markdownBelow]. split.
    + destruct (Indexer.isHiddenDir dname) eqn:Hh;
        [intros Hin; by apply elem_of_nil in Hin|].
      intros Hin. apply list_elem_of_bind in Hin as (entry & Hin & He).
      rewrite Forall_forall in IH.
      apply (IH entry He) in Hin as (path & name & -> & Hr & Hmd).
      exists (Name entry :: path), name. rewrite <- app_assoc.
      split_and!; [done| |done]. by constructor.
    + intros (path & name & -> & Hr & Hmd).
      inversion Hr as [|? ? entry path' ? Hh He Hr']; subst.
      rewrite Hh. apply list_elem_of_bind. exists entry.
      split; [|exact He]. rewrite Forall_forall in IH.
      apply (IH entry He). exists path', name.
      rewrite <- app_assoc. by split_and!.
Qed.

(** What the walk of [addWatchRecursive] adds from a node on. *)
Lemma watchedBelow_reach (n : node) :
  forall below comps,
    comps ∈ watchedBelow below n <->
    exists path name entries,
      comps = (below ++ path)%list
      /\ reach n path (Dir name entries)
      /\ Indexer.isHiddenDir name = false.
Proof.
  induction n as [fname|dname entries IH] using node_ind';
    intros below comps.
  - cbn [watchedBelow]. split.
    + intros Hin. by apply elem_of_nil in Hin.
    + intros (path & name & es & -> & Hr & _). inversion Hr.
  - cbn [watchedBelow]. fold (Indexer.isHiddenDir dname). split.
    + destruct (Indexer.isHiddenDir dname) eqn:Hh;
        [intros Hin; by apply elem_of_nil in Hin|].
      intros Hin. apply elem_of_cons in Hin as [->|Hin].
      { exists [], dname, entries. rewrite app_nil_r.
        split_and!; [done|constructor|done]. }
      apply list_elem_of_bind in Hin as (entry & Hin & He).
      rewrite Forall_forall in IH.
      apply (IH entry He) in Hin as (path & name & es & -> & Hr & Hn).
      exists (Name entry :: path), name, es. rewrite <- app_assoc.
      split_and!; [done| |done]. by constructor.
    + intros (path & name & es & -> & Hr & Hn).
      inversion Hr as [|? ? entry path' ? Hh He Hr']; subst.
      { rewrite Hn, app_nil_r. apply list_elem_of_here. }
      rewrite Hh. apply list_elem_of_further, list_elem_of_bind.
      exists entry. split; [|exact He]. rewrite Forall_forall in IH.
      apply (IH entry He). exists path', name, es.
      rewrite <- app_assoc. by split_and!.
Qed.

(** The directory that holds a reached file is reached, and is not
    hidden. *)
Lemma reach_parent (n : node) (dirs : list string) (name : string) m :
  reach n (dirs ++ [name]) m ->
  exists dname entries,
    reach n dirs (Dir dname entries)
    /\ Indexer.isHiddenDir dname = false
    /\ m ∈ entries /\ Name m = name.
Proof.
  revert n. induction dirs as [|d ds IH]; intros n Hr.
  - cbn [app] in Hr. inversion Hr as [|? ? entry path ? Hh He Hr']; subst.
    inversion Hr'; subst. exists name0, entries.
    split_and!; [constructor|done|done|done].
  - cbn [app] in Hr. inversion Hr as [|? ? entry path ? Hh He Hr']; subst.
    destruct (IH _ Hr') as (dname & es & Hrd & Hn & Hm & Hname).
    exists dname, es. split_and!; [by constructor|done|done|done].
Qed.

(** [findMarkdownFiles] lists exactly the files with the note extension,
    in any case of letters, that are reached from the root through
    directories whose names do not begin with the hidden-file marker, the
    root included; the name of the file itself is not tested for the
    marker. Each is listed by its path relative to the root. *)
Theorem walk_lists_notes_outside_hidden_directories
    (root : node) (relPath : string) :
  relPath ∈ findMarkdownFiles root <->
  exists path name,
    relPath = rel path
    /\ reach root path (File name)
    /\ Indexer.isMarkdownFile name = true.
Proof.
  unfold findMarkdownFiles. rewrite list_elem_of_fmap. split.
  - intros (comps & -> & Hin).
    apply markdownBelow_reach in Hin as (path & name & -> & Hr & Hmd).
    by exists path, name.
  - intros (path & name & -> & Hr & Hmd). exists path.
    split; [reflexivity|]. apply markdownBelow_reach. by exists path, name.
Qed.

(** On the mixed vault: the hidden note is listed, the note under the
    hidden directory is not. *)
Example findMarkdownFiles_mixedVault :
  findMarkdownFiles mixedVault = [".draft.md"; "a.MD"; "sub/b.md"]
  /\ addWatchRecursive mixedVault = [[]; ["sub"]].
Proof. split; vm_compute; reflexivity. Qed.

(** A vault whose own directory name begins with the hidden-file marker
    is skipped as a whole: nothing is listed and nothing is watched. *)
Theorem hidden_root_lists_nothing (name : string) (entries : list node) :
  Indexer.isHiddenDir name = true ->
  findMarkdownFiles (Dir name entries) = []
  /\ addWatchRecursive (Dir name entries) = [].
Proof.
  intros Hh. split.
  - destruct (findMarkdownFiles (Dir name entries)) as [|x l] eqn:E;
      [reflexivity|].
    assert (Hx : x ∈ findMarkdownFiles (Dir name entries))
      by (rewrite E; apply list_elem_of_here).
    unfold findMarkdownFiles in Hx.
    apply list_elem_of_fmap in Hx as (comps & _ & Hin).
    apply markdownBelow_reach in Hin as (path & fname & _ & Hr & _).
    inversion Hr; congruence.
  - destruct (addWatchRecursive (Dir name entries)) as [|x l] eqn:E;
      [reflexivity|].
    assert (Hx : x ∈ addWatchRecursive (Dir name entries))
      by (rewrite E; apply list_elem_of_here).
    apply watchedBelow_reach in Hx as (path & dname & es & _ & Hr & Hn).
    inversion Hr; congruence.
Qed.

Lemma hidden_root_lists_nothing_witness :
  findMarkdownFiles dotVault = [] /\ addWatchRecursive dotVault = [].
Proof. apply hidden_root_lists_nothing. reflexivity. Defined.

(** The watcher watches every directory that holds a listed note: the
    directory of every file [findMarkdownFiles] lists is among those
    [addWatchRecursive] adds. *)
Theorem listed_notes_are_watched
    (root : node) (dirs : list string) (name : string) :
  (dirs ++ [name])%list ∈ markdownBelow [] root ->
  dirs ∈ addWatchRecursive root.
Proof.
  intros Hin.
  apply markdownBelow_reach in Hin as (path & fname & Hp & Hr & _).
  cbn [app] in Hp. subst path.
  destruct (reach_parent _ _ _ _ Hr) as (dname & es & Hrd & Hn & _).
  apply watchedBelow_reach. by exists dirs, dname, es.
Qed.

Lemma listed_notes_are_watched_witness :
  ["sub"] ∈ addWatchRecursive mixedVault.
Proof.
  apply (listed_notes_are_watched mixedVault ["sub"] "b.md").
  vm_compute. apply list_elem_of_further, list_elem_of_further,
    list_elem_of_here.
Defined.

End WalkSpec.
